(** * Cell-range rendering and key recycling of the virtualized Grid

    A shallow embedding of [source/Grid/defaultCellRangeRenderer.js] (the
    variant that keeps the key recycler on the cell cache and sorts the
    rendered cells by descending key) and of its sibling variant (recycler
    kept on the parent, ascending sort), followed by the properties of the
    key recycler and of the range renderer; and of
    [source/Grid/defaultOverscanIndicesGetter.js].

    Conventions of the embedding:
    - row and column indices are JavaScript numbers holding integers: [Z]
      (their text in a key is the decimal one, as JavaScript prints integers
      below 10^21 in magnitude);
    - slot keys are the positive integers handed out by the recycler: [nat];
    - pixel offsets and sizes are integers as well;
    - a [Map] with string keys is a [gmap string _]; the plain objects used
      as caches ([cellCache], [styleCache]) are [gmap string _] as well;
    - the sparse array [usedKeys] is a list of optional entries, [None]
      being a hole, extended on a write past its end as JavaScript does;
    - the locals mutated by the callbacks handed to [foreachKey] are threaded
      through as an explicit state. *)

From Equations Require Import Equations.
From Equations.Prop Require Import Logic.
From Stdlib Require Import Ascii.
From stdpp Require Import gmap strings list pretty sorting.

Set Default Proof Using "Type".
Local Open Scope Z_scope.

(** ** JavaScript arrays with holes *)

Module JsArray.

(** [a[i]]: [None] stands for [undefined] (a hole or an index past the end). *)
Definition get {A} (a : list (option A)) (i : nat) : option A := mjoin (a !! i).

(** [a[i] = v]: in range the slot is overwritten, past the end the array
    grows to length [i + 1] and the slots in between are holes. *)
Definition set {A} (a : list (option A)) (i : nat) (v : A) : list (option A) :=
  if decide (i < length a)%nat then <[i := Some v]> a
  else a ++ replicate (i - length a) None ++ [Some v].

(** Truthiness of [a[i]] for an array of booleans. *)
Definition truthy (a : list (option bool)) (i : nat) : bool :=
  match get a i with Some true => true | _ => false end.

End JsArray.

(** ** Keys and iteration over a rectangle *)

(** [for (let i = start; i <= stop; i++)] visits these indices, in order. *)
Definition indexRange (start stop : Z) : list Z := seqZ start (stop - start + 1).

(** [`${rowIndex}-${columnIndex}`] *)
Definition getKey (rowIndex columnIndex : Z) : string :=
  pretty rowIndex +:+ "-" +:+ pretty columnIndex.

Definition foreachKey {S : Type}
    (rowStartIndex rowStopIndex columnStartIndex columnStopIndex : Z)
    (callback : string → S → S) (s : S) : S :=
  foldl (λ s rowIndex,
           foldl (λ s columnIndex, callback (getKey rowIndex columnIndex) s)
                 s (indexRange columnStartIndex columnStopIndex))
        s (indexRange rowStartIndex rowStopIndex).

(** ** The key recycler *)

Record ReusableKeyCache : Type := { lastMap : gmap string nat }.

(** [constructor()] *)
Definition newReusableKeyCache : ReusableKeyCache := {| lastMap := ∅ |}.

(** The locals of [getReusableKeyMap] that its two callbacks update. *)
Record KeyScan : Type :=
  { newMap : gmap string nat; usedKeys : list (option bool); nextKey : nat }.

(** [newMap = new Map(); usedKeys = []; nextKey = 1] *)
Definition initScan : KeyScan := {| newMap := ∅; usedKeys := []; nextKey := 1 |}.

(** The inner [while (newKey == null)] loop: returns the key found and the
    cursor after it.  It stops at the latest one past the end of [usedKeys]. *)
Equations? findNewKey (used : list (option bool)) (cursor : nat) : nat * nat
    by wf (length used - cursor)%nat lt :=
  findNewKey used cursor with inspect (JsArray.truthy used cursor) := {
    | exist _ false _ := (cursor, S cursor);
    | exist _ true Hused := findNewKey used (S cursor) }.
Proof.
  unfold JsArray.truthy, JsArray.get in Hused.
  destruct (used !! cursor) as [o|] eqn:Hlk; [|done].
  apply lookup_lt_Some in Hlk. lia.
Qed.

(** Callback of the first [foreachKey]. *)
Definition carryForward (lastMap : gmap string nat) (key : string) (st : KeyScan) : KeyScan :=
  match lastMap !! key with
  | Some lastKey =>
      {| newMap := <[key := lastKey]> (newMap st);
         usedKeys := JsArray.set (usedKeys st) lastKey true;
         nextKey := nextKey st |}
  | None => st
  end.

(** Callback of the second [foreachKey]. *)
Definition assignKey (key : string) (st : KeyScan) : KeyScan :=
  let '(newKey, nextKey') :=
    match newMap st !! key with
    | Some newKey => (newKey, nextKey st)
    | None => findNewKey (usedKeys st) (nextKey st)
    end in
  {| newMap := <[key := newKey]> (newMap st);
     usedKeys := JsArray.set (usedKeys st) newKey true;
     nextKey := nextKey' |}.

(** Returns the new map and the recycler with [lastMap] replaced by it. *)
Definition getReusableKeyMap (this : ReusableKeyCache)
    (rowStartIndex rowStopIndex columnStartIndex columnStopIndex : Z)
    : gmap string nat * ReusableKeyCache :=
  let st := initScan in
  let st := foreachKey rowStartIndex rowStopIndex columnStartIndex columnStopIndex
              (carryForward (lastMap this)) st in
  let st := foreachKey rowStartIndex rowStopIndex columnStartIndex columnStopIndex
              assignKey st in
  (newMap st, {| lastMap := newMap st |}).

(** ** Iteration order of [foreachKey] *)

(** The coordinates of a rectangle in the order the two nested loops visit
    them, and their keys. *)
Definition rectCoords (rowStartIndex rowStopIndex columnStartIndex columnStopIndex : Z)
    : list (Z * Z) :=
  rowIndex ← indexRange rowStartIndex rowStopIndex;
  columnIndex ← indexRange columnStartIndex columnStopIndex;
  [(rowIndex, columnIndex)].

Definition rectKeys (rowStartIndex rowStopIndex columnStartIndex columnStopIndex : Z)
    : list string :=
  (λ rc, getKey rc.1 rc.2) <$>
    rectCoords rowStartIndex rowStopIndex columnStartIndex columnStopIndex.

(** ** Numbers and strings *)

(** [n.toString()] for a slot key.  ([pretty] is also what a template
    literal makes of an integer index: decimal digits, after a dash if the
    index is negative.) *)
Definition toString (n : nat) : string := pretty n.

(** The value of a character as a digit of [parseInt], below 36. *)
Definition digitValue (c : ascii) : option N :=
  let n := N_of_ascii c in
  if (48 <=? n)%N && (n <=? 57)%N then Some (n - 48)%N
  else if (97 <=? n)%N && (n <=? 122)%N then Some (n - 87)%N
  else if (65 <=? n)%N && (n <=? 90)%N then Some (n - 55)%N
  else None.

(** Space, tab, line feed, vertical tab, form feed, carriage return. *)
Definition isWhiteSpace (c : ascii) : bool :=
  let n := N_of_ascii c in
  bool_decide (n = 32 ∨ n = 9 ∨ n = 10 ∨ n = 11 ∨ n = 12 ∨ n = 13)%N.

Fixpoint trimStart (s : string) : string :=
  match s with
  | String c s' => if isWhiteSpace c then trimStart s' else s
  | EmptyString => s
  end.

(** The longest prefix of digits below [radix], as a number; [acc] is [None]
    as long as no digit was read. *)
Fixpoint parseDigits (radix : N) (acc : option N) (s : string) : option N :=
  match s with
  | String c s' =>
      match digitValue c with
      | Some d =>
          if (d <? radix)%N then parseDigits radix (Some (radix * default 0 acc + d))%N s'
          else acc
      | None => acc
      end
  | EmptyString => acc
  end.

(** [parseInt(s)] with no radix argument; [None] is [NaN].  Exact on the
    integers (the source's keys stay far below 2^53). *)
Definition parseInt (s : string) : option Z :=
  let s := trimStart s in
  let '(sign, s) :=
    match s with
    | String "-" s' => (-1, s')
    | String "+" s' => (1, s')
    | _ => (1, s)
    end in
  let '(radix, s) :=
    match s with
    | String "0" (String "x" s') | String "0" (String "X" s') => (16%N, s')
    | _ => (10%N, s)
    end in
  (λ n, sign * Z.of_N n) <$> parseDigits radix None s.

(** A string of decimal digits only. *)
Fixpoint allDigits (s : string) : bool :=
  match s with
  | String c s' =>
      match digitValue c with Some d => (d <? 10)%N | None => false end && allDigits s'
  | EmptyString => true
  end.

(** ** Vocabulary of the recycler's properties *)

(** No slot key is assigned to two keys. *)
Definition assignmentInj (m : gmap string nat) : Prop :=
  ∀ key1 key2 slot, m !! key1 = Some slot → m !! key2 = Some slot → key1 = key2.

(** The in-use array marks exactly the slot keys of the new map, and every
    positive integer below the cursor is marked. *)
Record ScanInv (st : KeyScan) : Prop :=
  { inv_used : ∀ slot, JsArray.truthy (usedKeys st) slot = true
                       ↔ ∃ key, newMap st !! key = Some slot;
    inv_below : ∀ slot, (1 ≤ slot < nextKey st)%nat
                        → JsArray.truthy (usedKeys st) slot = true;
    inv_cursor : (1 ≤ nextKey st)%nat }.

(** The recycler states a viewport can be in: a fresh recycler, and what
    any sequence of calls makes of it. *)
Inductive reachable : ReusableKeyCache → Prop :=
  | reachable_new : reachable newReusableKeyCache
  | reachable_call this rowStartIndex rowStopIndex columnStartIndex columnStopIndex :
      reachable this →
      reachable (getReusableKeyMap this rowStartIndex rowStopIndex
                   columnStartIndex columnStopIndex).2.

(** ** Values handled by the range renderer *)

(** Position styles.  Sizes and offsets are pixel counts. *)
Module Style.
Inductive length : Type := auto | px (n : Z).
Record t : Type :=
  { height : length; left : Z; position : string; top : Z; width : length }.
End Style.

(** What [getSizeAndPositionOfCell] returns. *)
Module SizeAndPosition.
Record t : Type := { offset : Z; size : Z }.
End SizeAndPosition.

(** The size-and-position managers, as far as the renderer queries them. *)
Module Manager.
Record t : Type :=
  { getSizeAndPositionOfCell : Z → SizeAndPosition.t;
    areOffsetsAdjusted : bool }.
End Manager.

(** [visibleRowIndices] and [visibleColumnIndices]. *)
Module Indices.
Record t : Type := { start : Z; stop : Z }.
End Indices.

(** A rendered cell: an element with its [key] ([None] is [null]), whether
    its [type] carries [__internalCellMeasurerFlag], its [props.style]
    ([None] is [undefined]), its [props.children] and the rest of its
    content. *)
Module Element.
#[local] Set Warnings "-register-all".
Inductive t : Type :=
  make { key : option string;
         cellMeasurer : bool;
         style : option Style.t;
         children : option t;
         content : string }.

(** [Object.assign({}, e, {key: k})] *)
Definition withKey (e : t) (k : string) : t :=
  make (Some k) (cellMeasurer e) (style e) (children e) (content e).
End Element.

(** What the cell renderer returns and what [cellCache[key]] holds. *)
Inductive Rendered : Type :=
  | RUndefined
  | RNull
  | RFalse
  | RElement (e : Element.t).

Definition truthy (r : Rendered) : bool :=
  match r with RElement _ => true | _ => false end.

(** The objects the recycler is attached to, under
    [ReusableKeyCache.symbol]. *)
Record Parent : Type :=
  { warnedAboutMissingStyle : bool;
    parentKeyCache : option ReusableKeyCache }.

Record CellCache : Type :=
  { cells : gmap string Rendered;
    cellKeyCache : option ReusableKeyCache }.

(** The argument of the cell renderer.  [parent] is the Grid itself, the
    same object at every call; of the two properties this module keeps on
    it, the cell renderer can see the plain one, [__warnedAboutMissingStyle]
    (the recycler is filed under a symbol private to the module). *)
Record CellRendererParams : Type :=
  { cr_columnIndex : Z;
    cr_isScrolling : bool;
    cr_isVisible : bool;
    cr_key : string;
    cr_parent : bool;
    cr_rowIndex : Z;
    cr_style : Style.t }.

(** The argument of [defaultCellRangeRenderer], without the mutable objects
    [cellCache], [styleCache] and [parent], which live in the [Store], and
    without [cellRenderer]. *)
Record CellRangeRendererParams : Type :=
  { columnSizeAndPositionManager : Manager.t;
    columnStartIndex : Z;
    columnStopIndex : Z;
    deferredMeasurementCache : option (Z → Z → bool);
    horizontalOffsetAdjustment : Z;
    isScrolling : bool;
    isScrollingOptOut : bool;
    rowSizeAndPositionManager : Manager.t;
    rowStartIndex : Z;
    rowStopIndex : Z;
    verticalOffsetAdjustment : Z;
    visibleColumnIndices : Indices.t;
    visibleRowIndices : Indices.t }.

(** The two variants of the renderer: the one of
    [source/Grid/defaultCellRangeRenderer.js] keeps the recycler on
    [cellCache] and sorts by [parseInt(b.key) - parseInt(a.key)]; its sibling
    keeps it on [parent] and sorts by [parseInt(a.key) - parseInt(b.key)]. *)
Inductive RendererVariant : Type := KeysOnCellCache | KeysOnParent.

(** ** Sorting *)

(** [parseInt(e.key)]; a [null] key reads as the string "null". *)
Definition keyNumber (e : Element.t) : option Z :=
  parseInt (default "null" (Element.key e)).

(** The comparator handed to [sort], with a [NaN] result read as [+0]. *)
Definition compareCells (v : RendererVariant) (a b : Element.t) : Z :=
  default 0
    (match v with
     | KeysOnCellCache => kb ← keyNumber b; ka ← keyNumber a; Some (kb - ka)
     | KeysOnParent => ka ← keyNumber a; kb ← keyNumber b; Some (ka - kb)
     end).

(** [Array.prototype.sort] is stable: an element moves behind the elements
    that compare strictly before it, and stays ahead of the others. *)
Fixpoint insertCell {A} (cmp : A → A → Z) (x : A) (l : list A) : list A :=
  match l with
  | [] => [x]
  | y :: l' => if cmp x y <=? 0 then x :: l else y :: insertCell cmp x l'
  end.

Definition sort {A} (cmp : A → A → Z) (l : list A) : list A :=
  foldr (insertCell cmp) [] l.

(** ** The range renderer *)

(** A loop whose body may throw: [None] is the exception. *)
Fixpoint forEach {A S : Type} (l : list A) (body : A → S → option S) (s : S)
    : option S :=
  match l with
  | [] => Some s
  | a :: l' => body a s ≫= forEach l' body
  end.

Section Renderer.
Context {World : Type}.

(** The cell renderer supplied by the application: it may read and change
    the application's own state [World], not the caches of the Grid. *)
Context (cellRenderer : CellRendererParams → World → Rendered * World).

(** [process.env.NODE_ENV === 'production'] *)
Context (production : bool).

(** The mutable objects that outlive a call, the application's state, and two
    observations kept for the properties: the arguments of the calls of the
    cell renderer so far, and the number of warnings logged. *)
Record Store : Type :=
  { cellCache : CellCache;
    styleCache : gmap string Style.t;
    parent : Parent;
    world : World;
    calls : list CellRendererParams;
    warnings : nat }.

Definition withStyleCache (st : Store) (styleCache' : gmap string Style.t) : Store :=
  {| cellCache := cellCache st; styleCache := styleCache'; parent := parent st;
     world := world st; calls := calls st; warnings := warnings st |}.

Definition withCellCache (st : Store) (cellCache' : CellCache) : Store :=
  {| cellCache := cellCache'; styleCache := styleCache st; parent := parent st;
     world := world st; calls := calls st; warnings := warnings st |}.

Definition withParent (st : Store) (parent' : Parent) : Store :=
  {| cellCache := cellCache st; styleCache := styleCache st; parent := parent';
     world := world st; calls := calls st; warnings := warnings st |}.

(** [cellRenderer(cellRendererParams)] *)
Definition callCellRenderer (cellRendererParams : CellRendererParams) (st : Store)
    : Rendered * Store :=
  let '(renderedCell, world') := cellRenderer cellRendererParams (world st) in
  (renderedCell,
   {| cellCache := cellCache st; styleCache := styleCache st; parent := parent st;
      world := world'; calls := calls st ++ [cellRendererParams];
      warnings := warnings st |}).

(** [ReusableKeyCache.getReusableKeyCache(...)] followed by
    [getReusableKeyMap(...)]: the recycler is looked up on the object the
    variant keeps it on, created if absent, and updated by the call. *)
Definition recycle (v : RendererVariant) (p : CellRangeRendererParams) (st : Store)
    : gmap string nat * Store :=
  let holder :=
    match v with
    | KeysOnCellCache => cellKeyCache (cellCache st)
    | KeysOnParent => parentKeyCache (parent st)
    end in
  let reusableKeyCache := default newReusableKeyCache holder in
  let '(reusableKeyMap, reusableKeyCache') :=
    getReusableKeyMap reusableKeyCache (rowStartIndex p) (rowStopIndex p)
      (columnStartIndex p) (columnStopIndex p) in
  (reusableKeyMap,
   match v with
   | KeysOnCellCache =>
       withCellCache st {| cells := cells (cellCache st);
                           cellKeyCache := Some reusableKeyCache' |}
   | KeysOnParent =>
       withParent st {| warnedAboutMissingStyle := warnedAboutMissingStyle (parent st);
                        parentKeyCache := Some reusableKeyCache' |}
   end).

Definition warnAboutMissingStyle (st : Store) (renderedCell : Element.t) : Store :=
  if production then st
  else
    let renderedCell :=
      if Element.cellMeasurer renderedCell then Element.children renderedCell
      else Some renderedCell in
    match renderedCell with
    | Some e =>
        match Element.style e, warnedAboutMissingStyle (parent st) with
        | None, false =>
            {| cellCache := cellCache st; styleCache := styleCache st;
               parent := {| warnedAboutMissingStyle := true;
                            parentKeyCache := parentKeyCache (parent st) |};
               world := world st; calls := calls st;
               warnings := S (warnings st) |}
        | _, _ => st
        end
    | None => st
    end.

(** The style of a cell and the style cache after it was determined. *)
Definition positionStyle (p : CellRangeRendererParams) (canCacheStyle : bool)
    (rowIndex columnIndex : Z) (rowDatum columnDatum : SizeAndPosition.t)
    (key : string) (styleCache : gmap string Style.t)
    : Style.t * gmap string Style.t :=
  match (if canCacheStyle then styleCache !! key else None) with
  | Some style => (style, styleCache)
  | None =>
      if match deferredMeasurementCache p with
         | Some has => negb (has rowIndex columnIndex)
         | None => false
         end
      then
        ({| Style.height := Style.auto; Style.left := 0;
            Style.position := "absolute"; Style.top := 0;
            Style.width := Style.auto |},
         styleCache)
      else
        let style :=
          {| Style.height := Style.px (SizeAndPosition.size rowDatum);
             Style.left := SizeAndPosition.offset columnDatum + horizontalOffsetAdjustment p;
             Style.position := "absolute";
             Style.top := SizeAndPosition.offset rowDatum + verticalOffsetAdjustment p;
             Style.width := Style.px (SizeAndPosition.size columnDatum) |} in
        (style, <[key := style]> styleCache)
  end.

(** [(isScrollingOptOut || isScrolling) && !horizontalOffsetAdjustment &&
    !verticalOffsetAdjustment] *)
Definition usesCellCache (p : CellRangeRendererParams) : bool :=
  (isScrollingOptOut p || isScrolling p)
  && (horizontalOffsetAdjustment p =? 0) && (verticalOffsetAdjustment p =? 0).

(** The cell read from [cellCache[key]], constructed and stored first if the
    cache holds nothing truthy there, with its key replaced in a copy if it
    differs from [reuseKey]. *)
Definition cachedCell (cellRendererParams : CellRendererParams)
    (key reuseKey : string) (st : Store) : Rendered * Store :=
  let st :=
    if truthy (default RUndefined (cells (cellCache st) !! key)) then st
    else
      let '(renderedCell, st) := callCellRenderer cellRendererParams st in
      withCellCache st {| cells := <[key := renderedCell]> (cells (cellCache st));
                          cellKeyCache := cellKeyCache (cellCache st) |} in
  let renderedCell := default RUndefined (cells (cellCache st) !! key) in
  (match renderedCell with
   | RElement e =>
       if decide (Element.key e = Some reuseKey) then renderedCell
       else RElement (Element.withKey e reuseKey)
   | _ => renderedCell
   end,
   st).

(** The body of the inner loop, after [reuseKey] was obtained. *)
Definition renderCell (p : CellRangeRendererParams) (canCacheStyle : bool)
    (rowIndex : Z) (rowDatum : SizeAndPosition.t) (columnIndex : Z)
    (reuseKey : string) (acc : Store * list Element.t)
    : Store * list Element.t :=
  let '(st, renderedCells) := acc in
  let columnDatum :=
    Manager.getSizeAndPositionOfCell (columnSizeAndPositionManager p) columnIndex in
  let isVisible :=
    (Indices.start (visibleColumnIndices p) <=? columnIndex)
    && (columnIndex <=? Indices.stop (visibleColumnIndices p))
    && (Indices.start (visibleRowIndices p) <=? rowIndex)
    && (rowIndex <=? Indices.stop (visibleRowIndices p)) in
  let key := getKey rowIndex columnIndex in
  let '(style, styleCache') :=
    positionStyle p canCacheStyle rowIndex columnIndex rowDatum columnDatum key
      (styleCache st) in
  let st := withStyleCache st styleCache' in
  let cellRendererParams :=
    {| cr_columnIndex := columnIndex; cr_isScrolling := isScrolling p;
       cr_isVisible := isVisible; cr_key := reuseKey;
       cr_parent := warnedAboutMissingStyle (parent st);
       cr_rowIndex := rowIndex; cr_style := style |} in
  let '(renderedCell, st) :=
    if usesCellCache p then cachedCell cellRendererParams key reuseKey st
    else callCellRenderer cellRendererParams st in
  match renderedCell with
  | RElement e => (warnAboutMissingStyle st e, renderedCells ++ [e])
  | _ => (st, renderedCells)
  end.

(** [None] is the [TypeError] of [reusableKeyMap.get(key).toString()] on a key
    the map does not hold. *)
Definition defaultCellRangeRenderer (v : RendererVariant) (p : CellRangeRendererParams)
    (st : Store) : option (list Element.t * Store) :=
  let '(reusableKeyMap, st) := recycle v p st in
  let areOffsetsAdjusted :=
    Manager.areOffsetsAdjusted (columnSizeAndPositionManager p)
    || Manager.areOffsetsAdjusted (rowSizeAndPositionManager p) in
  let canCacheStyle := negb (isScrolling p) && negb areOffsetsAdjusted in
  '(st, renderedCells) ←
    forEach (indexRange (rowStartIndex p) (rowStopIndex p))
      (λ rowIndex acc,
         let rowDatum :=
           Manager.getSizeAndPositionOfCell (rowSizeAndPositionManager p) rowIndex in
         forEach (indexRange (columnStartIndex p) (columnStopIndex p))
           (λ columnIndex acc,
              slot ← reusableKeyMap !! getKey rowIndex columnIndex;
              Some (renderCell p canCacheStyle rowIndex rowDatum columnIndex
                      (toString slot) acc))
           acc)
      (st, []);
  Some (sort (compareCells v) renderedCells, st).

End Renderer.

(** ** The renderer as one loop over the coordinates *)

Section RendererLoop.
Context {World : Type}.
Context (cellRenderer : CellRendererParams → World → Rendered * World).
Context (production : bool).

(** [canCacheStyle] *)
Definition canCacheStyle (p : CellRangeRendererParams) : bool :=
  negb (isScrolling p)
  && negb (Manager.areOffsetsAdjusted (columnSizeAndPositionManager p)
           || Manager.areOffsetsAdjusted (rowSizeAndPositionManager p)).

(** [reuseKey] at a coordinate whose key the map holds. *)
Definition reuseKeyAt (reusableKeyMap : gmap string nat) (rc : Z * Z) : string :=
  toString (default 0%nat (reusableKeyMap !! getKey rc.1 rc.2)).

(** One iteration of the inner loop at a coordinate whose key the map holds. *)
Definition renderCoord (p : CellRangeRendererParams) (reusableKeyMap : gmap string nat)
    (acc : Store * list Element.t) (rc : Z * Z) : Store * list Element.t :=
  renderCell cellRenderer production p (canCacheStyle p) rc.1
    (Manager.getSizeAndPositionOfCell (rowSizeAndPositionManager p) rc.1) rc.2
    (reuseKeyAt reusableKeyMap rc) acc.

(** The state after the two loops, and the cells pushed, before the sort. *)
Definition renderLoop (v : RendererVariant) (p : CellRangeRendererParams) (st : Store)
    : Store * list Element.t :=
  foldl (renderCoord p (recycle v p st).1) ((recycle v p st).2, [])
    (rectCoords (rowStartIndex p) (rowStopIndex p)
       (columnStartIndex p) (columnStopIndex p)).

End RendererLoop.

Global Arguments renderCoord : simpl never.
Global Arguments recycle : simpl never.

(** ** Sample inputs *)

Module Sample.

(** Cells ten pixels wide and high. *)
Definition manager (adjusted : bool) : Manager.t :=
  {| Manager.getSizeAndPositionOfCell i :=
       {| SizeAndPosition.offset := 10 * i; SizeAndPosition.size := 10 |};
     Manager.areOffsetsAdjusted := adjusted |}.

(** A rectangle that is visible as a whole. *)
Definition params (rowStart rowStop columnStart columnStop : Z)
    (scrolling adjusted : bool) : CellRangeRendererParams :=
  {| columnSizeAndPositionManager := manager adjusted;
     columnStartIndex := columnStart;
     columnStopIndex := columnStop;
     deferredMeasurementCache := None;
     horizontalOffsetAdjustment := 0;
     isScrolling := scrolling;
     isScrollingOptOut := false;
     rowSizeAndPositionManager := manager false;
     rowStartIndex := rowStart;
     rowStopIndex := rowStop;
     verticalOffsetAdjustment := 0;
     visibleColumnIndices := {| Indices.start := columnStart; Indices.stop := columnStop |};
     visibleRowIndices := {| Indices.start := rowStart; Indices.stop := rowStop |} |}.

Definition element (key : option string) (style : Style.t) (content : string)
    : Element.t :=
  Element.make key false (Some style) None content.

(** A cell renderer that uses the key and the style it is given. *)
Definition keyed (args : CellRendererParams) (w : unit) : Rendered * unit :=
  (RElement (element (Some (cr_key args)) (cr_style args)
               (getKey (cr_rowIndex args) (cr_columnIndex args))), w).

(** A cell renderer that puts a key of its own on every cell. *)
Definition ownKey (args : CellRendererParams) (w : unit) : Rendered * unit :=
  (RElement (element (Some "x") (cr_style args)
               (getKey (cr_rowIndex args) (cr_columnIndex args))), w).

(** A cell renderer that renders nothing. *)
Definition nothing (args : CellRendererParams) (w : unit) : Rendered * unit :=
  (RNull, w).

(** The stores of a Grid before its first render. *)
Definition store : Store :=
  {| cellCache := {| cells := ∅; cellKeyCache := None |};
     styleCache := ∅;
     parent := {| warnedAboutMissingStyle := false; parentKeyCache := None |};
     world := ();
     calls := [];
     warnings := 0 |}.

(** A store whose cell cache holds a cell for row 0, column 0 under slot
    key 7, as left by an earlier scroll. *)
Definition staleStyle : Style.t :=
  {| Style.height := Style.px 10; Style.left := 5; Style.position := "absolute";
     Style.top := 5; Style.width := Style.px 10 |}.

Definition staleCell : Element.t := element (Some "7") staleStyle "0-0".

Definition staleStore : Store :=
  {| cellCache := {| cells := {[ "0-0" := RElement staleCell ]}; cellKeyCache := None |};
     styleCache := ∅;
     parent := {| warnedAboutMissingStyle := false; parentKeyCache := None |};
     world := ();
     calls := [];
     warnings := 0 |}.

End Sample.

(** ** Vocabulary of the renderer's properties *)

(** The cells a value of the cell renderer or of the cell cache contributes
    to [renderedCells]. *)
Definition emitted (r : Rendered) : list Element.t :=
  match r with RElement e => [e] | _ => [] end.

(** A cached value with the key [reuseKey], copied if its key was another. *)
Definition rekeyed (reuseKey : string) (r : Rendered) : Rendered :=
  match r with
  | RElement e =>
      if decide (Element.key e = Some reuseKey) then r
      else RElement (Element.withKey e reuseKey)
  | _ => r
  end.

(** The arguments the cell renderer is called with at a coordinate. *)
Definition cellRendererParamsAt (p : CellRangeRendererParams) (reuseKey : string)
    (warned : bool) (style : Style.t) (rc : Z * Z) : CellRendererParams :=
  {| cr_columnIndex := rc.2; cr_isScrolling := isScrolling p;
     cr_isVisible :=
       (Indices.start (visibleColumnIndices p) <=? rc.2)
       && (rc.2 <=? Indices.stop (visibleColumnIndices p))
       && (Indices.start (visibleRowIndices p) <=? rc.1)
       && (rc.1 <=? Indices.stop (visibleRowIndices p));
     cr_key := reuseKey;
     cr_parent := warned;
     cr_rowIndex := rc.1; cr_style := style |}.

(** The style of the cell at a coordinate and the style cache after it. *)
Definition positionStyleAt (p : CellRangeRendererParams) (rc : Z * Z)
    (styleCache : gmap string Style.t) : Style.t * gmap string Style.t :=
  positionStyle p (canCacheStyle p) rc.1 rc.2
    (Manager.getSizeAndPositionOfCell (rowSizeAndPositionManager p) rc.1)
    (Manager.getSizeAndPositionOfCell (columnSizeAndPositionManager p) rc.2)
    (getKey rc.1 rc.2) styleCache.

(** The cells of a list have numeric keys in the order of the variant's
    comparator. *)
Definition keysInOrder (v : RendererVariant) (a b : Element.t) : Prop :=
  match keyNumber a, keyNumber b with
  | Some ka, Some kb =>
      match v with KeysOnParent => ka ≤ kb | KeysOnCellCache => kb ≤ ka end
  | _, _ => False
  end.

(** The cell renderer puts the key it is given on the cells it returns. *)
Definition usesGivenKey {World : Type}
    (cellRenderer : CellRendererParams → World → Rendered * World) : Prop :=
  ∀ args w e, (cellRenderer args w).1 = RElement e → Element.key e = Some (cr_key args).

(** The cell renderer returns a cell whenever it is called. *)
Definition alwaysRenders {World : Type}
    (cellRenderer : CellRendererParams → World → Rendered * World) : Prop :=
  ∀ args w, truthy (cellRenderer args w).1 = true.

(** Two stores hold the same caches, application state and observations; the
    recyclers attached to them are left aside, and so are the style caches
    when [styles] is [false]. *)
Record agree {World : Type} (styles : bool) (st1 st2 : @Store World) : Prop :=
  { agree_cells : cells (cellCache st1) = cells (cellCache st2);
    agree_styleCache : styles = true → styleCache st1 = styleCache st2;
    agree_warned : warnedAboutMissingStyle (parent st1)
                   = warnedAboutMissingStyle (parent st2);
    agree_world : world st1 = world st2;
    agree_calls : calls st1 = calls st2;
    agree_warnings : warnings st1 = warnings st2 }.

(** The coordinates the cell renderer was called at. *)
Definition callCoords (calls : list CellRendererParams) : list (Z * Z) :=
  (λ args, (cr_rowIndex args, cr_columnIndex args)) <$> calls.

(** The recycler attached to the object the variant keeps it on. *)
Definition keyCacheOf {World : Type} (v : RendererVariant) (st : @Store World)
    : option ReusableKeyCache :=
  match v with
  | KeysOnCellCache => cellKeyCache (cellCache st)
  | KeysOnParent => parentKeyCache (parent st)
  end.

(** ** Overscan indices *)

(** [source/Grid/defaultOverscanIndicesGetter.js].  Cell counts and indices
    are JavaScript numbers holding integers; [scrollDirection] is one of the
    two constants below. *)
Definition SCROLL_DIRECTION_BACKWARD : Z := -1.
Definition SCROLL_DIRECTION_FORWARD : Z := 1.

Record OverscanIndicesGetterParams : Type :=
  { cellCount : Z;
    overscanCellsCount : Z;
    scrollDirection : Z;
    startIndex : Z;
    stopIndex : Z }.

Record OverscanIndices : Type :=
  { overscanStartIndex : Z; overscanStopIndex : Z }.

(** The [debugger] statement ahead of the [return] does not take part in the
    result. *)
Definition defaultOverscanIndicesGetter (params : OverscanIndicesGetterParams)
    : OverscanIndices :=
  {| overscanStartIndex := Z.max 0 (startIndex params - overscanCellsCount params);
     overscanStopIndex :=
       Z.min (cellCount params - 1) (stopIndex params + overscanCellsCount params) |}.

(** ** Further vocabulary *)

(** The order in which two nested loops, rows outside, visit coordinates. *)
Definition rowMajor (a b : Z * Z) : Prop := a.1 < b.1 ∨ (a.1 = b.1 ∧ a.2 < b.2).

(** The element that [warnAboutMissingStyle] looks at (the child of a
    [CellMeasurer], the cell itself otherwise) exists and has no style. *)
Definition missingStyle (e : Element.t) : bool :=
  match (if Element.cellMeasurer e then Element.children e else Some e) with
  | Some inner => match Element.style inner with None => true | Some _ => false end
  | None => false
  end.

(** The cell at a coordinate counts as measured: there is no deferred
    measurement cache, or it has the cell. *)
Definition measured (p : CellRangeRendererParams) (rc : Z * Z) : bool :=
  match deferredMeasurementCache p with
  | Some has => has rc.1 rc.2
  | None => true
  end.

(** The style made from the managers' sizes and offsets for a measured cell,
    and the one given to a cell that is not measured yet. *)
Definition managedStyle (p : CellRangeRendererParams) (rc : Z * Z) : Style.t :=
  let rowDatum := Manager.getSizeAndPositionOfCell (rowSizeAndPositionManager p) rc.1 in
  let columnDatum :=
    Manager.getSizeAndPositionOfCell (columnSizeAndPositionManager p) rc.2 in
  {| Style.height := Style.px (SizeAndPosition.size rowDatum);
     Style.left := SizeAndPosition.offset columnDatum + horizontalOffsetAdjustment p;
     Style.position := "absolute";
     Style.top := SizeAndPosition.offset rowDatum + verticalOffsetAdjustment p;
     Style.width := Style.px (SizeAndPosition.size columnDatum) |}.

Definition unmeasuredStyle : Style.t :=
  {| Style.height := Style.auto; Style.left := 0; Style.position := "absolute";
     Style.top := 0; Style.width := Style.auto |}.

(** What the cell cache holds for a coordinate. *)
Definition cachedAt {World : Type} (st : @Store World) (rc : Z * Z) : Rendered :=
  default RUndefined (cells (cellCache st) !! getKey rc.1 rc.2).

(** A store with other cells in its cell cache. *)
Definition withCells {World : Type} (st : @Store World) (cells' : gmap string Rendered)
    : Store :=
  withCellCache st {| cells := cells'; cellKeyCache := cellKeyCache (cellCache st) |}.

(** Whether the cells of a list include one without a style. *)
Definition anyMissingStyle (es : list Element.t) : bool := existsb missingStyle es.

(** A rectangle of coordinates: first and last row, first and last column. *)
Record Rect : Type :=
  { rectRowStart : Z; rectRowStop : Z; rectColumnStart : Z; rectColumnStop : Z }.

(** The number of coordinates of a rectangle. *)
Definition cellsIn (rect : Rect) : nat :=
  (Z.to_nat (rectRowStop rect - rectRowStart rect + 1)
   * Z.to_nat (rectColumnStop rect - rectColumnStart rect + 1))%nat.

(** The recycler after one call of [getReusableKeyMap] per rectangle. *)
Definition callsOn (this : ReusableKeyCache) (rects : list Rect) : ReusableKeyCache :=
  foldl (λ this rect,
           (getReusableKeyMap this (rectRowStart rect) (rectRowStop rect)
              (rectColumnStart rect) (rectColumnStop rect)).2)
        this rects.

(** The cells that the loop pushes, each with the coordinate of the
    iteration that pushed it: the iteration at [rc] is run on the store the
    iterations before it left, and what it appends to [renderedCells] is
    recorded under [rc]. *)
Fixpoint pushedCells {World : Type}
    (cellRenderer : CellRendererParams → World → Rendered * World) (production : bool)
    (p : CellRangeRendererParams) (reusableKeyMap : gmap string nat)
    (st : @Store World) (coords : list (Z * Z)) : list ((Z * Z) * Element.t) :=
  match coords with
  | [] => []
  | rc :: coords' =>
      let res := renderCoord cellRenderer production p reusableKeyMap (st, []) rc in
      ((λ e, (rc, e)) <$> res.2)
      ++ pushedCells cellRenderer production p reusableKeyMap res.1 coords'
  end.

(** * Properties *)

(** ** Arrays *)

Lemma truthy_set (a : list (option bool)) (i j : nat) :
  JsArray.truthy (JsArray.set a i true) j = bool_decide (i = j) || JsArray.truthy a j.
Proof.
  unfold JsArray.truthy, JsArray.get, JsArray.set.
  case_decide as Hlt.
  - destruct (decide (i = j)) as [->|Hne].
    + rewrite list_lookup_insert_eq by done. by rewrite bool_decide_eq_true_2.
    + rewrite list_lookup_insert_ne by done. by rewrite bool_decide_eq_false_2.
  - destruct (decide (i = j)) as [<-|Hne].
    + rewrite bool_decide_eq_true_2 by done.
      rewrite lookup_app_r by lia.
      rewrite lookup_app_r by (rewrite length_replicate; lia).
      rewrite length_replicate, Nat.sub_diag. done.
    + rewrite bool_decide_eq_false_2 by done. simpl.
      destruct (decide (j < length a)%nat).
      * by rewrite lookup_app_l by lia.
      * rewrite lookup_app_r by lia.
        rewrite (lookup_ge_None_2 a) by lia. simpl.
        destruct (decide (j - length a < i - length a)%nat).
        -- rewrite lookup_app_l by (rewrite length_replicate; lia).
           by rewrite lookup_replicate_2 by lia.
        -- rewrite lookup_app_r by (rewrite length_replicate; lia).
           rewrite length_replicate.
           destruct (j - length a - (i - length a))%nat as [|d] eqn:Hd; [lia|done].
Qed.

(** The loop returns the first index at or after the cursor whose entry is
    not truthy, and leaves the cursor just after it. *)
Lemma findNewKey_spec (used : list (option bool)) (cursor : nat) :
  let '(newKey, cursor') := findNewKey used cursor in
  (cursor ≤ newKey)%nat ∧ cursor' = S newKey ∧
  JsArray.truthy used newKey = false ∧
  ∀ j, (cursor ≤ j < newKey)%nat → JsArray.truthy used j = true.
Proof.
  funelim (findNewKey used cursor).
  - destruct (findNewKey used (S cursor)) as [newKey cursor'].
    destruct H as (Hle & -> & Hfree & Hbelow).
    split_and!; [lia|done|done|].
    intros j Hj. destruct (decide (j = cursor)) as [->|]; [done|].
    apply Hbelow; lia.
  - split_and!; [lia|done|done|]. intros j ?; lia.
Qed.

(** ** Iteration order *)

Lemma foldl_bind {A B C} (f : A → C → A) (g : B → list C) (l : list B) (a : A) :
  foldl f a (l ≫= g) = foldl (λ a x, foldl f a (g x)) a l.
Proof.
  revert a. induction l as [|x l IH]; intros a; [done|].
  simpl. by rewrite foldl_app, IH.
Qed.

Lemma foldl_fmap {A B C} (f : A → C → A) (g : B → C) (l : list B) (a : A) :
  foldl f a (g <$> l) = foldl (λ a x, f a (g x)) a l.
Proof. revert a. induction l as [|x l IH]; intros a; [done|]. simpl. by rewrite IH. Qed.

Lemma foldl_pointwise {A B} (f g : A → B → A) (l : list B) (a : A) :
  (∀ a x, f a x = g a x) → foldl f a l = foldl g a l.
Proof.
  intros Hfg. revert a. induction l as [|x l IH]; intros a; [done|].
  simpl. by rewrite Hfg, IH.
Qed.

Lemma foreachKey_foldl {S} rs re cs ce (callback : string → S → S) (s : S) :
  foreachKey rs re cs ce callback s
  = foldl (λ s key, callback key s) s (rectKeys rs re cs ce).
Proof.
  unfold foreachKey, rectKeys, rectCoords.
  rewrite foldl_fmap, foldl_bind.
  apply foldl_pointwise. intros s' rowIndex.
  rewrite foldl_bind. by apply foldl_pointwise.
Qed.

Lemma elem_of_rectCoords rs re cs ce r c :
  (r, c) ∈ rectCoords rs re cs ce ↔ rs ≤ r ≤ re ∧ cs ≤ c ≤ ce.
Proof.
  unfold rectCoords, indexRange. rewrite list_elem_of_bind. split.
  - intros (r' & (c' & Hin & Hc)%list_elem_of_bind & Hr).
    apply list_elem_of_singleton in Hin. simplify_eq.
    apply elem_of_seqZ in Hc, Hr. lia.
  - intros [Hr Hc]. exists r. split; [|apply elem_of_seqZ; lia].
    apply list_elem_of_bind. exists c. split; [by apply list_elem_of_singleton|].
    apply elem_of_seqZ; lia.
Qed.

Lemma NoDup_rectCoords rs re cs ce : NoDup (rectCoords rs re cs ce).
Proof.
  unfold rectCoords, indexRange. apply NoDup_bind; [| |apply NoDup_seqZ].
  - intros r1 r2 rc _ _ (c1 & Hin1 & _)%list_elem_of_bind (c2 & Hin2 & _)%list_elem_of_bind.
    apply list_elem_of_singleton in Hin1, Hin2. by simplify_eq.
  - intros r _. apply NoDup_bind; [| |apply NoDup_seqZ].
    + intros c1 c2 rc _ _ Hin1%list_elem_of_singleton Hin2%list_elem_of_singleton.
      by simplify_eq.
    + intros c _. apply NoDup_singleton.
Qed.

Lemma length_rectCoords rs re cs ce :
  length (rectCoords rs re cs ce)
  = (Z.to_nat (re - rs + 1) * Z.to_nat (ce - cs + 1))%nat.
Proof.
  unfold rectCoords, indexRange.
  rewrite <-(length_seqZ rs (re - rs + 1)).
  induction (seqZ rs (re - rs + 1)) as [|r l IH]; [done|].
  rewrite bind_cons, length_app, IH. simpl. f_equal. clear IH.
  rewrite <-(length_seqZ cs (ce - cs + 1)).
  induction (seqZ cs (ce - cs + 1)) as [|c l' IH']; [done|].
  rewrite bind_cons, length_app, IH'. done.
Qed.

Lemma elem_of_rectKeys rs re cs ce key :
  key ∈ rectKeys rs re cs ce ↔
  ∃ r c, key = getKey r c ∧ rs ≤ r ≤ re ∧ cs ≤ c ≤ ce.
Proof.
  unfold rectKeys. rewrite list_elem_of_fmap. split.
  - intros ([r c] & -> & Hin%elem_of_rectCoords). by exists r, c.
  - intros (r & c & -> & Hin). exists (r, c). by rewrite elem_of_rectCoords.
Qed.

(** ** Decimal strings *)

Lemma digitValue_pretty_N_char (d : N) :
  (d < 10)%N → digitValue (pretty_N_char d) = Some d.
Proof.
  intros Hd.
  assert (d = 0 ∨ d = 1 ∨ d = 2 ∨ d = 3 ∨ d = 4 ∨ d = 5 ∨ d = 6 ∨ d = 7
          ∨ d = 8 ∨ d = 9)%N as Hcases by lia.
  destruct_or!; subst; reflexivity.
Qed.

Lemma pretty_N_char_no_prefix (d : N) :
  (0 < d < 10)%N →
  isWhiteSpace (pretty_N_char d) = false ∧ pretty_N_char d ≠ "-"%char
  ∧ pretty_N_char d ≠ "+"%char ∧ pretty_N_char d ≠ "0"%char.
Proof.
  intros Hd.
  assert (d = 1 ∨ d = 2 ∨ d = 3 ∨ d = 4 ∨ d = 5 ∨ d = 6 ∨ d = 7
          ∨ d = 8 ∨ d = 9)%N as Hcases by lia.
  destruct_or!; subst; done.
Qed.

Lemma allDigits_pretty_N_go (x : N) (s : string) :
  allDigits s = true → allDigits (pretty_N_go x s) = true.
Proof.
  revert s. induction (N.lt_wf_0 x) as [x _ IH]; intros s Hs.
  destruct (N.eq_dec x 0%N) as [->|Hx%N.neq_0_lt_0]; [by rewrite pretty_N_go_0|].
  rewrite pretty_N_go_step by done.
  apply IH; [by apply N.div_lt|].
  simpl. rewrite digitValue_pretty_N_char by (by apply N.mod_lt).
  rewrite Hs, andb_true_r. by apply N.ltb_lt, N.mod_lt.
Qed.

Lemma allDigits_pretty_N (x : N) : allDigits (pretty x) = true.
Proof.
  unfold pretty, pretty_N. case_decide; [done|].
  by apply allDigits_pretty_N_go.
Qed.

(** A string of digits followed by a dash is split at that dash in one way
    only. *)
Lemma digits_dash_inj (s1 s2 t1 t2 : string) :
  allDigits s1 = true → allDigits s2 = true →
  s1 +:+ "-" +:+ t1 = s2 +:+ "-" +:+ t2 → s1 = s2 ∧ t1 = t2.
Proof.
  revert s2. induction s1 as [|c1 s1 IH]; intros [|c2 s2] H1 H2 Heq; simpl in *.
  - by simplify_eq.
  - by simplify_eq.
  - by simplify_eq.
  - apply andb_prop in H1 as [_ H1]. apply andb_prop in H2 as [_ H2].
    simplify_eq. destruct (IH s2 H1 H2) as [-> ->]; done.
Qed.

(** Reading a slot key back from its string. *)
Lemma parseDigits_pretty_N_go (x : N) (s : string) :
  (0 < x)%N →
  parseDigits 10 None (pretty_N_go x s) = parseDigits 10 (Some x) s.
Proof.
  revert s. induction (N.lt_wf_0 x) as [x _ IH]; intros s Hx.
  rewrite pretty_N_go_step by done.
  assert (x `mod` 10 < 10)%N as Hmod by (by apply N.mod_lt).
  assert (parseDigits 10 (Some (x `div` 10)%N) (String (pretty_N_char (x `mod` 10)) s)
          = parseDigits 10 (Some x) s) as Hstep.
  { simpl. rewrite digitValue_pretty_N_char by done.
    apply N.ltb_lt in Hmod as ->. do 2 f_equal.
    symmetry. by apply N.div_mod. }
  destruct (N.eq_dec (x `div` 10)%N 0%N) as [Hdiv|Hdiv%N.neq_0_lt_0].
  - rewrite Hdiv, pretty_N_go_0. rewrite <-Hstep, Hdiv. simpl.
    rewrite digitValue_pretty_N_char by done. by apply N.ltb_lt in Hmod as ->.
  - rewrite IH; [done|by apply N.div_lt|done].
Qed.

Lemma pretty_N_go_head (x : N) (s : string) :
  (0 < x)%N →
  ∃ d t, pretty_N_go x s = String (pretty_N_char d) t ∧ (0 < d < 10)%N.
Proof.
  revert s. induction (N.lt_wf_0 x) as [x _ IH]; intros s Hx.
  rewrite pretty_N_go_step by done.
  destruct (N.eq_dec (x `div` 10)%N 0%N) as [Hdiv|Hdiv%N.neq_0_lt_0].
  - rewrite Hdiv, pretty_N_go_0.
    exists (x `mod` 10)%N, s. split; [done|].
    split; [|by apply N.mod_lt].
    rewrite (N.div_mod x 10), Hdiv in Hx by done. by rewrite N.mul_0_r in Hx.
  - apply IH; [by apply N.div_lt|done].
Qed.

Lemma pretty_N_not_dash (x : N) : ∀ s, pretty x ≠ String "-" s.
Proof.
  intros s Heq. pose proof (allDigits_pretty_N x) as Hdigits.
  by rewrite Heq in Hdigits.
Qed.

Lemma pretty_N_not_empty (x : N) : pretty x ≠ "".
Proof.
  unfold pretty, pretty_N. case_decide as Hx; [done|].
  destruct (pretty_N_go_head x "") as (d & t & -> & _); [|done].
  by apply N.neq_0_lt_0.
Qed.

(** The text of an integer is that of a natural number, after a dash if the
    integer is negative. *)
Lemma pretty_Z_cases (x : Z) :
  (∃ n : N, x = Z.of_N n ∧ pretty x = pretty n)
  ∨ (∃ n : N, x = - Z.of_N n ∧ pretty x = String "-" (pretty n)).
Proof.
  destruct x as [|p|p].
  - left. by exists 0%N.
  - left. by exists (Npos p).
  - right. by exists (Npos p).
Qed.

(** The row of a key ends at the first dash that follows a digit, so distinct
    coordinates have distinct keys. *)
Lemma getKey_inj (r1 c1 r2 c2 : Z) :
  getKey r1 c1 = getKey r2 c2 → r1 = r2 ∧ c1 = c2.
Proof.
  assert (∀ (n : N) s t, pretty n +:+ "-" +:+ s ≠ String "-" t) as Hmixed.
  { intros n s t Heq. destruct (pretty n) as [|ch rest] eqn:Hn.
    - by apply pretty_N_not_empty in Hn.
    - injection Heq as -> _. by apply pretty_N_not_dash in Hn. }
  assert (∀ (n1 n2 : N) s t,
            pretty n1 +:+ "-" +:+ s = pretty n2 +:+ "-" +:+ t → n1 = n2 ∧ s = t)
    as Hdigits.
  { intros n1 n2 s t Heq.
    apply digits_dash_inj in Heq as [Hn Hs]; [|apply allDigits_pretty_N..].
    split; [by eapply (inj pretty)|done]. }
  unfold getKey. intros Heq.
  destruct (pretty_Z_cases r1) as [(n1 & -> & Hr1)|(n1 & -> & Hr1)],
    (pretty_Z_cases r2) as [(n2 & -> & Hr2)|(n2 & -> & Hr2)];
    rewrite Hr1, Hr2 in Heq.
  - apply Hdigits in Heq as [-> Hc]. split; [done|]. by eapply (inj pretty).
  - by apply Hmixed in Heq.
  - symmetry in Heq. by apply Hmixed in Heq.
  - injection Heq as Heq. apply Hdigits in Heq as [-> Hc].
    split; [done|]. by eapply (inj pretty).
Qed.

Lemma parseInt_toString (n : nat) : parseInt (toString n) = Some (Z.of_nat n).
Proof.
  unfold toString, pretty, pretty_nat, pretty, pretty_N.
  case_decide as Hn.
  - replace n with 0%nat by lia. reflexivity.
  - assert (0 < N.of_nat n)%N as Hpos by lia.
    destruct (pretty_N_go_head _ "" Hpos) as (d & t & Heq & Hd).
    destruct (pretty_N_char_no_prefix d Hd) as (Hws & Hminus & Hplus & Hzero).
    pose proof (parseDigits_pretty_N_go _ "" Hpos) as Hparse.
    unfold parseInt. rewrite Heq in *. cbn [trimStart]. rewrite Hws.
    destruct (pretty_N_char d) as [[] [] [] [] [] [] [] []]; try done;
      rewrite Hparse; simpl; f_equal; lia.
Qed.

Lemma toString_inj (n1 n2 : nat) : toString n1 = toString n2 → n1 = n2.
Proof. apply (inj pretty). Qed.

(** ** First loop of [getReusableKeyMap]: carrying keys forward *)

Section carry.
Context (last : gmap string nat).

Let pass1 (keys : list string) : KeyScan :=
  foldl (λ st key, carryForward last key st) initScan keys.

Lemma carry_lookup keys key :
  newMap (pass1 keys) !! key = if decide (key ∈ keys) then last !! key else None.
Proof.
  unfold pass1. induction keys as [|key' keys IH] using rev_ind.
  - rewrite decide_False by set_solver. apply lookup_empty.
  - rewrite foldl_snoc. unfold carryForward at 1.
    destruct (last !! key') as [lastKey|] eqn:Hlast; simpl.
    + destruct (decide (key' = key)) as [->|Hne].
      * rewrite lookup_insert_eq. rewrite decide_True by set_solver. done.
      * rewrite lookup_insert_ne by done. rewrite IH.
        apply decide_ext. rewrite elem_of_app, list_elem_of_singleton. intuition congruence.
    + rewrite IH. destruct (decide (key' = key)) as [->|Hne].
      * rewrite Hlast. by repeat case_decide.
      * apply decide_ext. rewrite elem_of_app, list_elem_of_singleton. intuition congruence.
Qed.

Lemma carry_used keys slot :
  JsArray.truthy (usedKeys (pass1 keys)) slot = true
  ↔ ∃ key, newMap (pass1 keys) !! key = Some slot.
Proof.
  unfold pass1. induction keys as [|key' keys IH] using rev_ind.
  - simpl. split; [done|]. intros [key Hkey]. by rewrite lookup_empty in Hkey.
  - rewrite foldl_snoc. unfold carryForward at 1 3.
    destruct (last !! key') as [lastKey|] eqn:Hlast; simpl; [|done].
    rewrite truthy_set, orb_true_iff, bool_decide_eq_true, IH. split.
    + intros [->|[key Hkey]].
      * exists key'. by rewrite lookup_insert_eq.
      * destruct (decide (key' = key)) as [->|Hne].
        -- exists key. rewrite lookup_insert_eq.
           fold (pass1 keys) in Hkey. rewrite carry_lookup in Hkey.
           case_decide; congruence.
        -- exists key. by rewrite lookup_insert_ne.
    + intros [key Hkey]. destruct (decide (key' = key)) as [->|Hne].
      * rewrite lookup_insert_eq in Hkey. left. congruence.
      * rewrite lookup_insert_ne in Hkey by done. eauto.
Qed.

Lemma carry_nextKey keys : nextKey (pass1 keys) = 1%nat.
Proof.
  unfold pass1. induction keys as [|key' keys IH] using rev_ind; [done|].
  rewrite foldl_snoc. unfold carryForward. by destruct (last !! key').
Qed.

Lemma carry_inv keys : ScanInv (pass1 keys).
Proof.
  split.
  - apply carry_used.
  - rewrite carry_nextKey. lia.
  - by rewrite carry_nextKey.
Qed.

Lemma carry_inj keys : assignmentInj last → assignmentInj (newMap (pass1 keys)).
Proof.
  intros Hinj key1 key2 slot. rewrite !carry_lookup.
  repeat case_decide; try done. apply Hinj.
Qed.
End carry.

(** ** Second loop of [getReusableKeyMap]: handing out free keys *)

Lemma assignKey_old key st slot :
  newMap st !! key = Some slot →
  assignKey key st
  = {| newMap := newMap st;
       usedKeys := JsArray.set (usedKeys st) slot true;
       nextKey := nextKey st |}.
Proof. intros Hkey. unfold assignKey. rewrite Hkey. by rewrite insert_id. Qed.

(** A key without a slot gets the least positive integer that no key of the
    new map holds. *)
Lemma assignKey_fresh key st :
  ScanInv st → newMap st !! key = None →
  ∃ newKey,
    newMap (assignKey key st) = <[key := newKey]> (newMap st)
    ∧ usedKeys (assignKey key st) = JsArray.set (usedKeys st) newKey true
    ∧ nextKey (assignKey key st) = S newKey
    ∧ (1 ≤ newKey)%nat
    ∧ (∀ key', newMap st !! key' ≠ Some newKey)
    ∧ (∀ slot, (1 ≤ slot < newKey)%nat → ∃ key', newMap st !! key' = Some slot).
Proof.
  intros [Hused Hbelow Hcursor] Hkey. unfold assignKey. rewrite Hkey.
  pose proof (findNewKey_spec (usedKeys st) (nextKey st)) as Hspec.
  destruct (findNewKey (usedKeys st) (nextKey st)) as [newKey cursor'].
  destruct Hspec as (Hle & -> & Hfree & Hbetween).
  exists newKey. split_and!; [done|done|done|lia| |].
  - intros key' Hkey'. assert (JsArray.truthy (usedKeys st) newKey = true); [|congruence].
    apply Hused. eauto.
  - intros slot Hslot. apply Hused.
    destruct (decide (slot < nextKey st)%nat); [apply Hbelow|apply Hbetween]; lia.
Qed.

Lemma assignKey_preserved key st key' slot :
  newMap st !! key' = Some slot → newMap (assignKey key st) !! key' = Some slot.
Proof.
  intros Hkey'. unfold assignKey.
  destruct (newMap st !! key) as [slot'|] eqn:Hkey; simpl.
  - by rewrite insert_id.
  - destruct (findNewKey _ _) as [newKey cursor']. simpl.
    rewrite lookup_insert_ne; [done|congruence].
Qed.

Lemma assignKey_is_Some key st key' :
  is_Some (newMap (assignKey key st) !! key')
  ↔ is_Some (newMap st !! key') ∨ key' = key.
Proof.
  unfold assignKey.
  destruct (newMap st !! key) as [slot'|] eqn:Hkey; simpl.
  - rewrite insert_id by done. split; [eauto|]. intros [?| ->]; [done|]. by rewrite Hkey.
  - destruct (findNewKey _ _) as [newKey cursor']. simpl.
    rewrite lookup_insert_is_Some. destruct (decide (key = key')); intuition congruence.
Qed.

Lemma assignKey_inv key st : ScanInv st → ScanInv (assignKey key st).
Proof.
  intros Hinv. destruct (newMap st !! key) as [slot|] eqn:Hkey.
  - rewrite (assignKey_old _ _ _ Hkey). destruct Hinv as [Hused Hbelow Hcursor].
    split; simpl; [|intros slot' ?|done].
    + intros slot'. rewrite truthy_set, orb_true_iff, bool_decide_eq_true, Hused.
      split; [intros [<-|?]; eauto|eauto].
    + rewrite truthy_set, orb_true_iff. right. by apply Hbelow.
  - destruct (assignKey_fresh key st Hinv Hkey)
      as (newKey & Hmap & Harr & Hnext & Hpos & Hfree & Hfull).
    destruct Hinv as [Hused Hbelow Hcursor].
    split; rewrite ?Hmap, ?Harr, ?Hnext; [|intros slot' ?|lia].
    + intros slot'. rewrite truthy_set, orb_true_iff, bool_decide_eq_true, Hused. split.
      * intros [<-|[key' Hkey']].
        -- exists key. by rewrite lookup_insert_eq.
        -- exists key'. rewrite lookup_insert_ne; [done|congruence].
      * intros [key' Hkey']. destruct (decide (key = key')) as [<-|Hne].
        -- rewrite lookup_insert_eq in Hkey'. left. congruence.
        -- rewrite lookup_insert_ne in Hkey' by done. eauto.
    + rewrite truthy_set, orb_true_iff, bool_decide_eq_true, Hused.
      destruct (decide (newKey = slot')); [by left|right]. apply Hfull. lia.
Qed.

Lemma assignKey_inj key st :
  ScanInv st → assignmentInj (newMap st) → assignmentInj (newMap (assignKey key st)).
Proof.
  intros Hinv Hinj. destruct (newMap st !! key) as [slot|] eqn:Hkey.
  - by rewrite (assignKey_old _ _ _ Hkey).
  - destruct (assignKey_fresh key st Hinv Hkey) as (newKey & -> & _ & _ & _ & Hfree & _).
    intros key1 key2 slot H1 H2. rewrite lookup_insert in H1, H2.
    repeat case_decide; simplify_eq; try done;
      try (by exfalso; eapply Hfree; eauto).
    by eapply Hinj.
Qed.

Lemma assignKey_positive key st :
  ScanInv st → map_Forall (λ _ slot, (1 ≤ slot)%nat) (newMap st) →
  map_Forall (λ _ slot, (1 ≤ slot)%nat) (newMap (assignKey key st)).
Proof.
  intros Hinv Hpos. destruct (newMap st !! key) as [slot|] eqn:Hkey.
  - by rewrite (assignKey_old _ _ _ Hkey).
  - destruct (assignKey_fresh key st Hinv Hkey) as (newKey & -> & _ & _ & ? & _).
    by apply map_Forall_insert_2.
Qed.

Section assign.
Let pass2 (st : KeyScan) (keys : list string) : KeyScan :=
  foldl (λ st key, assignKey key st) st keys.

Lemma assign_inv st keys : ScanInv st → ScanInv (pass2 st keys).
Proof.
  intros Hinv. unfold pass2. induction keys as [|key keys IH] using rev_ind; [done|].
  rewrite foldl_snoc. by apply assignKey_inv.
Qed.

Lemma assign_preserved st keys key slot :
  newMap st !! key = Some slot → newMap (pass2 st keys) !! key = Some slot.
Proof.
  intros Hkey. unfold pass2. induction keys as [|key' keys IH] using rev_ind; [done|].
  rewrite foldl_snoc. by apply assignKey_preserved.
Qed.

Lemma assign_is_Some st keys key :
  is_Some (newMap (pass2 st keys) !! key) ↔ is_Some (newMap st !! key) ∨ key ∈ keys.
Proof.
  unfold pass2. induction keys as [|key' keys IH] using rev_ind.
  - simpl. rewrite elem_of_nil. tauto.
  - rewrite foldl_snoc, assignKey_is_Some, IH, elem_of_app, list_elem_of_singleton. tauto.
Qed.

Lemma assign_inj st keys :
  ScanInv st → assignmentInj (newMap st) → assignmentInj (newMap (pass2 st keys)).
Proof.
  intros Hinv Hinj. unfold pass2.
  induction keys as [|key keys IH] using rev_ind; [done|].
  rewrite foldl_snoc. apply assignKey_inj; [|done]. by apply assign_inv.
Qed.

Lemma assign_positive st keys :
  ScanInv st → map_Forall (λ _ slot, (1 ≤ slot)%nat) (newMap st) →
  map_Forall (λ _ slot, (1 ≤ slot)%nat) (newMap (pass2 st keys)).
Proof.
  intros Hinv Hpos. unfold pass2.
  induction keys as [|key keys IH] using rev_ind; [done|].
  rewrite foldl_snoc. apply assignKey_positive; [|done]. by apply assign_inv.
Qed.
End assign.

(** ** One call of [getReusableKeyMap] *)

Lemma getReusableKeyMap_unfold this rs re cs ce :
  getReusableKeyMap this rs re cs ce
  = let keys := rectKeys rs re cs ce in
    let st1 := foldl (λ st key, carryForward (lastMap this) key st) initScan keys in
    let st2 := foldl (λ st key, assignKey key st) st1 keys in
    (newMap st2, {| lastMap := newMap st2 |}).
Proof. unfold getReusableKeyMap. by rewrite !foreachKey_foldl. Qed.

Lemma getReusableKeyMap_stored this rs re cs ce :
  lastMap (getReusableKeyMap this rs re cs ce).2 = (getReusableKeyMap this rs re cs ce).1.
Proof. done. Qed.

Lemma keyMap_is_Some this rs re cs ce key :
  is_Some ((getReusableKeyMap this rs re cs ce).1 !! key) ↔ key ∈ rectKeys rs re cs ce.
Proof.
  rewrite getReusableKeyMap_unfold. simpl.
  rewrite assign_is_Some, carry_lookup.
  case_decide; [|rewrite <-not_eq_None_Some]; tauto.
Qed.

Lemma keyMap_carried this rs re cs ce key slot :
  key ∈ rectKeys rs re cs ce → lastMap this !! key = Some slot →
  (getReusableKeyMap this rs re cs ce).1 !! key = Some slot.
Proof.
  intros Hin Hlast. rewrite getReusableKeyMap_unfold. simpl.
  apply assign_preserved. rewrite carry_lookup. by rewrite decide_True.
Qed.

Lemma keyMap_inj this rs re cs ce :
  assignmentInj (lastMap this) →
  assignmentInj (getReusableKeyMap this rs re cs ce).1.
Proof.
  intros Hinj. rewrite getReusableKeyMap_unfold. simpl.
  apply assign_inj; [apply carry_inv|by apply carry_inj].
Qed.

Lemma keyMap_positive this rs re cs ce :
  map_Forall (λ _ slot, (1 ≤ slot)%nat) (lastMap this) →
  map_Forall (λ _ slot, (1 ≤ slot)%nat) (getReusableKeyMap this rs re cs ce).1.
Proof.
  intros Hpos. rewrite getReusableKeyMap_unfold. simpl.
  apply assign_positive; [apply carry_inv|].
  intros key slot. rewrite carry_lookup. case_decide; [apply Hpos|done].
Qed.

Lemma keyMap_dom this rs re cs ce :
  dom (getReusableKeyMap this rs re cs ce).1
  = (list_to_set (rectKeys rs re cs ce) : gset string).
Proof.
  apply set_eq. intros key.
  by rewrite elem_of_dom, keyMap_is_Some, elem_of_list_to_set.
Qed.

Lemma keyMap_size this rs re cs ce :
  (size (getReusableKeyMap this rs re cs ce).1
   ≤ Z.to_nat (re - rs + 1) * Z.to_nat (ce - cs + 1))%nat.
Proof.
  rewrite <-size_dom, keyMap_dom. rewrite <-length_rectCoords.
  unfold rectKeys.
  rewrite <-(length_fmap (λ rc, getKey rc.1 rc.2)).
  generalize ((λ rc, getKey rc.1 rc.2) <$> rectCoords rs re cs ce). intros keys.
  induction keys as [|key keys IH].
  - by rewrite list_to_set_nil, size_empty.
  - rewrite list_to_set_cons, size_union_alt, size_singleton.
    etrans; [|apply le_n_S, IH]. apply le_n_S, subseteq_size.
    by intros x [? _]%elem_of_difference.
Qed.

(** The states a viewport's recycler goes through assign no slot key twice
    and use positive keys only. *)
Lemma reachable_inv this :
  reachable this →
  assignmentInj (lastMap this) ∧ map_Forall (λ _ slot, (1 ≤ slot)%nat) (lastMap this).
Proof.
  induction 1 as [|this rs re cs ce _ [IHinj IHpos]].
  - split; [by intros key1 key2 slot ?|apply map_Forall_empty].
  - rewrite getReusableKeyMap_stored. split.
    + by apply keyMap_inj.
    + by apply keyMap_positive.
Qed.

(** A set of positive integers that contains all of [1 .. n-1] has at least
    [n-1] elements; the keys of a map are at least as many as its values. *)
Lemma map_img_size (m : gmap string nat) : (size (map_img m : gset nat) ≤ size m)%nat.
Proof.
  induction m as [|key slot m Hkey _ IH] using map_first_key_ind.
  - by rewrite map_img_empty_L, size_empty, map_size_empty.
  - rewrite map_img_insert_notin_L, map_size_insert_None by done.
    rewrite size_union_alt, size_singleton.
    apply le_n_S. etrans; [|apply IH]. apply subseteq_size.
    by intros x [? _]%elem_of_difference.
Qed.

Lemma slots_below_size (m : gmap string nat) (n : nat) :
  (∀ slot, (1 ≤ slot < n)%nat → ∃ key, m !! key = Some slot) →
  (n ≤ S (size m))%nat.
Proof.
  intros Hfull.
  assert ((list_to_set (seq 1 (n - 1)) : gset nat) ⊆ map_img m) as Hsub.
  { intros slot Hslot%elem_of_list_to_set%elem_of_seq.
    apply elem_of_map_img, Hfull. lia. }
  apply subseteq_size in Hsub.
  rewrite size_list_to_set, length_seq in Hsub by apply NoDup_seq.
  pose proof (map_img_size m). lia.
Qed.

(** The slot of a key that is not carried forward, seen from the whole
    call: [before] are the keys the second loop has visited earlier. *)
Lemma keyMap_new_key this rs re cs ce before key after :
  rectKeys rs re cs ce = before ++ key :: after →
  key ∉ before → lastMap this !! key = None →
  let m := (getReusableKeyMap this rs re cs ce).1 in
  let inUse slot :=
    ∃ key', m !! key' = Some slot ∧ (is_Some (lastMap this !! key') ∨ key' ∈ before) in
  ∃ newKey,
    m !! key = Some newKey ∧ (1 ≤ newKey)%nat ∧ ¬ inUse newKey
    ∧ (∀ slot, (1 ≤ slot < newKey)%nat → inUse slot)
    ∧ (newKey ≤ Z.to_nat (re - rs + 1) * Z.to_nat (ce - cs + 1))%nat.
Proof.
  intros Hkeys Hbefore Hlast m inUse.
  pose proof (keyMap_size this rs re cs ce) as Hsize.
  pose proof (keyMap_is_Some this rs re cs ce) as Hdom.
  fold m in Hsize, Hdom. subst inUse.
  unfold m in *. clear m. rewrite getReusableKeyMap_unfold in *. simpl in *.
  rewrite Hkeys in Hsize, Hdom |- *.
  set (st1 := foldl (λ st key, carryForward (lastMap this) key st) initScan
                (before ++ key :: after)) in *.
  rewrite foldl_app in Hsize, Hdom |- *. simpl in *.
  set (stb := foldl (λ st key, assignKey key st) st1 before) in *.
  assert (ScanInv stb) as Hinv by apply assign_inv, carry_inv.
  assert (∀ key', is_Some (newMap stb !! key')
                  ↔ (key' ∈ before ++ key :: after ∧ is_Some (lastMap this !! key'))
                    ∨ key' ∈ before) as Hstb.
  { intros key'. unfold stb. rewrite assign_is_Some. unfold st1. rewrite carry_lookup.
    case_decide; [tauto|]. rewrite <-not_eq_None_Some. tauto. }
  assert (newMap stb !! key = None) as Hnone.
  { apply eq_None_not_Some. rewrite Hstb. rewrite <-not_eq_None_Some. tauto. }
  destruct (assignKey_fresh key stb Hinv Hnone)
    as (newKey & Hmap & _ & _ & Hpos & Hfree & Hfull).
  assert (∀ key' slot, newMap stb !! key' = Some slot →
            newMap (foldl (λ st key, assignKey key st) (assignKey key stb) after) !! key'
            = Some slot) as Hkeep.
  { intros key' slot Hkey'. by apply assign_preserved, assignKey_preserved. }
  exists newKey. split_and!; [| done | | |].
  - apply assign_preserved. rewrite Hmap. apply lookup_insert_eq.
  - intros (key' & Hkey' & Hwhy).
    assert (is_Some (newMap stb !! key')) as [slot Hslot].
    { apply Hstb. destruct Hwhy as [Hcarried|?]; [left|by right].
      split; [|done]. apply Hdom. eauto. }
    apply Hkeep in Hslot as Hslot'. apply (Hfree key'). congruence.
  - intros slot Hslot. destruct (Hfull slot Hslot) as [key' Hkey'].
    exists key'. split; [by apply Hkeep|].
    destruct (proj1 (Hstb key')) as [[_ ?]|?]; eauto.
  - apply slots_below_size in Hfull.
    assert (S (size (newMap stb)) ≤ size (newMap (foldl (λ st key, assignKey key st)
                                                   (assignKey key stb) after)))%nat.
    { rewrite <-(map_size_insert_None key newKey (newMap stb)), <-Hmap by done.
      apply map_subseteq_size, map_subseteq_spec.
      intros key' slot. apply assign_preserved. }
    lia.
Qed.

(** * The claims about the key recycler *)

(** C1. Started from a fresh recycler, every call of [getReusableKeyMap]
    returns an assignment that gives every coordinate of the rectangle one
    (positive) slot key and gives distinct coordinates distinct slot keys; the
    assignment it stores assigns no slot key twice, and is the state the next
    call starts from.  (The indices need not even be non-negative.) *)
Theorem getReusableKeyMap_injective this rs re cs ce :
  reachable this →
  let m := (getReusableKeyMap this rs re cs ce).1 in
  let this' := (getReusableKeyMap this rs re cs ce).2 in
  (∀ r c, rs ≤ r ≤ re → cs ≤ c ≤ ce →
     ∃ slot, m !! getKey r c = Some slot ∧ (1 ≤ slot)%nat)
  ∧ (∀ r1 c1 r2 c2,
       rs ≤ r1 ≤ re → cs ≤ c1 ≤ ce → rs ≤ r2 ≤ re → cs ≤ c2 ≤ ce →
       m !! getKey r1 c1 = m !! getKey r2 c2 → r1 = r2 ∧ c1 = c2)
  ∧ lastMap this' = m ∧ assignmentInj (lastMap this') ∧ reachable this'.
Proof.
  intros Hreach m this'.
  destruct (reachable_inv this Hreach) as [Hinj Hpos].
  assert (∀ r c, rs ≤ r ≤ re → cs ≤ c ≤ ce → is_Some (m !! getKey r c)) as Hsome.
  { intros r c Hr Hc. apply keyMap_is_Some, elem_of_rectKeys. by exists r, c. }
  split_and!.
  - intros r c Hr Hc. destruct (Hsome r c Hr Hc) as [slot Hslot].
    exists slot. split; [done|].
    by apply (keyMap_positive this rs re cs ce Hpos (getKey r c)).
  - intros r1 c1 r2 c2 Hr1 Hc1 Hr2 Hc2 Heq.
    destruct (Hsome r1 c1 Hr1 Hc1) as [slot Hslot].
    apply (getKey_inj r1 c1 r2 c2).
    apply (keyMap_inj this rs re cs ce Hinj _ _ slot); [done|]. fold m. congruence.
  - done.
  - by apply keyMap_inj.
  - by constructor.
Qed.

Lemma getReusableKeyMap_injective_witness :
  let this := (getReusableKeyMap newReusableKeyCache 0 2 0 1).2 in
  reachable this
  ∧ let m := (getReusableKeyMap this 1 3 0 1).1 in
    let this' := (getReusableKeyMap this 1 3 0 1).2 in
    (∀ r c, 1 ≤ r ≤ 3 → 0 ≤ c ≤ 1 →
       ∃ slot, m !! getKey r c = Some slot ∧ (1 ≤ slot)%nat)
    ∧ (∀ r1 c1 r2 c2,
         1 ≤ r1 ≤ 3 → 0 ≤ c1 ≤ 1 → 1 ≤ r2 ≤ 3 → 0 ≤ c2 ≤ 1 →
         m !! getKey r1 c1 = m !! getKey r2 c2 → r1 = r2 ∧ c1 = c2)
    ∧ lastMap this' = m ∧ assignmentInj (lastMap this') ∧ reachable this'.
Proof.
  assert (reachable (getReusableKeyMap newReusableKeyCache 0 2 0 1).2) as Hreach
    by (constructor; constructor).
  split; [exact Hreach|].
  apply (getReusableKeyMap_injective _ 1 3 0 1 Hreach).
Defined.

(** C2. Of two consecutive calls on the same recycler, the second gives every
    coordinate that lies in both rectangles the slot key the first gave it. *)
Theorem getReusableKeyMap_stable this rs1 re1 cs1 ce1 rs2 re2 cs2 ce2 r c :
  rs1 ≤ r ≤ re1 → cs1 ≤ c ≤ ce1 → rs2 ≤ r ≤ re2 → cs2 ≤ c ≤ ce2 →
  let call1 := getReusableKeyMap this rs1 re1 cs1 ce1 in
  let call2 := getReusableKeyMap call1.2 rs2 re2 cs2 ce2 in
  ∃ slot, call1.1 !! getKey r c = Some slot ∧ call2.1 !! getKey r c = Some slot.
Proof.
  intros Hr1 Hc1 Hr2 Hc2 call1 call2.
  assert (is_Some (call1.1 !! getKey r c)) as [slot Hslot].
  { apply keyMap_is_Some, elem_of_rectKeys. by exists r, c. }
  exists slot. split; [done|].
  apply keyMap_carried; [|exact Hslot].
  apply elem_of_rectKeys. by exists r, c.
Qed.

Lemma getReusableKeyMap_stable_witness :
  let call1 := getReusableKeyMap newReusableKeyCache 0 2 0 0 in
  let call2 := getReusableKeyMap call1.2 1 3 0 0 in
  ∃ slot, call1.1 !! getKey 2 0 = Some slot ∧ call2.1 !! getKey 2 0 = Some slot.
Proof.
  apply (getReusableKeyMap_stable newReusableKeyCache 0 2 0 0 1 3 0 0 2 0); lia.
Defined.

Lemma rectKeys_empty rs re cs ce : re < rs ∨ ce < cs → rectKeys rs re cs ce = [].
Proof.
  intros Hempty. unfold rectKeys.
  rewrite (elem_of_nil_inv (rectCoords rs re cs ce)); [done|].
  intros [r c] Hin%elem_of_rectCoords. lia.
Qed.

(** C5 (as the code has it). A coordinate whose key is not carried forward
    receives the smallest positive integer that is not in use, i.e. held
    neither by a carried-forward coordinate of the rectangle nor by a
    coordinate visited before it; such a new key is at most the number N of
    coordinates of the rectangle.  A slot key above N can only be one that was
    carried forward from the previous assignment, so the largest slot key is
    bounded by N and the largest key of the previous assignment. *)
Theorem getReusableKeyMap_smallest_free this rs re cs ce :
  let m := (getReusableKeyMap this rs re cs ce).1 in
  let N := (Z.to_nat (re - rs + 1) * Z.to_nat (ce - cs + 1))%nat in
  (∀ before key after,
     rectKeys rs re cs ce = before ++ key :: after → key ∉ before →
     lastMap this !! key = None →
     let inUse slot :=
       ∃ key', m !! key' = Some slot
               ∧ (is_Some (lastMap this !! key') ∨ key' ∈ before) in
     ∃ newKey,
       m !! key = Some newKey ∧ (1 ≤ newKey ≤ N)%nat ∧ ¬ inUse newKey
       ∧ ∀ slot, (1 ≤ slot < newKey)%nat → inUse slot)
  ∧ (∀ key slot, m !! key = Some slot →
       (slot ≤ N)%nat ∨ lastMap this !! key = Some slot)
  ∧ (∀ bound, map_Forall (λ _ slot, (slot ≤ bound)%nat) (lastMap this) →
       map_Forall (λ _ slot, (slot ≤ N `max` bound)%nat) m).
Proof.
  intros m N.
  assert (∀ key slot, m !! key = Some slot →
            (slot ≤ N)%nat ∨ lastMap this !! key = Some slot) as Hbound.
  { intros key slot Hslot.
    assert (key ∈ rectKeys rs re cs ce) as Hin
      by (apply (keyMap_is_Some this rs re cs ce); by exists slot).
    destruct (lastMap this !! key) as [lastKey|] eqn:Hlast.
    - right. pose proof (keyMap_carried this rs re cs ce key lastKey Hin Hlast).
      fold m in H. congruence.
    - left. apply list_elem_of_split_l in Hin as (before & after & Hkeys & Hbefore).
      destruct (keyMap_new_key this rs re cs ce before key after Hkeys Hbefore Hlast)
        as (newKey & HnewKey & _ & _ & _ & Hle).
      fold m in HnewKey. by simplify_eq. }
  split_and!.
  - intros before key after Hkeys Hbefore Hlast inUse.
    destruct (keyMap_new_key this rs re cs ce before key after Hkeys Hbefore Hlast)
      as (newKey & HnewKey & Hpos & Hfree & Hfull & Hle).
    exists newKey. by split_and!.
  - done.
  - intros bound Hlast key slot Hslot.
    destruct (Hbound key slot Hslot) as [?|Hcarried]; [lia|].
    apply Hlast in Hcarried. simpl in Hcarried. lia.
Qed.

Lemma getReusableKeyMap_smallest_free_witness :
  let this := (getReusableKeyMap newReusableKeyCache 0 2 0 0).2 in
  let m := (getReusableKeyMap this 1 3 0 0).1 in
  let inUse slot :=
    ∃ key', m !! key' = Some slot
            ∧ (is_Some (lastMap this !! key') ∨ key' ∈ ["1-0"; "2-0"]) in
  ∃ newKey,
    m !! "3-0" = Some newKey ∧ (1 ≤ newKey ≤ 3)%nat ∧ ¬ inUse newKey
    ∧ ∀ slot, (1 ≤ slot < newKey)%nat → inUse slot.
Proof.
  apply (proj1 (getReusableKeyMap_smallest_free
                  (getReusableKeyMap newReusableKeyCache 0 2 0 0).2 1 3 0 0)
           ["1-0"; "2-0"] "3-0" []).
  - reflexivity.
  - intros Hin. repeat (apply elem_of_cons in Hin as [Heq|Hin]; [discriminate Heq|]).
    by apply elem_of_nil in Hin.
  - reflexivity.
Defined.

(** C5 as stated fails: after a call on rows 0..9 of one column, a call on
    row 9 alone carries slot key 10 forward although the rectangle has one
    coordinate. *)
Lemma getReusableKeyMap_max_key_counterexample :
  ¬ (∀ this rs re cs ce key slot,
       reachable this →
       (getReusableKeyMap this rs re cs ce).1 !! key = Some slot →
       (slot ≤ Z.to_nat (re - rs + 1) * Z.to_nat (ce - cs + 1))%nat).
Proof.
  intros Hclaim.
  specialize (Hclaim (getReusableKeyMap newReusableKeyCache 0 9 0 0).2 9 9 0 0
                "9-0" 10%nat).
  assert (10 ≤ 1)%nat; [|lia].
  apply Hclaim; [constructor; constructor|]. vm_compute. reflexivity.
Qed.

(** C10. A call leaves as stored assignment a map whose keys are exactly the
    coordinates of the rectangle it processed.  A call on an empty rectangle
    (a stop index below its start index) therefore leaves the recycler as a
    fresh one, and the call after it assigns every key anew, as on a fresh
    recycler, whatever the calls before the empty one had assigned. *)
Theorem getReusableKeyMap_replaces this rs0 re0 cs0 ce0 rs re cs ce :
  re < rs ∨ ce < cs →
  let this0 := (getReusableKeyMap this rs0 re0 cs0 ce0).2 in
  let thisE := (getReusableKeyMap this0 rs re cs ce).2 in
  (∀ key, is_Some (lastMap this0 !! key)
          ↔ ∃ r c, key = getKey r c ∧ rs0 ≤ r ≤ re0 ∧ cs0 ≤ c ≤ ce0)
  ∧ lastMap thisE = ∅
  ∧ ∀ rs2 re2 cs2 ce2,
      getReusableKeyMap thisE rs2 re2 cs2 ce2
      = getReusableKeyMap newReusableKeyCache rs2 re2 cs2 ce2.
Proof.
  intros Hempty this0 thisE.
  assert (thisE = newReusableKeyCache) as ->.
  { unfold thisE. rewrite getReusableKeyMap_unfold, rectKeys_empty by done. done. }
  split_and!; [|done..].
  intros key. unfold this0. rewrite getReusableKeyMap_stored, keyMap_is_Some.
  apply elem_of_rectKeys.
Qed.

Lemma getReusableKeyMap_replaces_witness :
  let this0 := (getReusableKeyMap newReusableKeyCache 0 2 0 0).2 in
  let thisE := (getReusableKeyMap this0 0 (-1) 0 0).2 in
  (∀ key, is_Some (lastMap this0 !! key)
          ↔ ∃ r c, key = getKey r c ∧ 0 ≤ r ≤ 2 ∧ 0 ≤ c ≤ 0)
  ∧ lastMap thisE = ∅
  ∧ ∀ rs2 re2 cs2 ce2,
      getReusableKeyMap thisE rs2 re2 cs2 ce2
      = getReusableKeyMap newReusableKeyCache rs2 re2 cs2 ce2.
Proof.
  apply (getReusableKeyMap_replaces newReusableKeyCache 0 2 0 0 0 (-1) 0 0). lia.
Defined.

(** Row 2 held slot key 3; after an empty rectangle it is given key 1. *)
Example getReusableKeyMap_after_empty :
  let call1 := getReusableKeyMap newReusableKeyCache 0 2 0 0 in
  let call2 := getReusableKeyMap call1.2 0 (-1) 0 0 in
  let call3 := getReusableKeyMap call2.2 2 2 0 0 in
  call1.1 !! getKey 2 0 = Some 3%nat ∧ call3.1 !! getKey 2 0 = Some 1%nat.
Proof. by vm_compute. Qed.

(** Scenario A of the specification. *)
Example getReusableKeyMap_scenario_A :
  let call1 := getReusableKeyMap newReusableKeyCache 0 2 0 0 in
  let call2 := getReusableKeyMap call1.2 1 3 0 0 in
  map_to_list call1.1 = [("1-0", 2%nat); ("2-0", 3%nat); ("0-0", 1%nat)]
  ∧ map_to_list call2.1 = [("3-0", 1%nat); ("1-0", 2%nat); ("2-0", 3%nat)].
Proof. by vm_compute. Qed.

(** * The range renderer *)

(** ** Sorting *)

Lemma insertCell_Permutation {A} (cmp : A → A → Z) (x : A) (l : list A) :
  insertCell cmp x l ≡ₚ x :: l.
Proof.
  induction l as [|y l IH]; simpl; [done|].
  destruct (cmp x y <=? 0); [done|]. by rewrite IH, Permutation_swap.
Qed.

Lemma sort_Permutation {A} (cmp : A → A → Z) (l : list A) : sort cmp l ≡ₚ l.
Proof.
  unfold sort. induction l as [|x l IH]; simpl; [done|].
  by rewrite insertCell_Permutation, IH.
Qed.

(** If the comparator decides a relation that is total on the elements of the
    list, the result is sorted by that relation. *)
Lemma insertCell_Sorted {A} (cmp : A → A → Z) (R : relation A) (x : A) (l : list A) :
  (∀ y, y ∈ l → if cmp x y <=? 0 then R x y else R y x) →
  Sorted R l → Sorted R (insertCell cmp x l).
Proof.
  induction l as [|y l IH]; intros Hx Hsorted; simpl.
  - by repeat constructor.
  - pose proof (Hx y (list_elem_of_here _ _)) as Hxy.
    destruct (cmp x y <=? 0).
    + constructor; [done|]. by constructor.
    + apply Sorted_inv in Hsorted as [Hsorted Hhd].
      constructor.
      * apply IH; [|done]. intros z Hz. apply Hx. by apply list_elem_of_further.
      * destruct l as [|z l]; simpl; [by constructor|].
        destruct (cmp x z <=? 0); constructor; [done|].
        by apply HdRel_inv in Hhd.
Qed.

Lemma sort_Sorted {A} (cmp : A → A → Z) (R : relation A) (l : list A) :
  (∀ x y, x ∈ l → y ∈ l → if cmp x y <=? 0 then R x y else R y x) →
  Sorted R (sort cmp l).
Proof.
  unfold sort. induction l as [|x l IH]; intros Hcmp; simpl; [constructor|].
  apply insertCell_Sorted.
  - intros y Hy. apply Hcmp; [by left|right].
    by rewrite <-(sort_Permutation cmp l).
  - apply IH. intros y z Hy Hz. apply Hcmp; by right.
Qed.

Lemma sort_keysInOrder v (l : list Element.t) :
  Forall (λ e, is_Some (keyNumber e)) l →
  Sorted (keysInOrder v) (sort (compareCells v) l).
Proof.
  intros Hnum. apply sort_Sorted. intros a b Ha Hb.
  rewrite Forall_forall in Hnum.
  destruct (Hnum a Ha) as [ka Hka], (Hnum b Hb) as [kb Hkb].
  unfold compareCells, keysInOrder. rewrite Hka, Hkb.
  destruct v; simpl; case_match; lia.
Qed.

(** ** The loops *)

Lemma forEach_foldl {A S} (l : list A) (body : A → S → option S)
    (f : S → A → S) (s : S) :
  (∀ a s, a ∈ l → body a s = Some (f s a)) → forEach l body s = Some (foldl f s l).
Proof.
  revert s. induction l as [|a l IH]; intros s Hbody; simpl; [done|].
  rewrite Hbody by set_solver. simpl. apply IH.
  intros a' s' Hin. apply Hbody. set_solver.
Qed.

Section RendererFacts.
Context {World : Type}.
Context (cellRenderer : CellRendererParams → World → Rendered * World).
Context (production : bool).
Implicit Types (st : @Store World) (acc : @Store World * list Element.t).

Lemma recycle_keyMap v p st :
  ∃ this, (recycle v p st).1
          = (getReusableKeyMap this (rowStartIndex p) (rowStopIndex p)
               (columnStartIndex p) (columnStopIndex p)).1.
Proof. unfold recycle. by destruct v; eexists. Qed.

Lemma recycle_is_Some v p st r c :
  rowStartIndex p ≤ r ≤ rowStopIndex p → columnStartIndex p ≤ c ≤ columnStopIndex p →
  is_Some ((recycle v p st).1 !! getKey r c).
Proof.
  intros Hr Hc. destruct (recycle_keyMap v p st) as [this ->].
  apply keyMap_is_Some, elem_of_rectKeys. by exists r, c.
Qed.

(** The renderer never throws: it returns the sorted cells of the loop. *)
Lemma defaultCellRangeRenderer_loop v p st :
  defaultCellRangeRenderer cellRenderer production v p st
  = Some (sort (compareCells v) (renderLoop cellRenderer production v p st).2,
          (renderLoop cellRenderer production v p st).1).
Proof.
  unfold defaultCellRangeRenderer, renderLoop.
  pose proof (recycle_is_Some v p st) as Hsome.
  destruct (recycle v p st) as [reusableKeyMap st1]. simpl in *.
  set (perRow := λ acc rowIndex,
         foldl (λ acc columnIndex,
                  renderCoord cellRenderer production p reusableKeyMap acc
                    (rowIndex, columnIndex))
               acc (indexRange (columnStartIndex p) (columnStopIndex p))).
  rewrite (forEach_foldl _ _ perRow).
  - simpl. unfold rectCoords. rewrite foldl_bind.
    rewrite (foldl_pointwise
               (λ acc rowIndex,
                  foldl (renderCoord cellRenderer production p reusableKeyMap) acc
                    (indexRange (columnStartIndex p) (columnStopIndex p)
                       ≫= λ columnIndex, [(rowIndex, columnIndex)]))
               perRow).
    + by destruct (foldl _ _ _).
    + intros acc rowIndex. by rewrite foldl_bind.
  - intros rowIndex acc Hr%elem_of_seqZ. apply forEach_foldl.
    intros columnIndex acc' Hc%elem_of_seqZ.
    destruct (Hsome rowIndex columnIndex) as [slot Hslot]; [lia..|].
    rewrite Hslot. simpl. unfold renderCoord, reuseKeyAt. simpl.
    by rewrite Hslot.
Qed.

(** ** One iteration *)

Lemma renderCoord_unfold p km st L rc :
  renderCoord cellRenderer production p km (st, L) rc
  = let key := getKey rc.1 rc.2 in
    let reuseKey := reuseKeyAt km rc in
    let sp := positionStyleAt p rc (styleCache st) in
    let st1 := withStyleCache st sp.2 in
    let args :=
      cellRendererParamsAt p reuseKey (warnedAboutMissingStyle (parent st)) sp.1 rc in
    let res :=
      if usesCellCache p then cachedCell cellRenderer args key reuseKey st1
      else callCellRenderer cellRenderer args st1 in
    (foldl (warnAboutMissingStyle production) res.2 (emitted res.1),
     L ++ emitted res.1).
Proof.
  unfold renderCoord, renderCell, positionStyleAt, cellRendererParamsAt. simpl.
  destruct (positionStyle _ _ _ _ _ _ _ _) as [style styleCache']. simpl.
  destruct (if usesCellCache p then _ else _) as [[| | |e] st2]; simpl;
    by rewrite ?app_nil_r.
Qed.

Lemma cachedCell_unfold args key reuseKey st :
  cachedCell cellRenderer args key reuseKey st
  = if truthy (default RUndefined (cells (cellCache st) !! key))
    then (rekeyed reuseKey (default RUndefined (cells (cellCache st) !! key)), st)
    else
      let res := callCellRenderer cellRenderer args st in
      (rekeyed reuseKey res.1,
       withCellCache res.2 {| cells := <[key := res.1]> (cells (cellCache st));
                              cellKeyCache := cellKeyCache (cellCache st) |}).
Proof.
  unfold cachedCell, callCellRenderer.
  destruct (truthy _); [done|].
  destruct (cellRenderer args (world st)) as [r w]. simpl.
  by rewrite lookup_insert_eq.
Qed.

Lemma warnAboutMissingStyle_frame st es :
  let st' := foldl (warnAboutMissingStyle production) st es in
  cellCache st' = cellCache st ∧ styleCache st' = styleCache st
  ∧ world st' = world st ∧ calls st' = calls st
  ∧ parentKeyCache (parent st') = parentKeyCache (parent st).
Proof.
  revert st. induction es as [|e es IH]; intros st; simpl; [done|].
  destruct (IH (warnAboutMissingStyle production st e)) as (-> & -> & -> & -> & ->).
  unfold warnAboutMissingStyle. by repeat case_match.
Qed.

Lemma callCellRenderer_fields args st :
  let res := callCellRenderer cellRenderer args st in
  res.1 = (cellRenderer args (world st)).1
  ∧ cellCache res.2 = cellCache st ∧ styleCache res.2 = styleCache st
  ∧ parent res.2 = parent st
  ∧ world res.2 = (cellRenderer args (world st)).2
  ∧ calls res.2 = calls st ++ [args].
Proof. unfold callCellRenderer. by destruct (cellRenderer args (world st)). Qed.

(** What an iteration at [rc] leaves in the store and pushes. *)
Lemma renderCoord_fields p km st L rc :
  let key := getKey rc.1 rc.2 in
  let reuseKey := reuseKeyAt km rc in
  let sp := positionStyleAt p rc (styleCache st) in
  let args :=
    cellRendererParamsAt p reuseKey (warnedAboutMissingStyle (parent st)) sp.1 rc in
  let cached := default RUndefined (cells (cellCache st) !! key) in
  let r := (cellRenderer args (world st)).1 in
  let st' := (renderCoord cellRenderer production p km (st, L) rc).1 in
  let L' := (renderCoord cellRenderer production p km (st, L) rc).2 in
  styleCache st' = sp.2
  ∧ cellKeyCache (cellCache st') = cellKeyCache (cellCache st)
  ∧ parentKeyCache (parent st') = parentKeyCache (parent st)
  ∧ if usesCellCache p && truthy cached
    then cells (cellCache st') = cells (cellCache st)
         ∧ world st' = world st ∧ calls st' = calls st
         ∧ L' = L ++ emitted (rekeyed reuseKey cached)
    else cells (cellCache st')
         = (if usesCellCache p then <[key := r]> (cells (cellCache st))
            else cells (cellCache st))
         ∧ world st' = (cellRenderer args (world st)).2
         ∧ calls st' = calls st ++ [args]
         ∧ L' = L ++ emitted (if usesCellCache p then rekeyed reuseKey r else r).
Proof.
  intros key reuseKey sp args cached r st' L'.
  subst st' L'. rewrite renderCoord_unfold. cbv zeta.
  fold key reuseKey sp args.
  set (st1 := withStyleCache st sp.2).
  set (res := if usesCellCache p then _ else _).
  destruct (warnAboutMissingStyle_frame res.2 (emitted res.1)) as (Hcc & Hsc & Hw & Hc & Hp).
  cbn [fst snd]. rewrite Hsc, Hcc, Hp, Hw, Hc. clear Hcc Hsc Hw Hc Hp.
  destruct (callCellRenderer_fields args st1) as (Hr & Hcc & Hsc & Hp & Hw & Hc).
  subst res. destruct (usesCellCache p); cbn [andb].
  - rewrite cachedCell_unfold. fold cached.
    change (cells (cellCache st1)) with (cells (cellCache st)).
    fold cached. destruct (truthy cached); cbn [fst snd]; [done|].
    unfold withCellCache. simpl. by rewrite Hr, Hsc, Hp, Hw, Hc.
  - simpl. by rewrite Hr, Hsc, Hcc, Hp, Hw, Hc.
Qed.

(** ** Stores that agree *)

Ltac agree_fields := split; simpl; first [congruence | auto].

Lemma agree_refl b st : agree b st st.
Proof. by split. Qed.

Lemma positionStyleAt_agree p rc (sc1 sc2 : gmap string Style.t) :
  (canCacheStyle p = true → sc1 = sc2) →
  (positionStyleAt p rc sc1).1 = (positionStyleAt p rc sc2).1.
Proof.
  intros Hsc. unfold positionStyleAt, positionStyle.
  destruct (canCacheStyle p); [by rewrite Hsc|].
  by destruct (match deferredMeasurementCache p with Some _ => _ | None => _ end).
Qed.

Lemma callCellRenderer_agree b args st1 st2 :
  agree b st1 st2 →
  (callCellRenderer cellRenderer args st1).1 = (callCellRenderer cellRenderer args st2).1
  ∧ agree b (callCellRenderer cellRenderer args st1).2
            (callCellRenderer cellRenderer args st2).2.
Proof.
  intros [Hcells Hsc Hwarned Hworld Hcalls Hwarnings].
  unfold callCellRenderer. rewrite Hworld.
  destruct (cellRenderer args (world st2)) as [r w]. simpl.
  split; [done|]. agree_fields.
Qed.

Lemma cachedCell_agree b args key reuseKey st1 st2 :
  agree b st1 st2 →
  (cachedCell cellRenderer args key reuseKey st1).1
  = (cachedCell cellRenderer args key reuseKey st2).1
  ∧ agree b (cachedCell cellRenderer args key reuseKey st1).2
            (cachedCell cellRenderer args key reuseKey st2).2.
Proof.
  intros Hagree. rewrite !cachedCell_unfold.
  destruct (callCellRenderer_agree b args st1 st2 Hagree) as [Hres [? ? ? ? ? ?]].
  pose proof Hagree as [Hcells ? ? ? ? ?]. rewrite Hcells.
  destruct (truthy _); simpl; [done|].
  rewrite Hres. split; [done|]. agree_fields.
Qed.

Lemma warnAboutMissingStyle_agree b st1 st2 es :
  agree b st1 st2 →
  agree b (foldl (warnAboutMissingStyle production) st1 es)
          (foldl (warnAboutMissingStyle production) st2 es).
Proof.
  revert st1 st2. induction es as [|e es IH]; intros st1 st2 Hagree; simpl; [done|].
  apply IH. destruct Hagree as [Hcells Hsc Hwarned Hworld Hcalls Hwarnings].
  unfold warnAboutMissingStyle. rewrite Hwarned.
  repeat case_match; agree_fields.
Qed.

(** An iteration keeps two agreeing stores in agreement and pushes the same
    cells, provided the style caches agree whenever styles are read. *)
Lemma renderCoord_agree b p km acc1 acc2 rc :
  (canCacheStyle p = true → b = true) →
  agree b acc1.1 acc2.1 → acc1.2 = acc2.2 →
  agree b (renderCoord cellRenderer production p km acc1 rc).1
          (renderCoord cellRenderer production p km acc2 rc).1
  ∧ (renderCoord cellRenderer production p km acc1 rc).2
    = (renderCoord cellRenderer production p km acc2 rc).2.
Proof.
  destruct acc1 as [st1 L1], acc2 as [st2 L2]. cbn [fst snd]. intros Hb Hagree <-.
  rewrite !renderCoord_unfold. cbv zeta.
  assert ((positionStyleAt p rc (styleCache st1)).1
          = (positionStyleAt p rc (styleCache st2)).1) as Hstyle.
  { apply positionStyleAt_agree. intros Hcan. by apply Hagree, Hb. }
  rewrite Hstyle, (agree_warned _ _ _ Hagree).
  set (args := cellRendererParamsAt p _ _ _ rc).
  assert (agree b (withStyleCache st1 (positionStyleAt p rc (styleCache st1)).2)
                  (withStyleCache st2 (positionStyleAt p rc (styleCache st2)).2))
    as Hagree1.
  { destruct Hagree as [Hcells Hsc Hwarned Hworld Hcalls Hwarnings].
    split; simpl; try done. intros ->. by rewrite Hsc. }
  destruct (usesCellCache p).
  - destruct (cachedCell_agree b args (getKey rc.1 rc.2) (reuseKeyAt km rc) _ _ Hagree1)
      as [-> Hagree2].
    split; [|done]. by apply warnAboutMissingStyle_agree.
  - destruct (callCellRenderer_agree b args _ _ Hagree1) as [-> Hagree2].
    split; [|done]. by apply warnAboutMissingStyle_agree.
Qed.

Lemma renderCoords_agree b p km acc1 acc2 (l : list (Z * Z)) :
  (canCacheStyle p = true → b = true) →
  agree b acc1.1 acc2.1 → acc1.2 = acc2.2 →
  agree b (foldl (renderCoord cellRenderer production p km) acc1 l).1
          (foldl (renderCoord cellRenderer production p km) acc2 l).1
  ∧ (foldl (renderCoord cellRenderer production p km) acc1 l).2
    = (foldl (renderCoord cellRenderer production p km) acc2 l).2.
Proof.
  intros Hb. revert acc1 acc2.
  induction l as [|rc l IH]; intros acc1 acc2 Hagree HL; simpl; [done|].
  destruct (renderCoord_agree b p km acc1 acc2 rc Hb Hagree HL). by apply IH.
Qed.

Lemma agree_sym b st1 st2 : agree b st1 st2 → agree b st2 st1.
Proof. intros [? Hsc ? ? ? ?]. split; try done. intros Hb. by rewrite Hsc. Qed.

Lemma agree_trans b st1 st2 st3 : agree b st1 st2 → agree b st2 st3 → agree b st1 st3.
Proof.
  intros [? Hsc1 ? ? ? ?] [? Hsc2 ? ? ? ?]. split; try congruence.
  intros Hb. by rewrite Hsc1, Hsc2.
Qed.

(** ** Looking up the recycler *)

Lemma recycle_keyMap_eq v p st :
  (recycle v p st).1
  = (getReusableKeyMap (default newReusableKeyCache (keyCacheOf v st))
       (rowStartIndex p) (rowStopIndex p) (columnStartIndex p) (columnStopIndex p)).1.
Proof. unfold recycle, keyCacheOf. by destruct v. Qed.

Lemma recycle_keyCacheOf v p st :
  keyCacheOf v (recycle v p st).2
  = Some (getReusableKeyMap (default newReusableKeyCache (keyCacheOf v st))
            (rowStartIndex p) (rowStopIndex p)
            (columnStartIndex p) (columnStopIndex p)).2.
Proof. unfold recycle, keyCacheOf. by destruct v. Qed.

Lemma recycle_agree v p st : agree true st (recycle v p st).2.
Proof. unfold recycle. by destruct v. Qed.

Lemma renderCoords_keyCacheOf v p km acc (l : list (Z * Z)) :
  keyCacheOf v (foldl (renderCoord cellRenderer production p km) acc l).1
  = keyCacheOf v acc.1.
Proof.
  revert acc. induction l as [|rc l IH]; intros [st L]; simpl; [done|].
  rewrite IH.
  destruct (renderCoord_fields p km st L rc) as (_ & Hcell & Hparent & _).
  unfold keyCacheOf. by destruct v.
Qed.

(** ** The loop *)

Lemma truthy_RElement (r : Rendered) : truthy r = true ↔ ∃ e, r = RElement e.
Proof. destruct r; simpl; split; try done; try (by intros [? ?]); eauto. Qed.

(** A cell held by the cell cache is never overwritten. *)
Lemma renderCoord_cells_kept p km acc rc key e :
  cells (cellCache acc.1) !! key = Some (RElement e) →
  cells (cellCache (renderCoord cellRenderer production p km acc rc).1) !! key
  = Some (RElement e).
Proof.
  destruct acc as [st L]. cbn [fst]. intros Hcell.
  destruct (renderCoord_fields p km st L rc) as (_ & _ & _ & Hcases).
  destruct (usesCellCache p); cbn [andb] in Hcases.
  - destruct (truthy _) eqn:Htruthy.
    + destruct Hcases as (-> & _). done.
    + destruct Hcases as (-> & _).
      rewrite lookup_insert_ne; [done|]. intros <-. by rewrite Hcell in Htruthy.
  - destruct Hcases as (-> & _). done.
Qed.

Lemma renderCoords_cells_kept p km acc (l : list (Z * Z)) key e :
  cells (cellCache acc.1) !! key = Some (RElement e) →
  cells (cellCache (foldl (renderCoord cellRenderer production p km) acc l).1) !! key
  = Some (RElement e).
Proof.
  revert acc. induction l as [|rc l IH]; intros acc Hcell; simpl; [done|].
  by apply IH, renderCoord_cells_kept.
Qed.

(** An iteration pushes at most one cell; on the cache path, and on the
    other path if the cell renderer uses the key it is given, that cell
    carries the key of the iteration. *)
Lemma renderCoord_emits p km st L rc :
  usesCellCache p = true ∨ usesGivenKey cellRenderer →
  (renderCoord cellRenderer production p km (st, L) rc).2 = L
  ∨ ∃ e, (renderCoord cellRenderer production p km (st, L) rc).2 = L ++ [e]
         ∧ Element.key e = Some (reuseKeyAt km rc).
Proof.
  intros Hpath.
  assert (∀ r, emitted (rekeyed (reuseKeyAt km rc) r) = []
               ∨ ∃ e, emitted (rekeyed (reuseKeyAt km rc) r) = [e]
                      ∧ Element.key e = Some (reuseKeyAt km rc)) as Hrekeyed.
  { intros [| | |e]; simpl; auto. right. case_decide; eauto. }
  destruct (renderCoord_fields p km st L rc) as (_ & _ & _ & Hcases).
  destruct (usesCellCache p) eqn:Hcache; cbn [andb] in Hcases.
  - destruct (truthy _); destruct Hcases as (_ & _ & _ & ->);
      match goal with
      | |- context [emitted (rekeyed _ ?r)] =>
          destruct (Hrekeyed r) as [->|(e & -> & ?)];
          [left; by rewrite app_nil_r|right; eauto]
      end.
  - destruct Hpath as [?|Hgiven]; [done|].
    destruct Hcases as (_ & _ & _ & ->).
    destruct (cellRenderer _ _).1 as [| | |e] eqn:Hr; simpl;
      try (left; by rewrite app_nil_r).
    right. exists e. split; [done|]. by apply Hgiven in Hr.
Qed.

(** The keys of the cells pushed are the keys of the iterations that pushed
    one, in the order of the loop. *)
Lemma renderCoords_keys p km st L (l : list (Z * Z)) :
  usesCellCache p = true ∨ usesGivenKey cellRenderer →
  ∃ l', l' `sublist_of` l
        ∧ Element.key <$> (foldl (renderCoord cellRenderer production p km) (st, L) l).2
          = (Element.key <$> L) ++ ((λ rc, Some (reuseKeyAt km rc)) <$> l').
Proof.
  intros Hpath. revert st L. induction l as [|rc l IH]; intros st L; simpl.
  - exists []. split; [constructor|]. by rewrite app_nil_r.
  - destruct (renderCoord cellRenderer production p km (st, L) rc) as [st' L'] eqn:Hstep.
    destruct (IH st' L') as (l' & Hsub & Hkeys).
    destruct (renderCoord_emits p km st L rc Hpath) as [HL|(e & HL & Hkey)];
      rewrite Hstep in HL; simpl in HL; subst L'.
    + exists l'. split; [by constructor|done].
    + exists (rc :: l'). split; [by constructor|].
      by rewrite Hkeys, fmap_app, <-app_assoc, fmap_cons, Hkey.
Qed.

(** The cell renderer is called at most once per iteration, at the
    coordinate of the iteration. *)
Lemma renderCoords_calls p km acc (l : list (Z * Z)) :
  ∃ l', l' `sublist_of` l
        ∧ callCoords (calls (foldl (renderCoord cellRenderer production p km) acc l).1)
          = callCoords (calls acc.1) ++ l'.
Proof.
  revert acc. induction l as [|rc l IH]; intros [st L]; simpl.
  - exists []. split; [constructor|]. by rewrite app_nil_r.
  - destruct (IH (renderCoord cellRenderer production p km (st, L) rc))
      as (l' & Hsub & Hcalls).
    destruct (renderCoord_fields p km st L rc) as (_ & _ & _ & Hcases).
    destruct (usesCellCache p && truthy _).
    + destruct Hcases as (_ & _ & Hstep & _). rewrite Hstep in Hcalls.
      exists l'. split; [by constructor|done].
    + destruct Hcases as (_ & _ & Hstep & _). rewrite Hstep in Hcalls.
      exists (rc :: l'). split; [by constructor|].
      rewrite Hcalls. unfold callCoords. rewrite fmap_app, <-app_assoc. simpl.
      by destruct rc.
Qed.

(** Cells pushed stay in the list. *)
Lemma renderCoords_grows p km acc (l : list (Z * Z)) e :
  e ∈ acc.2 → e ∈ (foldl (renderCoord cellRenderer production p km) acc l).2.
Proof.
  revert acc. induction l as [|rc l IH]; intros [st L] Hin; simpl; [done|].
  apply IH.
  destruct (renderCoord_fields p km st L rc) as (_ & _ & _ & Hcases).
  destruct (usesCellCache p && truthy _); destruct Hcases as (_ & _ & _ & ->);
    apply elem_of_app; by left.
Qed.

(** On the cache path, with a cell renderer that always renders, every
    coordinate visited has a cell in the cache afterwards. *)
Lemma renderCoords_fills_cache p km acc (l : list (Z * Z)) rc :
  usesCellCache p = true → alwaysRenders cellRenderer → rc ∈ l →
  truthy (default RUndefined
            (cells (cellCache (foldl (renderCoord cellRenderer production p km) acc l).1)
               !! getKey rc.1 rc.2)) = true.
Proof.
  intros Hcache Hrenders Hin. revert acc.
  induction l as [|rc' l IH]; intros [st L]; [by apply elem_of_nil in Hin|].
  simpl. apply elem_of_cons in Hin as [<-|Hin]; [|by apply IH].
  assert (∃ e, cells (cellCache (renderCoord cellRenderer production p km (st, L) rc).1)
                 !! getKey rc.1 rc.2 = Some (RElement e)) as [e He].
  { destruct (renderCoord_fields p km st L rc) as (_ & _ & _ & Hcases).
    rewrite Hcache in Hcases. cbn [andb] in Hcases.
    destruct (truthy _) eqn:Htruthy.
    - destruct Hcases as (-> & _). apply truthy_RElement in Htruthy as [e He].
      exists e. by destruct (cells (cellCache st) !! _) as [r|]; simplify_eq/=.
    - destruct Hcases as (-> & _). rewrite lookup_insert_eq.
      match goal with
      | |- context [cellRenderer ?args ?w] =>
          destruct (proj1 (truthy_RElement _) (Hrenders args w)) as [e ->]
      end. eauto. }
  by rewrite (renderCoords_cells_kept p km _ l _ e He).
Qed.

(** On the cache path, a loop over coordinates whose cells are all cached
    leaves the cell cache and the application alone, does not call the cell
    renderer, and pushes the cached cells under the keys of the iterations. *)
Lemma renderCoords_all_cached p km acc (l : list (Z * Z)) :
  usesCellCache p = true →
  (∀ rc, rc ∈ l →
     truthy (default RUndefined (cells (cellCache acc.1) !! getKey rc.1 rc.2)) = true) →
  let res := foldl (renderCoord cellRenderer production p km) acc l in
  cells (cellCache res.1) = cells (cellCache acc.1)
  ∧ world res.1 = world acc.1
  ∧ calls res.1 = calls acc.1
  ∧ res.2 = acc.2 ++
      (rc ← l;
       emitted (rekeyed (reuseKeyAt km rc)
                  (default RUndefined (cells (cellCache acc.1) !! getKey rc.1 rc.2)))).
Proof.
  intros Hcache. revert acc.
  induction l as [|rc l IH]; intros [st L] Hall; simpl.
  - by rewrite app_nil_r.
  - destruct (renderCoord_fields p km st L rc) as (_ & _ & _ & Hcases).
    cbn [fst snd] in Hall.
    rewrite Hcache, (Hall rc) in Hcases by (by left). simpl in Hcases.
    destruct Hcases as (Hcells & Hworld & Hcalls & HL).
    destruct (IH (renderCoord cellRenderer production p km (st, L) rc))
      as (-> & -> & -> & ->).
    { intros rc' Hin. rewrite Hcells. apply Hall. by right. }
    rewrite Hcells, Hworld, Hcalls, HL. cbn [fst snd]. by rewrite <-app_assoc.
Qed.
(** An iteration touches the cell cache at the key of its coordinate only. *)
Lemma renderCoords_cells_other p km acc (l : list (Z * Z)) rc :
  rc ∉ l →
  cells (cellCache (foldl (renderCoord cellRenderer production p km) acc l).1)
    !! getKey rc.1 rc.2
  = cells (cellCache acc.1) !! getKey rc.1 rc.2.
Proof.
  revert acc. induction l as [|rc' l IH]; intros [st L] Hnotin; [done|].
  apply not_elem_of_cons in Hnotin as [Hne Hnotin].
  cbn [foldl]. rewrite IH by done.
  destruct (renderCoord_fields p km st L rc') as (_ & _ & _ & Hcases).
  assert (getKey rc'.1 rc'.2 ≠ getKey rc.1 rc.2) as Hkey.
  { intros [? ?]%getKey_inj. destruct rc, rc'. by simplify_eq/=. }
  cbn [fst].
  destruct (usesCellCache p && truthy _); destruct Hcases as (-> & _); [done|].
  destruct (usesCellCache p); [by rewrite lookup_insert_ne|done].
Qed.

(** On the cache path, a cell that the cell cache holds after the loop for a
    coordinate of the loop was pushed, under the key of its iteration. *)
Lemma renderCoords_cached_final p km acc (l : list (Z * Z)) rc e0 :
  usesCellCache p = true → NoDup l → rc ∈ l →
  cells (cellCache (foldl (renderCoord cellRenderer production p km) acc l).1)
    !! getKey rc.1 rc.2 = Some (RElement e0) →
  ∀ e, rekeyed (reuseKeyAt km rc) (RElement e0) = RElement e →
       e ∈ (foldl (renderCoord cellRenderer production p km) acc l).2.
Proof.
  intros Hcache Hnodup Hin Hcell e He. revert acc Hcell.
  induction l as [|rc' l IH]; intros [st L] Hcell; [by apply elem_of_nil in Hin|].
  apply NoDup_cons in Hnodup as [Hnotin Hnodup].
  cbn [foldl] in *. apply elem_of_cons in Hin as [<-|Hin]; [|by apply IH].
  rewrite renderCoords_cells_other in Hcell by done.
  apply renderCoords_grows.
  destruct (renderCoord_fields p km st L rc) as (_ & _ & _ & Hcases).
  rewrite Hcache in Hcases. cbn [andb] in Hcases.
  destruct (truthy _) eqn:Htruthy.
  - destruct Hcases as (Hcells & _ & _ & ->). rewrite Hcells in Hcell.
    rewrite Hcell. cbn [default from_option id]. rewrite He.
    apply elem_of_app. right. by apply list_elem_of_singleton.
  - destruct Hcases as (Hcells & _ & _ & ->). rewrite Hcells in Hcell.
    rewrite lookup_insert_eq in Hcell. injection Hcell as ->. rewrite He.
    apply elem_of_app. right. by apply list_elem_of_singleton.
Qed.

(** If every iteration pushes cells under the key it is given, the cells
    pushed have numeric keys. *)
Lemma renderCoords_numeric p km st (l : list (Z * Z)) :
  usesCellCache p = true ∨ usesGivenKey cellRenderer →
  Forall (λ e, is_Some (keyNumber e))
    (foldl (renderCoord cellRenderer production p km) (st, []) l).2.
Proof.
  intros Hpath. destruct (renderCoords_keys p km st [] l Hpath) as (l' & _ & Hkeys).
  rewrite fmap_nil, app_nil_l in Hkeys.
  apply Forall_forall. intros e He.
  apply (list_elem_of_fmap_2 Element.key) in He. rewrite Hkeys in He.
  apply list_elem_of_fmap in He as (rc & Hkey & _).
  unfold keyNumber. rewrite Hkey. cbn [default from_option id].
  unfold reuseKeyAt. rewrite parseInt_toString. by eexists.
Qed.

(** Within a rectangle, distinct coordinates are given distinct keys by an
    assignment that assigns no slot key twice. *)
Lemma reuseKeyAt_inj this rs re cs ce rc1 rc2 :
  assignmentInj (lastMap this) →
  rc1 ∈ rectCoords rs re cs ce → rc2 ∈ rectCoords rs re cs ce →
  reuseKeyAt (getReusableKeyMap this rs re cs ce).1 rc1
  = reuseKeyAt (getReusableKeyMap this rs re cs ce).1 rc2 →
  rc1 = rc2.
Proof.
  intros Hinj Hin1 Hin2 Heq.
  destruct rc1 as [r1 c1], rc2 as [r2 c2].
  pose proof Hin1 as [Hr1 Hc1]%elem_of_rectCoords.
  pose proof Hin2 as [Hr2 Hc2]%elem_of_rectCoords.
  assert (∀ r c, (r, c) ∈ rectCoords rs re cs ce →
            is_Some ((getReusableKeyMap this rs re cs ce).1 !! getKey r c)) as Hsome.
  { intros r c Hin. apply keyMap_is_Some, list_elem_of_fmap. by exists (r, c). }
  destruct (Hsome r1 c1 Hin1) as [slot1 Hslot1], (Hsome r2 c2 Hin2) as [slot2 Hslot2].
  unfold reuseKeyAt in Heq. cbn [fst snd] in Heq.
  rewrite Hslot1, Hslot2 in Heq. cbn [from_option id] in Heq.
  apply toString_inj in Heq as ->.
  pose proof (keyMap_inj this rs re cs ce Hinj _ _ _ Hslot1 Hslot2) as Hkey.
  by apply getKey_inj in Hkey as [-> ->].
Qed.

(** * The claims about the range renderer *)

(** C3 (as the code has it). The renderer returns, and the cells it returns
    are sorted by numeric key whenever their keys are numeric: in ascending
    order in the variant that sorts by [parseInt(a.key) - parseInt(b.key)],
    in descending order in the variant of
    [source/Grid/defaultCellRangeRenderer.js], whose comparator is
    [parseInt(b.key) - parseInt(a.key)].  The keys are numeric on the cache
    path, and on the other path if the cell renderer puts the key it is given
    on its cells. *)
Theorem defaultCellRangeRenderer_sorted v p st :
  ∃ out st',
    defaultCellRangeRenderer cellRenderer production v p st = Some (out, st')
    ∧ (Forall (λ e, is_Some (keyNumber e)) out → Sorted (keysInOrder v) out)
    ∧ (usesCellCache p = true ∨ usesGivenKey cellRenderer →
       Forall (λ e, is_Some (keyNumber e)) out).
Proof.
  eexists _, _. split; [apply defaultCellRangeRenderer_loop|]. split.
  - intros Hnum. apply sort_keysInOrder.
    by rewrite sort_Permutation in Hnum.
  - intros Hpath. rewrite sort_Permutation. by apply renderCoords_numeric.
Qed.

(** C9. On stores that hold the same caches and the same prior recycler
    state, each on the object its variant keeps it on, the two variants both
    return, and return the same cells up to their order; the stores they
    leave agree again. *)
Theorem defaultCellRangeRenderer_variants p stA stB :
  agree true stA stB →
  keyCacheOf KeysOnCellCache stA = keyCacheOf KeysOnParent stB →
  ∃ outA stA' outB stB',
    defaultCellRangeRenderer cellRenderer production KeysOnCellCache p stA
    = Some (outA, stA')
    ∧ defaultCellRangeRenderer cellRenderer production KeysOnParent p stB
      = Some (outB, stB')
    ∧ outA ≡ₚ outB
    ∧ agree true stA' stB'
    ∧ keyCacheOf KeysOnCellCache stA' = keyCacheOf KeysOnParent stB'.
Proof.
  intros Hagree Hkeys. eexists _, _, _, _.
  split; [apply defaultCellRangeRenderer_loop|].
  split; [apply defaultCellRangeRenderer_loop|].
  unfold renderLoop.
  assert ((recycle KeysOnCellCache p stA).1 = (recycle KeysOnParent p stB).1) as Hkm.
  { by rewrite !recycle_keyMap_eq, Hkeys. }
  rewrite Hkm.
  destruct (renderCoords_agree true p (recycle KeysOnParent p stB).1
              ((recycle KeysOnCellCache p stA).2, []) ((recycle KeysOnParent p stB).2, [])
              (rectCoords (rowStartIndex p) (rowStopIndex p)
                 (columnStartIndex p) (columnStopIndex p)))
    as [Hagree' HL]; [done| |done|].
  { cbn [fst]. eapply agree_trans; [apply agree_sym, recycle_agree|].
    eapply agree_trans; [exact Hagree|apply recycle_agree]. }
  split_and!.
  - by rewrite !sort_Permutation, HL.
  - done.
  - rewrite !renderCoords_keyCacheOf. cbn [fst].
    by rewrite !recycle_keyCacheOf, Hkeys.
Qed.

(** C6 (as the code has it). When either axis reports adjusted offsets, the
    style cache is not read during the call: with any other style cache in
    its place the renderer returns the same cells, calls the cell renderer
    with the same arguments and leaves the same cell cache, parent and
    application state. *)
Theorem defaultCellRangeRenderer_style_cache_unread v p st sc :
  Manager.areOffsetsAdjusted (columnSizeAndPositionManager p) = true
  ∨ Manager.areOffsetsAdjusted (rowSizeAndPositionManager p) = true →
  ∃ out st1 st2,
    defaultCellRangeRenderer cellRenderer production v p st = Some (out, st1)
    ∧ defaultCellRangeRenderer cellRenderer production v p (withStyleCache st sc)
      = Some (out, st2)
    ∧ agree false st1 st2
    ∧ keyCacheOf v st1 = keyCacheOf v st2.
Proof.
  intros Hadjusted.
  assert (canCacheStyle p = false) as Hcan.
  { unfold canCacheStyle. destruct Hadjusted as [-> | ->];
      by rewrite ?orb_true_r, ?andb_false_r. }
  assert (keyCacheOf v (withStyleCache st sc) = keyCacheOf v st) as Hkeys
    by by destruct v.
  assert ((recycle v p (withStyleCache st sc)).1 = (recycle v p st).1) as Hkm
    by by rewrite !recycle_keyMap_eq, Hkeys.
  destruct (renderCoords_agree false p (recycle v p st).1
              ((recycle v p st).2, []) ((recycle v p (withStyleCache st sc)).2, [])
              (rectCoords (rowStartIndex p) (rowStopIndex p)
                 (columnStartIndex p) (columnStopIndex p)))
    as [Hagree' HL]; [congruence| |done|].
  { cbn [fst]. unfold recycle. by destruct v. }
  eexists _, _, _. split; [apply defaultCellRangeRenderer_loop|].
  split; [rewrite defaultCellRangeRenderer_loop; unfold renderLoop; rewrite Hkm, <-HL; done|].
  unfold renderLoop. split; [done|].
  rewrite !renderCoords_keyCacheOf. cbn [fst].
  by rewrite !recycle_keyCacheOf, Hkeys.
Qed.

(** C8. On the cache path, a cell that the cell cache held for a coordinate
    of the rectangle is still held after the call; and for the cell the cache
    holds after the call (the one it held, or the one constructed in this
    call), the renderer returns that cell itself if it carries the slot key of
    the coordinate, and otherwise a copy of it that differs in the key alone. *)
Theorem defaultCellRangeRenderer_rekeys_copy v p st r c :
  usesCellCache p = true →
  rowStartIndex p ≤ r ≤ rowStopIndex p →
  columnStartIndex p ≤ c ≤ columnStopIndex p →
  ∃ out st' slot,
    defaultCellRangeRenderer cellRenderer production v p st = Some (out, st')
    ∧ (recycle v p st).1 !! getKey r c = Some slot
    ∧ (∀ e0, cells (cellCache st) !! getKey r c = Some (RElement e0) →
             cells (cellCache st') !! getKey r c = Some (RElement e0))
    ∧ (∀ e0, cells (cellCache st') !! getKey r c = Some (RElement e0) →
             if decide (Element.key e0 = Some (toString slot)) then e0 ∈ out
             else
               let copy := Element.withKey e0 (toString slot) in
               copy ∈ out
               ∧ Element.key copy = Some (toString slot)
               ∧ Element.cellMeasurer copy = Element.cellMeasurer e0
               ∧ Element.style copy = Element.style e0
               ∧ Element.children copy = Element.children e0
               ∧ Element.content copy = Element.content e0).
Proof.
  intros Hcache Hr Hc.
  destruct (recycle_is_Some v p st r c Hr Hc) as [slot Hslot].
  eexists _, _, slot. split; [apply defaultCellRangeRenderer_loop|].
  split; [done|].
  assert ((r, c) ∈ rectCoords (rowStartIndex p) (rowStopIndex p)
                     (columnStartIndex p) (columnStopIndex p)) as Hin
    by by apply elem_of_rectCoords.
  assert (reuseKeyAt (recycle v p st).1 (r, c) = toString slot) as Hkey.
  { unfold reuseKeyAt. cbn [fst snd]. by rewrite Hslot. }
  unfold renderLoop. split.
  - intros e0 Hcell. apply renderCoords_cells_kept. cbn [fst].
    by rewrite <-(agree_cells _ _ _ (recycle_agree v p st)).
  - intros e0 Hcell.
    pose proof (renderCoords_cached_final p (recycle v p st).1 ((recycle v p st).2, [])
                  _ (r, c) e0 Hcache (NoDup_rectCoords _ _ _ _) Hin Hcell) as Hemit.
    rewrite Hkey in Hemit. simpl in Hemit.
    case_decide.
    + rewrite sort_Permutation. by apply Hemit.
    + split; [|done]. rewrite sort_Permutation. by apply Hemit.
Qed.

(** ** Which iteration pushed which cell *)

(** An iteration appends to the cells pushed so far, and what it appends
    and leaves in the store does not depend on them. *)
Lemma renderCoord_acc p km st L rc :
  renderCoord cellRenderer production p km (st, L) rc
  = ((renderCoord cellRenderer production p km (st, []) rc).1,
     L ++ (renderCoord cellRenderer production p km (st, []) rc).2).
Proof. by rewrite !renderCoord_unfold. Qed.

Lemma renderCoords_pushed p km st L (l : list (Z * Z)) :
  (foldl (renderCoord cellRenderer production p km) (st, L) l).2
  = L ++ (pushedCells cellRenderer production p km st l).*2
  ∧ (foldl (renderCoord cellRenderer production p km) (st, L) l).1
    = (foldl (renderCoord cellRenderer production p km) (st, []) l).1.
Proof.
  revert st L. induction l as [|rc l IH]; intros st L; cbn [foldl pushedCells].
  { by rewrite app_nil_r. }
  rewrite (renderCoord_acc p km st L rc).
  destruct (renderCoord cellRenderer production p km (st, []) rc) as [st1 L1].
  cbn [fst snd].
  destruct (IH st1 (L ++ L1)) as [-> ->]. destruct (IH st1 L1) as [_ ->].
  split; [|done].
  rewrite fmap_app, <-list_fmap_compose, app_assoc. do 2 f_equal.
  by induction L1 as [|e es IHes]; [|cbn; rewrite <-IHes].
Qed.

(** An iteration pushes at most one cell, so the coordinates of the cells
    pushed are coordinates of the loop, each at most once and in its order. *)
Lemma pushedCells_coords p km st (l : list (Z * Z)) :
  (pushedCells cellRenderer production p km st l).*1 `sublist_of` l.
Proof.
  revert st. induction l as [|rc l IH]; intros st; cbn [pushedCells]; [done|].
  rewrite fmap_app. rewrite renderCoord_unfold. cbv zeta. cbn [fst snd app].
  set (res := if usesCellCache p then _ else _).
  destruct (emitted res.1) as [|e [|e' es]] eqn:Hemitted; cbn.
  - apply sublist_cons, IH.
  - apply sublist_skip, IH.
  - by destruct res.1.
Qed.

(** On the cache path, and on the other path if the cell renderer uses the
    key it is given, a cell carries the key of the iteration that pushed it. *)
Lemma pushedCells_keys p km st (l : list (Z * Z)) rc e :
  usesCellCache p = true ∨ usesGivenKey cellRenderer →
  (rc, e) ∈ pushedCells cellRenderer production p km st l →
  rc ∈ l ∧ Element.key e = Some (reuseKeyAt km rc).
Proof.
  intros Hpath. revert st. induction l as [|rc' l IH]; intros st; cbn [pushedCells].
  { by intros ?%elem_of_nil. }
  intros [Hin|Hin]%elem_of_app.
  - apply list_elem_of_fmap in Hin as (e' & [= -> ->] & Hin).
    split; [left|].
    destruct (renderCoord_emits p km st [] rc' Hpath) as [Hnone|(e1 & Hone & Hkey)].
    + rewrite Hnone in Hin. by apply elem_of_nil in Hin.
    + rewrite Hone in Hin. by apply list_elem_of_singleton in Hin as ->.
  - destruct (IH _ Hin) as [? ?]. split; [by right|done].
Qed.

(** Where a pushed cell comes from: on the cache path it is the cell that
    the cell cache holds for the coordinate of its iteration after the loop,
    or a copy of it under the key of the iteration; on the other path it is
    what the cell renderer returned for a call of this loop at the
    coordinate of its iteration. *)
Lemma pushedCells_origin p km st L (l : list (Z * Z)) :
  let res := foldl (renderCoord cellRenderer production p km) (st, L) l in
  ∃ new,
    calls res.1 = calls st ++ new
    ∧ ∀ rc e, (rc, e) ∈ pushedCells cellRenderer production p km st l →
        if usesCellCache p
        then ∃ e0, cells (cellCache res.1) !! getKey rc.1 rc.2 = Some (RElement e0)
                   ∧ RElement e = rekeyed (reuseKeyAt km rc) (RElement e0)
        else ∃ args w, args ∈ new
                       ∧ cr_rowIndex args = rc.1 ∧ cr_columnIndex args = rc.2
                       ∧ cr_key args = reuseKeyAt km rc
                       ∧ (cellRenderer args w).1 = RElement e.
Proof.
  revert st L. induction l as [|rc l IH]; intros st L; cbn [foldl pushedCells].
  { exists []. rewrite app_nil_r. split; [done|]. by intros rc e ?%elem_of_nil. }
  rewrite (renderCoord_acc p km st L rc).
  set (st1 := (renderCoord cellRenderer production p km (st, []) rc).1).
  set (L1 := (renderCoord cellRenderer production p km (st, []) rc).2).
  destruct (IH st1 (L ++ L1)) as (new & Hcalls & Horigin). cbv zeta in *.
  destruct (renderCoord_fields p km st [] rc) as (_ & _ & _ & Hcases).
  cbv zeta in Hcases. fold st1 L1 in Hcases.
  set (args := cellRendererParamsAt p (reuseKeyAt km rc)
                 (warnedAboutMissingStyle (parent st))
                 (positionStyleAt p rc (styleCache st)).1 rc) in *.
  set (cached := default RUndefined (cells (cellCache st) !! getKey rc.1 rc.2)) in *.
  assert (∀ e0, cells (cellCache st1) !! getKey rc.1 rc.2 = Some (RElement e0) →
            cells (cellCache
                     (foldl (renderCoord cellRenderer production p km)
                        (st1, L ++ L1) l).1) !! getKey rc.1 rc.2
            = Some (RElement e0)) as Hkept.
  { intros e0 He0. by apply (renderCoords_cells_kept p km (st1, L ++ L1)). }
  destruct (usesCellCache p) eqn:Hcache; cbn [andb] in Hcases.
  - destruct (truthy cached) eqn:Htruthy.
    + destruct Hcases as (Hcells & _ & Hstep & HL).
      exists new. split; [by rewrite Hcalls, Hstep|].
      intros rc' e [Hin|Hin]%elem_of_app; [|by apply Horigin].
      apply list_elem_of_fmap in Hin as (e' & [= -> ->] & Hin).
      rewrite HL in Hin. cbn [app] in Hin.
      apply truthy_RElement in Htruthy as [e0 He0]. exists e0. split.
      * apply Hkept. rewrite Hcells. unfold cached in He0.
        destruct (cells (cellCache st) !! getKey rc.1 rc.2) as [r|]; [|done].
        simpl in He0. by rewrite He0.
      * rewrite He0 in Hin. cbn [rekeyed] in *.
        case_decide; cbn [emitted] in Hin;
          by apply list_elem_of_singleton in Hin as ->.
    + destruct Hcases as (Hcells & _ & Hstep & HL).
      exists (args :: new). split; [by rewrite Hcalls, Hstep, <-app_assoc|].
      intros rc' e [Hin|Hin]%elem_of_app; [|by apply Horigin].
      apply list_elem_of_fmap in Hin as (e' & [= -> ->] & Hin).
      rewrite HL in Hin. cbn [app] in Hin.
      destruct (cellRenderer args (world st)).1 as [| | |e0] eqn:Hr;
        try by apply elem_of_nil in Hin.
      exists e0. split.
      * apply Hkept. rewrite Hcells. apply lookup_insert_eq.
      * cbn [rekeyed] in *.
        case_decide; cbn [emitted] in Hin;
          by apply list_elem_of_singleton in Hin as ->.
  - destruct Hcases as (_ & _ & Hstep & HL).
    exists (args :: new). split; [by rewrite Hcalls, Hstep, <-app_assoc|].
    intros rc' e [Hin|Hin]%elem_of_app.
    + apply list_elem_of_fmap in Hin as (e' & [= -> ->] & Hin).
      rewrite HL in Hin. cbn [app] in Hin.
      exists args, (world st). split; [left|]. do 3 (split; [done|]).
      destruct (cellRenderer args (world st)).1; cbn [emitted] in Hin;
        try by apply elem_of_nil in Hin.
      by apply list_elem_of_singleton in Hin as ->.
    + destruct (Horigin rc' e Hin) as (args' & w & Hin' & Hrest).
      exists args', w. split; [by right|done].
Qed.

(** C4 (as the code has it). On the cache path, and on the other path if the
    cell renderer puts the key it is given on its cells, the cells returned
    carry pairwise distinct keys, and each carries the string of the slot key
    that the recycler assigned in this call to its own coordinate, the
    coordinate of the iteration that pushed it, which is one coordinate
    only.  The cells returned are the cells pushed, sorted; the iterations
    that pushed one are iterations of the rectangle, each pushing at most
    one.  On the cache path the cell pushed
    is the cell that the cell cache holds for the coordinate, or, if that cell
    carries another key, a copy of it under the slot key; on the other path it
    is the cell that the cell renderer returned when called at the coordinate
    with the slot key. *)
Theorem defaultCellRangeRenderer_keys_distinct v p st :
  reachable (default newReusableKeyCache (keyCacheOf v st)) →
  usesCellCache p = true ∨ usesGivenKey cellRenderer →
  let coords := rectCoords (rowStartIndex p) (rowStopIndex p)
                  (columnStartIndex p) (columnStopIndex p) in
  let pushed := pushedCells cellRenderer production p (recycle v p st).1
                  (recycle v p st).2 coords in
  ∃ out st' new,
    defaultCellRangeRenderer cellRenderer production v p st = Some (out, st')
    ∧ calls st' = calls st ++ new
    ∧ out = sort (compareCells v) pushed.*2
    ∧ pushed.*1 `sublist_of` coords
    ∧ NoDup (Element.key <$> out)
    ∧ (∀ e, e ∈ out ↔ ∃ rc, (rc, e) ∈ pushed)
    ∧ (∀ rc1 rc2 e, (rc1, e) ∈ pushed → (rc2, e) ∈ pushed → rc1 = rc2)
    ∧ ∀ rc e, (rc, e) ∈ pushed →
        rowStartIndex p ≤ rc.1 ≤ rowStopIndex p
        ∧ columnStartIndex p ≤ rc.2 ≤ columnStopIndex p
        ∧ ∃ slot,
            (recycle v p st).1 !! getKey rc.1 rc.2 = Some slot
            ∧ Element.key e = Some (toString slot)
            ∧ if usesCellCache p
              then ∃ e0, cells (cellCache st') !! getKey rc.1 rc.2
                         = Some (RElement e0)
                         ∧ RElement e = rekeyed (toString slot) (RElement e0)
              else ∃ args w, args ∈ new
                             ∧ cr_rowIndex args = rc.1 ∧ cr_columnIndex args = rc.2
                             ∧ cr_key args = toString slot
                             ∧ (cellRenderer args w).1 = RElement e.
Proof.
  intros Hreach Hpath coords pushed.
  destruct (renderCoords_pushed p (recycle v p st).1 (recycle v p st).2 [] coords)
    as [Hpushed _].
  cbn [app] in Hpushed. fold pushed in Hpushed.
  destruct (pushedCells_origin p (recycle v p st).1 (recycle v p st).2 [] coords)
    as (new & Hcalls & Horigin).
  cbv zeta in Hcalls, Horigin. fold pushed in Horigin.
  rewrite <-(agree_calls _ _ _ (recycle_agree v p st)) in Hcalls.
  eexists _, _, new. split; [apply defaultCellRangeRenderer_loop|].
  unfold renderLoop. fold coords. rewrite Hpushed.
  split; [done|]. split; [done|].
  split; [apply pushedCells_coords|].
  destruct (reachable_inv _ Hreach) as [Hinj _].
  split; [|split; [|split]].
  - destruct (renderCoords_keys p (recycle v p st).1 (recycle v p st).2 []
                coords Hpath) as (l' & Hsub & Hkeys).
    rewrite fmap_nil, app_nil_l, Hpushed in Hkeys.
    rewrite sort_Permutation, Hkeys.
    apply NoDup_fmap_2_strong;
      [|eapply sublist_NoDup; [apply NoDup_rectCoords|done]].
    intros rc1 rc2 Hin1 Hin2 Heq. simplify_eq.
    rewrite recycle_keyMap_eq in *.
    eapply (reuseKeyAt_inj _ _ _ _ _ rc1 rc2 Hinj); [| |exact Heq];
      by eapply elem_of_sublist.
  - intros e. rewrite sort_Permutation, list_elem_of_fmap. split.
    + intros ([rc e'] & -> & Hin). by exists rc.
    + intros (rc & Hin). by exists (rc, e).
  - intros rc1 rc2 e Hin1 Hin2.
    destruct (pushedCells_keys p _ _ _ _ _ Hpath Hin1) as [Hrc1 Hkey1].
    destruct (pushedCells_keys p _ _ _ _ _ Hpath Hin2) as [Hrc2 Hkey2].
    assert (reuseKeyAt (recycle v p st).1 rc1 = reuseKeyAt (recycle v p st).1 rc2)
      as Heq by congruence.
    rewrite recycle_keyMap_eq in Heq.
    by apply (reuseKeyAt_inj _ _ _ _ _ rc1 rc2 Hinj Hrc1 Hrc2).
  - intros [r c] e Hin.
    destruct (pushedCells_keys p _ _ _ _ _ Hpath Hin) as [Hrc Hkey].
    apply elem_of_rectCoords in Hrc as [Hr Hc]. do 2 (split; [done|]).
    destruct (recycle_is_Some v p st r c Hr Hc) as [slot Hslot].
    assert (reuseKeyAt (recycle v p st).1 (r, c) = toString slot) as Hreuse.
    { unfold reuseKeyAt. cbn [fst snd]. by rewrite Hslot. }
    exists slot. split; [done|]. split; [by rewrite Hkey, Hreuse|].
    specialize (Horigin (r, c) e Hin). rewrite Hreuse in Horigin. exact Horigin.
Qed.

(** C7 (as the code has it). While scrolling with both offset adjustments
    zero, and with a cell renderer that returns a cell whenever it is called,
    two calls in a row on the same rectangle and caches call the cell
    renderer at most once per coordinate in the first call and not at all in
    the second, whose cells are all those of the cell cache. *)
Theorem defaultCellRangeRenderer_reuses_cache v p st :
  isScrolling p = true →
  horizontalOffsetAdjustment p = 0 → verticalOffsetAdjustment p = 0 →
  alwaysRenders cellRenderer →
  let coords := rectCoords (rowStartIndex p) (rowStopIndex p)
                  (columnStartIndex p) (columnStopIndex p) in
  ∃ out1 st1 out2 st2,
    defaultCellRangeRenderer cellRenderer production v p st = Some (out1, st1)
    ∧ defaultCellRangeRenderer cellRenderer production v p st1 = Some (out2, st2)
    ∧ (∃ new, callCoords (calls st1) = callCoords (calls st) ++ new
              ∧ new `sublist_of` coords ∧ NoDup new)
    ∧ calls st2 = calls st1
    ∧ world st2 = world st1
    ∧ cells (cellCache st2) = cells (cellCache st1)
    ∧ (∀ rc, rc ∈ coords →
         truthy (default RUndefined (cells (cellCache st1) !! getKey rc.1 rc.2)) = true)
    ∧ out2 ≡ₚ
        rc ← coords;
        emitted (rekeyed (reuseKeyAt (recycle v p st1).1 rc)
                   (default RUndefined (cells (cellCache st1) !! getKey rc.1 rc.2))).
Proof.
  intros Hscrolling Hh Hv Hrenders coords.
  assert (usesCellCache p = true) as Hcache.
  { unfold usesCellCache. by rewrite Hscrolling, Hh, Hv, orb_true_r. }
  eexists _, _, _, _.
  split; [apply defaultCellRangeRenderer_loop|].
  split; [apply defaultCellRangeRenderer_loop|].
  set (st1 := (renderLoop cellRenderer production v p st).1).
  assert (∀ rc, rc ∈ coords →
            truthy (default RUndefined (cells (cellCache st1) !! getKey rc.1 rc.2))
            = true) as Hfilled.
  { intros rc Hin. by apply renderCoords_fills_cache. }
  destruct (renderCoords_all_cached p (recycle v p st1).1 ((recycle v p st1).2, [])
              coords Hcache) as (Hcells & Hworld & Hcalls & Hout).
  { intros rc Hin. cbn [fst].
    rewrite <-(agree_cells _ _ _ (recycle_agree v p st1)). by apply Hfilled. }
  cbn [fst snd] in Hcells, Hworld, Hcalls, Hout.
  rewrite <-(agree_cells _ _ _ (recycle_agree v p st1)) in Hcells, Hout.
  rewrite <-(agree_world _ _ _ (recycle_agree v p st1)) in Hworld.
  rewrite <-(agree_calls _ _ _ (recycle_agree v p st1)) in Hcalls.
  split_and!; [|done..|rewrite sort_Permutation; unfold renderLoop; fold coords; by rewrite Hout].
  destruct (renderCoords_calls p (recycle v p st).1 ((recycle v p st).2, []) coords)
    as (new & Hsub & Hnew).
  cbn [fst] in Hnew. rewrite <-(agree_calls _ _ _ (recycle_agree v p st)) in Hnew.
  exists new. split_and!; [done..|].
  eapply sublist_NoDup; [apply NoDup_rectCoords|done].
Qed.

End RendererFacts.

(** * The claims at sample inputs *)

Lemma defaultCellRangeRenderer_sorted_witness :
  ∃ out st',
    defaultCellRangeRenderer Sample.keyed false KeysOnParent
      (Sample.params 0 1 0 1 false false) Sample.store = Some (out, st')
    ∧ Forall (λ e, is_Some (keyNumber e)) out
    ∧ Sorted (keysInOrder KeysOnParent) out.
Proof.
  destruct (defaultCellRangeRenderer_sorted Sample.keyed false KeysOnParent
              (Sample.params 0 1 0 1 false false) Sample.store)
    as (out & st' & Hres & Hsorted & Hnumeric).
  exists out, st'. split; [exact Hres|].
  assert (usesGivenKey Sample.keyed) as Hgiven.
  { intros args w e Hcell. injection Hcell as <-. reflexivity. }
  pose proof (Hnumeric (or_intror Hgiven)) as Hnum.
  split; [exact Hnum|exact (Hsorted Hnum)].
Defined.

(** C3 as stated fails for the variant of
    [source/Grid/defaultCellRangeRenderer.js]: two rows come back with keys
    2, 1, which is not the ascending order [keysInOrder KeysOnParent]. *)
Lemma defaultCellRangeRenderer_ascending_counterexample :
  ∃ out st',
    defaultCellRangeRenderer Sample.keyed false KeysOnCellCache
      (Sample.params 0 1 0 0 false false) Sample.store = Some (out, st')
    ∧ Element.key <$> out = [Some "2"; Some "1"]
    ∧ ¬ Sorted (keysInOrder KeysOnParent) out.
Proof.
  eexists _, _. split; [vm_compute; reflexivity|].
  split; [reflexivity|].
  intros Hsorted. apply Sorted_inv in Hsorted as [_ Hhd].
  apply HdRel_inv in Hhd. vm_compute in Hhd. by apply Hhd.
Qed.

Lemma defaultCellRangeRenderer_keys_distinct_witness :
  let p := Sample.params 0 1 0 1 true false in
  let coords := rectCoords (rowStartIndex p) (rowStopIndex p)
                  (columnStartIndex p) (columnStopIndex p) in
  let pushed := pushedCells Sample.keyed false p
                  (recycle KeysOnCellCache p Sample.staleStore).1
                  (recycle KeysOnCellCache p Sample.staleStore).2 coords in
  ∃ out st' new,
    defaultCellRangeRenderer Sample.keyed false KeysOnCellCache p Sample.staleStore
    = Some (out, st')
    ∧ calls st' = calls Sample.staleStore ++ new
    ∧ out = sort (compareCells KeysOnCellCache) pushed.*2
    ∧ pushed.*1 `sublist_of` coords
    ∧ NoDup (Element.key <$> out)
    ∧ (∀ e, e ∈ out ↔ ∃ rc, (rc, e) ∈ pushed)
    ∧ (∀ rc1 rc2 e, (rc1, e) ∈ pushed → (rc2, e) ∈ pushed → rc1 = rc2)
    ∧ ∀ rc e, (rc, e) ∈ pushed →
        rowStartIndex p ≤ rc.1 ≤ rowStopIndex p
        ∧ columnStartIndex p ≤ rc.2 ≤ columnStopIndex p
        ∧ ∃ slot,
            (recycle KeysOnCellCache p Sample.staleStore).1 !! getKey rc.1 rc.2
            = Some slot
            ∧ Element.key e = Some (toString slot)
            ∧ if usesCellCache p
              then ∃ e0, cells (cellCache st') !! getKey rc.1 rc.2
                         = Some (RElement e0)
                         ∧ RElement e = rekeyed (toString slot) (RElement e0)
              else ∃ args w, args ∈ new
                             ∧ cr_rowIndex args = rc.1 ∧ cr_columnIndex args = rc.2
                             ∧ cr_key args = toString slot
                             ∧ (Sample.keyed args w).1 = RElement e.
Proof.
  intros p.
  apply (defaultCellRangeRenderer_keys_distinct Sample.keyed false KeysOnCellCache
           p Sample.staleStore).
  - simpl. constructor.
  - left. reflexivity.
Defined.

(** Two rows of one column, first render: the cell of row 0 is pushed under
    slot key 1 and the cell of row 1 under slot key 2. *)
Example defaultCellRangeRenderer_pushed_cells :
  let p := Sample.params 0 1 0 0 false false in
  pushedCells Sample.keyed false p (recycle KeysOnParent p Sample.store).1
    (recycle KeysOnParent p Sample.store).2 (rectCoords 0 1 0 0)
  = [((0, 0), Sample.element (Some "1") (managedStyle p (0, 0)) "0-0");
     ((1, 0), Sample.element (Some "2") (managedStyle p (1, 0)) "1-0")].
Proof. vm_compute. reflexivity. Qed.

(** C4 as stated fails off the cache path: a cell renderer that keys its
    cells itself gets them back with the keys it chose. *)
Lemma defaultCellRangeRenderer_duplicate_keys_counterexample :
  ∃ out st',
    defaultCellRangeRenderer Sample.ownKey false KeysOnParent
      (Sample.params 0 1 0 0 false false) Sample.store = Some (out, st')
    ∧ Element.key <$> out = [Some "x"; Some "x"]
    ∧ ¬ NoDup (Element.key <$> out).
Proof.
  eexists _, _. split; [vm_compute; reflexivity|].
  split; [reflexivity|].
  intros Hnodup. apply NoDup_cons in Hnodup as [Hnotin _].
  apply Hnotin. by left.
Qed.

Lemma defaultCellRangeRenderer_style_cache_unread_witness :
  ∃ out st1 st2,
    defaultCellRangeRenderer Sample.keyed false KeysOnParent
      (Sample.params 0 1 0 0 false true) Sample.store = Some (out, st1)
    ∧ defaultCellRangeRenderer Sample.keyed false KeysOnParent
        (Sample.params 0 1 0 0 false true)
        (withStyleCache Sample.store {[ "0-0" := Sample.staleStyle ]})
      = Some (out, st2)
    ∧ agree false st1 st2
    ∧ keyCacheOf KeysOnParent st1 = keyCacheOf KeysOnParent st2.
Proof.
  apply (defaultCellRangeRenderer_style_cache_unread Sample.keyed false KeysOnParent
           (Sample.params 0 1 0 0 false true) Sample.store).
  left. reflexivity.
Defined.

(** C6 as stated fails in its second half: with adjusted offsets the style
    computed for a cell is still stored in the style cache. *)
Lemma defaultCellRangeRenderer_style_cache_written_counterexample :
  ∃ out st',
    Manager.areOffsetsAdjusted
      (columnSizeAndPositionManager (Sample.params 0 0 0 0 false true)) = true
    ∧ defaultCellRangeRenderer Sample.keyed false KeysOnParent
        (Sample.params 0 0 0 0 false true) Sample.store = Some (out, st')
    ∧ styleCache Sample.store !! "0-0" = None
    ∧ styleCache st' !! "0-0"
      = Some {| Style.height := Style.px 10; Style.left := 0;
                Style.position := "absolute"; Style.top := 0;
                Style.width := Style.px 10 |}.
Proof.
  eexists _, _. split; [reflexivity|].
  split; [vm_compute; reflexivity|].
  split; [reflexivity|]. vm_compute. reflexivity.
Qed.

Lemma defaultCellRangeRenderer_reuses_cache_witness :
  let p := Sample.params 0 1 0 0 true false in
  let coords := rectCoords 0 1 0 0 in
  ∃ out1 st1 out2 st2,
    defaultCellRangeRenderer Sample.keyed false KeysOnCellCache p Sample.store
    = Some (out1, st1)
    ∧ defaultCellRangeRenderer Sample.keyed false KeysOnCellCache p st1
      = Some (out2, st2)
    ∧ (∃ new, callCoords (calls st1) = callCoords (calls Sample.store) ++ new
              ∧ new `sublist_of` coords ∧ NoDup new)
    ∧ calls st2 = calls st1
    ∧ world st2 = world st1
    ∧ cells (cellCache st2) = cells (cellCache st1)
    ∧ (∀ rc, rc ∈ coords →
         truthy (default RUndefined (cells (cellCache st1) !! getKey rc.1 rc.2)) = true)
    ∧ out2 ≡ₚ
        rc ← coords;
        emitted (rekeyed (reuseKeyAt (recycle KeysOnCellCache p st1).1 rc)
                   (default RUndefined (cells (cellCache st1) !! getKey rc.1 rc.2))).
Proof.
  apply (defaultCellRangeRenderer_reuses_cache Sample.keyed false KeysOnCellCache
           (Sample.params 0 1 0 0 true false) Sample.store);
    try reflexivity.
  intros args w. reflexivity.
Defined.

(** C7 as stated fails when the cell renderer renders nothing: the cache
    then holds [null], which reads as absent, and the second call asks the
    cell renderer again. *)
Lemma defaultCellRangeRenderer_null_rerendered_counterexample :
  let p := Sample.params 0 0 0 0 true false in
  ∃ out1 st1 out2 st2,
    defaultCellRangeRenderer Sample.nothing false KeysOnCellCache p Sample.store
    = Some (out1, st1)
    ∧ defaultCellRangeRenderer Sample.nothing false KeysOnCellCache p st1
      = Some (out2, st2)
    ∧ callCoords (calls st1) = [(0, 0)]
    ∧ callCoords (calls st2) = [(0, 0); (0, 0)].
Proof.
  eexists _, _, _, _. split; [vm_compute; reflexivity|].
  split; [vm_compute; reflexivity|]. split; reflexivity.
Qed.

Lemma defaultCellRangeRenderer_rekeys_copy_witness :
  let p := Sample.params 0 0 0 0 true false in
  ∃ out st' slot,
    defaultCellRangeRenderer Sample.keyed false KeysOnParent p Sample.staleStore
    = Some (out, st')
    ∧ (recycle KeysOnParent p Sample.staleStore).1 !! getKey 0 0 = Some slot
    ∧ (∀ e0, cells (cellCache Sample.staleStore) !! getKey 0 0 = Some (RElement e0) →
             cells (cellCache st') !! getKey 0 0 = Some (RElement e0))
    ∧ (∀ e0, cells (cellCache st') !! getKey 0 0 = Some (RElement e0) →
             if decide (Element.key e0 = Some (toString slot)) then e0 ∈ out
             else
               let copy := Element.withKey e0 (toString slot) in
               copy ∈ out
               ∧ Element.key copy = Some (toString slot)
               ∧ Element.cellMeasurer copy = Element.cellMeasurer e0
               ∧ Element.style copy = Element.style e0
               ∧ Element.children copy = Element.children e0
               ∧ Element.content copy = Element.content e0).
Proof.
  apply (defaultCellRangeRenderer_rekeys_copy Sample.keyed false KeysOnParent
           (Sample.params 0 0 0 0 true false) Sample.staleStore 0 0).
  - reflexivity.
  - simpl. lia.
  - simpl. lia.
Defined.

(** The stale cell comes back as a copy under slot key 1. *)
Example defaultCellRangeRenderer_rekeys_stale_cell :
  fst <$> defaultCellRangeRenderer Sample.keyed false KeysOnParent
            (Sample.params 0 0 0 0 true false) Sample.staleStore
  = Some [Element.withKey Sample.staleCell "1"].
Proof. vm_compute. reflexivity. Qed.

Lemma defaultCellRangeRenderer_variants_witness :
  let p := Sample.params 0 1 0 1 true false in
  ∃ outA stA' outB stB',
    defaultCellRangeRenderer Sample.keyed false KeysOnCellCache p Sample.store
    = Some (outA, stA')
    ∧ defaultCellRangeRenderer Sample.keyed false KeysOnParent p Sample.store
      = Some (outB, stB')
    ∧ outA ≡ₚ outB
    ∧ agree true stA' stB'
    ∧ keyCacheOf KeysOnCellCache stA' = keyCacheOf KeysOnParent stB'.
Proof.
  apply (defaultCellRangeRenderer_variants Sample.keyed false
           (Sample.params 0 1 0 1 true false) Sample.store Sample.store).
  - apply agree_refl.
  - reflexivity.
Defined.

(** * Overscan *)

(** X1. For a visible range that lies inside the list and a non-negative
    overscan count, the overscan range contains the visible range, lies inside
    the list, and extends the visible range on each side by the overscan count,
    or by the cells there are on that side if they are fewer; the scroll
    direction plays no part. *)
Theorem defaultOverscanIndicesGetter_covers params :
  0 ≤ overscanCellsCount params →
  0 ≤ startIndex params → stopIndex params ≤ cellCount params - 1 →
  let out := defaultOverscanIndicesGetter params in
  0 ≤ overscanStartIndex out ≤ startIndex params
  ∧ stopIndex params ≤ overscanStopIndex out ≤ cellCount params - 1
  ∧ startIndex params - overscanStartIndex out
    = Z.min (overscanCellsCount params) (startIndex params)
  ∧ overscanStopIndex out - stopIndex params
    = Z.min (overscanCellsCount params) (cellCount params - 1 - stopIndex params).
Proof. unfold defaultOverscanIndicesGetter. simpl. lia. Qed.

Lemma defaultOverscanIndicesGetter_covers_witness :
  let params := {| cellCount := 100; overscanCellsCount := 10;
                   scrollDirection := SCROLL_DIRECTION_FORWARD;
                   startIndex := 4; stopIndex := 20 |} in
  let out := defaultOverscanIndicesGetter params in
  0 ≤ overscanStartIndex out ≤ 4
  ∧ 20 ≤ overscanStopIndex out ≤ 100 - 1
  ∧ 4 - overscanStartIndex out = Z.min 10 4
  ∧ overscanStopIndex out - 20 = Z.min 10 (100 - 1 - 20).
Proof.
  apply (defaultOverscanIndicesGetter_covers
           {| cellCount := 100; overscanCellsCount := 10;
              scrollDirection := SCROLL_DIRECTION_FORWARD;
              startIndex := 4; stopIndex := 20 |}); simpl; lia.
Defined.

(** X2. Whatever the arguments, the overscan range starts at index 0 or
    later and stops at the last cell or earlier; for an empty list (a cell
    count of zero or less) it is empty, its stop index lying before its start
    index.  The result is the same for every scroll direction: cells are
    added on both sides. *)
Theorem defaultOverscanIndicesGetter_in_bounds params :
  let out := defaultOverscanIndicesGetter params in
  0 ≤ overscanStartIndex out
  ∧ overscanStopIndex out ≤ cellCount params - 1
  ∧ (cellCount params ≤ 0 → overscanStopIndex out < overscanStartIndex out)
  ∧ (∀ direction,
       defaultOverscanIndicesGetter
         {| cellCount := cellCount params;
            overscanCellsCount := overscanCellsCount params;
            scrollDirection := direction;
            startIndex := startIndex params; stopIndex := stopIndex params |}
       = out).
Proof. unfold defaultOverscanIndicesGetter. simpl. split_and!; [lia..|done]. Qed.

(** * Keys and iteration *)

Lemma StronglySorted_seqZ m n : StronglySorted Z.lt (seqZ m n).
Proof.
  destruct (decide (0 ≤ n)) as [Hn|Hn]; [|rewrite seqZ_nil by lia; constructor].
  rewrite <-(Z2Nat.id n) by done. generalize (Z.to_nat n). clear n Hn. intros n.
  induction n as [|n IH]; [constructor|].
  rewrite seqZ_S. apply StronglySorted_app_2; [|done|repeat constructor].
  intros x1 x2 Hx1%elem_of_seqZ Hx2%list_elem_of_singleton. lia.
Qed.

Lemma StronglySorted_rectCoords rs re cs ce :
  StronglySorted rowMajor (rectCoords rs re cs ce).
Proof.
  unfold rectCoords, indexRange.
  generalize (StronglySorted_seqZ rs (re - rs + 1)).
  generalize (seqZ rs (re - rs + 1)). intros rows Hrows.
  induction Hrows as [|r rows Hrows IH Hr]; [constructor|].
  rewrite bind_cons. apply StronglySorted_app_2; [| |done].
  - intros [r1 c1] [r2 c2] H1 H2.
    apply list_elem_of_bind in H1 as (c & ->%list_elem_of_singleton & _).
    apply list_elem_of_bind in H2 as (r' & H2 & Hr').
    apply list_elem_of_bind in H2 as (c' & ->%list_elem_of_singleton & _).
    left. simpl. by eapply Forall_forall in Hr.
  - generalize (StronglySorted_seqZ cs (ce - cs + 1)).
    generalize (seqZ cs (ce - cs + 1)). intros cols Hcols.
    induction Hcols as [|c cols Hcols IHc Hc]; [constructor|].
    rewrite bind_cons. simpl. constructor; [done|].
    apply Forall_forall. intros [r' c'] H'.
    apply list_elem_of_bind in H' as (c'' & ->%list_elem_of_singleton & Hc'').
    right. simpl. split; [done|]. by eapply Forall_forall in Hc.
Qed.

(** X3. [foreachKey] calls its callback once for each coordinate of the
    rectangle and for nothing else, rows in increasing order and, within a row,
    columns in increasing order: rows times columns calls, none if the
    rectangle is empty. *)
Theorem foreachKey_row_major rs re cs ce :
  ∃ coords : list (Z * Z),
    StronglySorted rowMajor coords
    ∧ (∀ r c, (r, c) ∈ coords ↔ rs ≤ r ≤ re ∧ cs ≤ c ≤ ce)
    ∧ length coords = (Z.to_nat (re - rs + 1) * Z.to_nat (ce - cs + 1))%nat
    ∧ ∀ (S : Type) (callback : string → S → S) (s : S),
        foreachKey rs re cs ce callback s
        = foldl (λ s rc, callback (getKey rc.1 rc.2) s) s coords.
Proof.
  exists (rectCoords rs re cs ce). split_and!.
  - apply StronglySorted_rectCoords.
  - apply elem_of_rectCoords.
  - apply length_rectCoords.
  - intros S callback s. rewrite foreachKey_foldl. unfold rectKeys.
    by rewrite foldl_fmap.
Qed.

(** X4. Two coordinates have the same cache key only if they are the same
    coordinate, negative indices included. *)
Theorem getKey_injective r1 c1 r2 c2 :
  getKey r1 c1 = getKey r2 c2 ↔ r1 = r2 ∧ c1 = c2.
Proof. split; [apply getKey_inj|by intros [-> ->]]. Qed.
(** * More on the key recycler *)

Lemma NoDup_rectKeys rs re cs ce : NoDup (rectKeys rs re cs ce).
Proof.
  unfold rectKeys. apply NoDup_fmap_2_strong; [|apply NoDup_rectCoords].
  intros [r1 c1] [r2 c2] _ _ Heq. simpl in Heq.
  by apply getKey_inj in Heq as [-> ->].
Qed.

Lemma length_rectKeys rs re cs ce :
  length (rectKeys rs re cs ce)
  = (Z.to_nat (re - rs + 1) * Z.to_nat (ce - cs + 1))%nat.
Proof. unfold rectKeys. by rewrite length_fmap, length_rectCoords. Qed.

(** The position of a coordinate in the order of the loops. *)
Lemma rectCoords_lookup rs re cs ce r c :
  rs ≤ r ≤ re → cs ≤ c ≤ ce →
  rectCoords rs re cs ce !! Z.to_nat ((r - rs) * (ce - cs + 1) + (c - cs)) = Some (r, c).
Proof.
  intros Hr Hc. unfold rectCoords, indexRange.
  set (W := ce - cs + 1).
  assert (∀ r' : Z, (seqZ cs W ≫= λ c', [(r', c')]) = (λ c', (r', c')) <$> seqZ cs W)
    as Hrow.
  { intros r'. induction (seqZ cs W) as [|x l IH]; [done|].
    by rewrite bind_cons, fmap_cons, IH. }
  assert (0 ≤ r - rs) as Hd by lia. assert (r - rs < re - rs + 1) as Hlt by lia.
  revert Hd Hlt. generalize (re - rs + 1). intros H.
  rewrite <-(Z2Nat.id (r - rs)) by lia.
  assert (r = rs + Z.of_nat (Z.to_nat (r - rs))) as Hreq by lia.
  revert Hreq. generalize (Z.to_nat (r - rs)). intros d. revert rs H Hr.
  induction d as [|d IH]; intros rs H Hr Hreq _ Hlt.
  - rewrite (seqZ_cons rs), bind_cons by lia. rewrite Hrow.
    rewrite lookup_app_l by (rewrite length_fmap, length_seqZ; lia).
    rewrite list_lookup_fmap, lookup_seqZ_lt by lia. simpl. f_equal. f_equal; lia.
  - rewrite (seqZ_cons rs), bind_cons by lia. rewrite Hrow.
    rewrite lookup_app_r by (rewrite length_fmap, length_seqZ; nia).
    rewrite length_fmap, length_seqZ.
    replace (Z.to_nat (Z.of_nat (S d) * W + (c - cs)) - Z.to_nat W)%nat
      with (Z.to_nat (Z.of_nat d * W + (c - cs))) by nia.
    apply IH; lia.
Qed.

(** On a fresh recycler the keys are handed out in the order of the loops. *)
Lemma keyMap_fresh_nth rs re cs ce (i : nat) key :
  rectKeys rs re cs ce !! i = Some key →
  (getReusableKeyMap newReusableKeyCache rs re cs ce).1 !! key = Some (S i).
Proof.
  revert key. induction i as [i IH] using lt_wf_ind. intros key Hi.
  pose proof (NoDup_rectKeys rs re cs ce) as Hnd.
  pose proof (take_drop_middle _ _ _ Hi) as Hsplit. symmetry in Hsplit.
  assert (key ∉ take i (rectKeys rs re cs ce)) as Hbefore.
  { rewrite Hsplit in Hnd at 1. apply NoDup_app in Hnd as (_ & Hnd & _).
    intros Hin. apply (Hnd key Hin). left. }
  destruct (keyMap_new_key newReusableKeyCache rs re cs ce _ key _ Hsplit Hbefore)
    as (newKey & HnewKey & Hpos & Hfree & Hfull & _); [done|].
  rewrite HnewKey. f_equal.
  assert (∀ slot,
            (∃ key', (getReusableKeyMap newReusableKeyCache rs re cs ce).1 !! key'
                     = Some slot
                     ∧ (is_Some (lastMap newReusableKeyCache !! key')
                        ∨ key' ∈ take i (rectKeys rs re cs ce)))
            ↔ (1 ≤ slot ≤ i)%nat) as HinUse.
  { intros slot. split.
    - intros (key' & Hslot & [[? Hlast]|Hin]); [done|].
      apply list_elem_of_lookup in Hin as [j Hj].
      apply lookup_take_Some in Hj as [Hj Hlt].
      rewrite (IH j Hlt key' Hj) in Hslot. simplify_eq. lia.
    - intros Hslot. destruct slot as [|j]; [lia|].
      assert (j < length (rectKeys rs re cs ce))%nat as Hlen.
      { apply lookup_lt_Some in Hi. lia. }
      apply lookup_lt_is_Some in Hlen as [key' Hj].
      exists key'. split; [apply IH; [lia|done]|]. right.
      apply list_elem_of_lookup. exists j. rewrite lookup_take_lt by lia. done. }
  destruct (decide (newKey ≤ i)%nat) as [Hle|Hgt].
  { exfalso. apply Hfree, HinUse. lia. }
  destruct (decide (newKey = S i)) as [|Hne]; [done|].
  exfalso. assert (1 ≤ S i ≤ i)%nat; [|lia]. apply HinUse, Hfull. lia.
Qed.

Lemma keyMap_fresh_at rs re cs ce r c :
  rs ≤ r ≤ re → cs ≤ c ≤ ce →
  (getReusableKeyMap newReusableKeyCache rs re cs ce).1 !! getKey r c
  = Some (Z.to_nat ((r - rs) * (ce - cs + 1) + (c - cs) + 1)).
Proof.
  intros Hr Hc.
  rewrite (keyMap_fresh_nth rs re cs ce
             (Z.to_nat ((r - rs) * (ce - cs + 1) + (c - cs))) (getKey r c)).
  - f_equal. nia.
  - unfold rectKeys. rewrite list_lookup_fmap, rectCoords_lookup by done. done.
Qed.

(** X5. On a fresh recycler the slot keys are handed out in the order of the
    loops: the coordinate in row [r], column [c] of the rectangle receives the
    key (r - rowStart) * width + (c - columnStart) + 1, so a coordinate that
    comes earlier in row-major order has the smaller key. *)
Theorem getReusableKeyMap_fresh_row_major rs re cs ce :
  let m := (getReusableKeyMap newReusableKeyCache rs re cs ce).1 in
  let width := ce - cs + 1 in
  (∀ r c, rs ≤ r ≤ re → cs ≤ c ≤ ce →
          m !! getKey r c = Some (Z.to_nat ((r - rs) * width + (c - cs) + 1)))
  ∧ (∀ r1 c1 r2 c2 slot1 slot2,
       m !! getKey r1 c1 = Some slot1 → m !! getKey r2 c2 = Some slot2 →
       rowMajor (r1, c1) (r2, c2) → (slot1 < slot2)%nat).
Proof.
  intros m width. split; [apply keyMap_fresh_at|].
  intros r1 c1 r2 c2 slot1 slot2 H1 H2 Horder.
  assert (∀ r c slot, m !! getKey r c = Some slot → rs ≤ r ≤ re ∧ cs ≤ c ≤ ce) as Hin.
  { intros r c slot Hslot.
    assert (getKey r c ∈ rectKeys rs re cs ce) as (r' & c' & Heq & ? & ?)%elem_of_rectKeys
      by (apply (keyMap_is_Some newReusableKeyCache); by exists slot).
    by apply getKey_inj in Heq as [-> ->]. }
  destruct (Hin _ _ _ H1) as [Hr1 Hc1]. destruct (Hin _ _ _ H2) as [Hr2 Hc2].
  unfold m in H1, H2. rewrite keyMap_fresh_at in H1, H2 by done. simplify_eq.
  unfold rowMajor in Horder. simpl in Horder. nia.
Qed.

Lemma getReusableKeyMap_fresh_row_major_witness :
  (getReusableKeyMap newReusableKeyCache 3 5 2 4).1 !! getKey 4 3
  = Some (Z.to_nat ((4 - 3) * (4 - 2 + 1) + (3 - 2) + 1)).
Proof. apply (proj1 (getReusableKeyMap_fresh_row_major 3 5 2 4) 4 3); lia. Defined.

(** X6. A second call on the same rectangle returns the assignment of the
    first call and leaves the recycler as the first call left it. *)
Theorem getReusableKeyMap_idempotent this rs re cs ce :
  getReusableKeyMap (getReusableKeyMap this rs re cs ce).2 rs re cs ce
  = getReusableKeyMap this rs re cs ce.
Proof.
  assert ((getReusableKeyMap (getReusableKeyMap this rs re cs ce).2 rs re cs ce).1
          = (getReusableKeyMap this rs re cs ce).1) as Heq.
  { apply map_eq. intros key.
    destruct ((getReusableKeyMap this rs re cs ce).1 !! key) as [slot|] eqn:Hkey.
    - apply keyMap_carried; [|by rewrite getReusableKeyMap_stored].
      apply (keyMap_is_Some this). by exists slot.
    - apply eq_None_not_Some. rewrite keyMap_is_Some.
      rewrite <-(keyMap_is_Some this), Hkey. by intros [? ?]. }
  assert (∀ this', getReusableKeyMap this' rs re cs ce
                   = ((getReusableKeyMap this' rs re cs ce).1,
                      {| lastMap := (getReusableKeyMap this' rs re cs ce).1 |}))
    as Hshape by done.
  rewrite (Hshape (getReusableKeyMap this rs re cs ce).2), Heq. by rewrite <-Hshape.
Qed.

Lemma foldl_ext_in {A B} (f g : A → B → A) (l : list B) (a : A) :
  (∀ a x, x ∈ l → f a x = g a x) → foldl f a l = foldl g a l.
Proof.
  revert a. induction l as [|x l IH]; intros a Hfg; [done|]. simpl.
  rewrite Hfg by left. apply IH. intros a' x' Hx'. apply Hfg. by right.
Qed.

(** X8. A call reads the stored assignment at the keys of its rectangle
    only: two recyclers whose assignments agree on the coordinates of the
    rectangle return the same assignment and are left in the same state. *)
Theorem getReusableKeyMap_local this1 this2 rs re cs ce :
  (∀ r c, rs ≤ r ≤ re → cs ≤ c ≤ ce →
          lastMap this1 !! getKey r c = lastMap this2 !! getKey r c) →
  getReusableKeyMap this1 rs re cs ce = getReusableKeyMap this2 rs re cs ce.
Proof.
  intros Hsame. rewrite !getReusableKeyMap_unfold. cbv zeta.
  rewrite (foldl_ext_in (λ st key, carryForward (lastMap this1) key st)
             (λ st key, carryForward (lastMap this2) key st)); [done|].
  intros st key (r & c & -> & Hr & Hc)%elem_of_rectKeys.
  unfold carryForward. by rewrite Hsame.
Qed.

Lemma getReusableKeyMap_local_witness :
  let this1 := (getReusableKeyMap newReusableKeyCache 0 4 0 0).2 in
  let this2 := (getReusableKeyMap this1 2 6 0 0).2 in
  getReusableKeyMap this1 3 4 0 0 = getReusableKeyMap this2 3 4 0 0.
Proof.
  apply (getReusableKeyMap_local
           (getReusableKeyMap newReusableKeyCache 0 4 0 0).2
           (getReusableKeyMap (getReusableKeyMap newReusableKeyCache 0 4 0 0).2
              2 6 0 0).2
           3 4 0 0).
  intros r c Hr Hc.
  assert (c = 0) as -> by lia.
  assert (r = 3 ∨ r = 4) as [-> | ->] by lia; reflexivity.
Defined.
(** ** A window of constant size *)

Lemma map_img_size_inj (m : gmap string nat) :
  assignmentInj m → size (map_img m : gset nat) = size m.
Proof.
  induction m as [|key slot m Hkey _ IH] using map_first_key_ind; intros Hinj.
  - by rewrite map_img_empty_L, size_empty, map_size_empty.
  - rewrite map_img_insert_notin_L, map_size_insert_None by done.
    rewrite size_union, size_singleton.
    + f_equal. apply IH. intros key1 key2 slot' H1 H2.
      apply (Hinj key1 key2 slot'); rewrite lookup_insert_ne; try done.
      all: intros <-; congruence.
    + intros slot' Heq%elem_of_singleton (key' & Hkey')%elem_of_map_img.
      subst slot'. assert (key = key') as <-; [|congruence].
      apply (Hinj key key' slot); [apply lookup_insert_eq|].
      rewrite lookup_insert_ne; [done|]. intros <-. congruence.
Qed.

Lemma keyMap_size_eq this rs re cs ce :
  size (getReusableKeyMap this rs re cs ce).1
  = (Z.to_nat (re - rs + 1) * Z.to_nat (ce - cs + 1))%nat.
Proof.
  rewrite <-size_dom, keyMap_dom, size_list_to_set by apply NoDup_rectKeys.
  apply length_rectKeys.
Qed.

(** A slot key is new, and then at most the number of coordinates, or
    carried forward. *)
Lemma keyMap_slot_origin this rs re cs ce key slot :
  (getReusableKeyMap this rs re cs ce).1 !! key = Some slot →
  (slot ≤ Z.to_nat (re - rs + 1) * Z.to_nat (ce - cs + 1))%nat
  ∨ lastMap this !! key = Some slot.
Proof.
  intros Hslot.
  assert (key ∈ rectKeys rs re cs ce) as Hin
    by (apply (keyMap_is_Some this rs re cs ce); by exists slot).
  destruct (lastMap this !! key) as [lastKey|] eqn:Hlast.
  - right. pose proof (keyMap_carried this rs re cs ce key lastKey Hin Hlast).
    congruence.
  - left. apply list_elem_of_split_l in Hin as (before & after & Hkeys & Hbefore).
    destruct (keyMap_new_key this rs re cs ce before key after Hkeys Hbefore Hlast)
      as (newKey & HnewKey & _ & _ & _ & Hle).
    by simplify_eq.
Qed.

Lemma keyMap_rotates this rs re cs ce :
  let N := (Z.to_nat (re - rs + 1) * Z.to_nat (ce - cs + 1))%nat in
  assignmentInj (lastMap this) →
  map_Forall (λ _ slot, (1 ≤ slot ≤ N)%nat) (lastMap this) →
  ∀ slot, (1 ≤ slot ≤ N)%nat
          ↔ ∃ key, (getReusableKeyMap this rs re cs ce).1 !! key = Some slot.
Proof.
  intros N Hinj Hlast.
  set (m := (getReusableKeyMap this rs re cs ce).1).
  assert (map_img m ⊆ (list_to_set (seq 1 N) : gset nat)) as Hsub.
  { intros slot (key & Hkey)%elem_of_map_img.
    apply elem_of_list_to_set, elem_of_seq.
    pose proof (keyMap_positive this rs re cs ce) as Hpos.
    specialize (Hpos (map_Forall_impl _ _ _ Hlast (λ _ _ H, proj1 H)) key slot Hkey).
    simpl in Hpos.
    destruct (keyMap_slot_origin this rs re cs ce key slot Hkey) as [?|Hcarried].
    - fold N in H. lia.
    - apply Hlast in Hcarried. simpl in Hcarried. lia. }
  assert (map_img m = (list_to_set (seq 1 N) : gset nat)) as Himg.
  { apply set_subseteq_size_eq; [done|].
    rewrite size_list_to_set, length_seq by apply NoDup_seq.
    rewrite map_img_size_inj by by apply keyMap_inj.
    unfold m. by rewrite keyMap_size_eq. }
  intros slot. rewrite <-(elem_of_map_img (SA:=gset nat) m), Himg.
  rewrite elem_of_list_to_set, elem_of_seq. lia.
Qed.

Lemma callsOn_snoc this rects rect :
  callsOn this (rects ++ [rect])
  = (getReusableKeyMap (callsOn this rects) (rectRowStart rect) (rectRowStop rect)
       (rectColumnStart rect) (rectColumnStop rect)).2.
Proof. unfold callsOn. by rewrite foldl_snoc. Qed.

Lemma callsOn_bounded N rects :
  Forall (λ rect, cellsIn rect = N) rects →
  let this := callsOn newReusableKeyCache rects in
  assignmentInj (lastMap this) ∧ map_Forall (λ _ slot, (1 ≤ slot ≤ N)%nat) (lastMap this).
Proof.
  induction rects as [|rect rects IH] using rev_ind; intros Hrects.
  - split; [by intros key1 key2 slot ?|apply map_Forall_empty].
  - apply Forall_app in Hrects as [Hrects [Hrect _]%Forall_cons].
    destruct (IH Hrects) as [Hinj Hbound]. cbv zeta.
    rewrite callsOn_snoc, getReusableKeyMap_stored. split; [by apply keyMap_inj|].
    intros key slot Hslot. simpl. split.
    + apply (keyMap_positive (callsOn newReusableKeyCache rects)) in Hslot; [done|].
      apply (map_Forall_impl _ _ _ Hbound). simpl. lia.
    + apply keyMap_slot_origin in Hslot as [Hle|Hcarried].
      * unfold cellsIn in Hrect. lia.
      * apply Hbound in Hcarried. simpl in Hcarried. lia.
Qed.

(** X7. Started from a fresh recycler, after one or more calls on
    rectangles of N coordinates each, the slot keys in use are exactly
    1, ..., N: the keys of the coordinates that left the rectangle are the ones
    given to the coordinates that entered it. *)
Theorem getReusableKeyMap_rotates N rects rect :
  Forall (λ rect, cellsIn rect = N) (rects ++ [rect]) →
  ∀ slot, (1 ≤ slot ≤ N)%nat
          ↔ ∃ key, lastMap (callsOn newReusableKeyCache (rects ++ [rect])) !! key
                   = Some slot.
Proof.
  intros [Hrects [Hrect _]%Forall_cons]%Forall_app.
  destruct (callsOn_bounded N rects Hrects) as [Hinj Hbound].
  rewrite callsOn_snoc, getReusableKeyMap_stored.
  unfold cellsIn in Hrect. subst N. by apply keyMap_rotates.
Qed.

Lemma getReusableKeyMap_rotates_witness :
  let rows a b := {| rectRowStart := a; rectRowStop := b;
                     rectColumnStart := 0; rectColumnStop := 0 |} in
  (1 ≤ 3 ≤ 3)%nat
  ↔ ∃ key, lastMap (callsOn newReusableKeyCache
                      ([rows 0 2; rows 1 3] ++ [rows 7 9])) !! key
           = Some 3%nat.
Proof.
  intros rows.
  apply (getReusableKeyMap_rotates 3 [rows 0 2; rows 1 3] (rows 7 9)).
  repeat constructor.
Defined.
(** * More on sorting *)

(** A list in which every element compares at or before the ones behind it
    is left as it is; one in which every element compares strictly after the
    ones behind it is reversed. *)
Lemma sort_in_order {A} (cmp : A → A → Z) (l : list A) :
  StronglySorted (λ x y, cmp x y ≤ 0) l → sort cmp l = l.
Proof.
  induction 1 as [|x l Hl IH Hx]; [done|].
  unfold sort in *. cbn [foldr]. rewrite IH.
  destruct l as [|y l]; [done|]. cbn [insertCell].
  apply Forall_cons in Hx as [Hxy _]. by rewrite (proj2 (Z.leb_le _ _) Hxy).
Qed.

Lemma insertCell_last {A} (cmp : A → A → Z) (x : A) (l : list A) :
  Forall (λ y, 0 < cmp x y) l → insertCell cmp x l = l ++ [x].
Proof.
  induction 1 as [|y l Hy _ IH]; [done|]. cbn [insertCell].
  rewrite (proj2 (Z.leb_gt _ _) Hy). by rewrite IH.
Qed.

Lemma sort_reversed {A} (cmp : A → A → Z) (l : list A) :
  StronglySorted (λ x y, 0 < cmp x y) l → sort cmp l = reverse l.
Proof.
  induction 1 as [|x l Hl IH Hx]; [done|].
  unfold sort in *. cbn [foldr]. rewrite IH, reverse_cons.
  apply insertCell_last. apply Forall_forall. intros y Hy. rewrite elem_of_reverse in Hy.
  exact (proj1 (Forall_forall _ _) Hx y Hy).
Qed.

Lemma sublist_same_length {A} (l1 l2 : list A) :
  l1 `sublist_of` l2 → (length l2 ≤ length l1)%nat → l1 = l2.
Proof.
  induction 1 as [|x l1 l2 _ IH|x l1 l2 Hsub _]; simpl; intros Hlen.
  - done.
  - f_equal. apply IH. lia.
  - apply sublist_length in Hsub. lia.
Qed.

(** Cells whose keys are the strings of increasing slot keys are in the order
    of the one comparator and in the reverse order of the other. *)
Lemma increasing_keys_order (L : list Element.t) (slots : list nat) :
  Element.key <$> L = (λ slot, Some (toString slot)) <$> slots →
  StronglySorted lt slots →
  StronglySorted (λ a b, compareCells KeysOnParent a b ≤ 0) L
  ∧ StronglySorted (λ a b, 0 < compareCells KeysOnCellCache a b) L.
Proof.
  revert slots. induction L as [|e L IH]; intros slots Hkeys Hsorted.
  { split; constructor. }
  destruct slots as [|slot slots]; [done|].
  rewrite !fmap_cons in Hkeys. injection Hkeys as He Hkeys.
  apply StronglySorted_inv in Hsorted as [Hsorted Hslot].
  destruct (IH slots Hkeys Hsorted) as [IH1 IH2].
  assert (∀ b, b ∈ L → ∃ slot', (slot < slot')%nat
                               ∧ keyNumber b = Some (Z.of_nat slot')) as Hbehind.
  { intros b Hb. apply (list_elem_of_fmap_2 Element.key) in Hb.
    rewrite Hkeys in Hb. apply list_elem_of_fmap in Hb as (slot' & Hkey & Hin).
    exists slot'. split; [exact (proj1 (Forall_forall _ _) Hslot slot' Hin)|].
    unfold keyNumber. rewrite Hkey. apply parseInt_toString. }
  assert (keyNumber e = Some (Z.of_nat slot)) as Hke.
  { unfold keyNumber. rewrite He. apply parseInt_toString. }
  split; (constructor; [done|]); apply Forall_forall; intros b Hb;
    destruct (Hbehind b Hb) as (slot' & Hlt & Hkb);
    unfold compareCells; rewrite Hke, Hkb; simpl; lia.
Qed.
(** * More on the range renderer *)

Lemma rectCoords_empty rs re cs ce : re < rs ∨ ce < cs → rectCoords rs re cs ce = [].
Proof.
  intros Hempty. unfold rectCoords, indexRange. destruct Hempty as [?|?].
  - by rewrite (seqZ_nil rs) by lia.
  - rewrite (seqZ_nil cs) by lia. by induction (seqZ rs _) as [|r rows IH].
Qed.

Lemma anyMissingStyle_Permutation (es1 es2 : list Element.t) :
  es1 ≡ₚ es2 → anyMissingStyle es1 = anyMissingStyle es2.
Proof.
  intros Hperm. unfold anyMissingStyle.
  induction Hperm as [|e es1 es2 _ IH|e1 e2 es|es1 es2 es3 _ IH1 _ IH2]; simpl.
  - done.
  - by rewrite IH.
  - by destruct (missingStyle e1), (missingStyle e2).
  - congruence.
Qed.

Section RendererMore.
Context {World : Type}.
Context (cellRenderer : CellRendererParams → World → Rendered * World).
Context (production : bool).
Implicit Types (st : @Store World) (acc : @Store World * list Element.t).

(** ** Warnings *)

Lemma warnAboutMissingStyle_step st e :
  warnedAboutMissingStyle (parent (warnAboutMissingStyle production st e))
  = warnedAboutMissingStyle (parent st) || (negb production && missingStyle e)
  ∧ warnings (warnAboutMissingStyle production st e)
    = (warnings st
       + if negb production && negb (warnedAboutMissingStyle (parent st))
            && missingStyle e
         then 1 else 0)%nat.
Proof.
  unfold warnAboutMissingStyle, missingStyle.
  destruct production; simpl; [by rewrite orb_false_r, Nat.add_0_r|].
  destruct (if Element.cellMeasurer e then _ else _) as [inner|];
    [|by rewrite orb_false_r, andb_false_r, Nat.add_0_r].
  destruct (Element.style inner), (warnedAboutMissingStyle (parent st)) eqn:Hw;
    simpl; rewrite ?Hw; split; try done; lia.
Qed.

Lemma warnAboutMissingStyle_fold st es :
  let st' := foldl (warnAboutMissingStyle production) st es in
  warnedAboutMissingStyle (parent st')
  = warnedAboutMissingStyle (parent st) || (negb production && anyMissingStyle es)
  ∧ warnings st'
    = (warnings st
       + if negb production && negb (warnedAboutMissingStyle (parent st))
            && anyMissingStyle es
         then 1 else 0)%nat.
Proof.
  revert st. induction es as [|e es IH]; intros st; cbn [foldl].
  - unfold anyMissingStyle. simpl. by rewrite !andb_false_r, orb_false_r, Nat.add_0_r.
  - destruct (IH (warnAboutMissingStyle production st e)) as [-> ->].
    destruct (warnAboutMissingStyle_step st e) as [-> ->].
    unfold anyMissingStyle. simpl.
    destruct production, (warnedAboutMissingStyle (parent st)), (missingStyle e),
      (existsb missingStyle es); simpl; split; try done; lia.
Qed.

(** The cell renderer and the cell cache leave the parent's flag and the log
    of warnings alone. *)
Lemma renderCoord_warns p km st L rc :
  let st' := (renderCoord cellRenderer production p km (st, L) rc).1 in
  ∃ es, (renderCoord cellRenderer production p km (st, L) rc).2 = L ++ es
        ∧ warnedAboutMissingStyle (parent st')
          = warnedAboutMissingStyle (parent st) || (negb production && anyMissingStyle es)
        ∧ warnings st'
          = (warnings st
             + if negb production && negb (warnedAboutMissingStyle (parent st))
                  && anyMissingStyle es
               then 1 else 0)%nat.
Proof.
  rewrite renderCoord_unfold. cbv zeta. cbn [fst snd].
  set (sp := positionStyleAt p rc (styleCache st)).
  set (args := cellRendererParamsAt _ _ _ _ _).
  set (res := if usesCellCache p then _ else _).
  exists (emitted res.1). split; [done|].
  assert (warnedAboutMissingStyle (parent res.2) = warnedAboutMissingStyle (parent st)
          ∧ warnings res.2 = warnings st) as [Hwarned Hwarnings].
  { subst res. destruct (usesCellCache p).
    - rewrite cachedCell_unfold. destruct (truthy _); [done|].
      unfold callCellRenderer. by destruct (cellRenderer _ _).
    - unfold callCellRenderer. by destruct (cellRenderer _ _). }
  destruct (warnAboutMissingStyle_fold res.2 (emitted res.1)) as [-> ->].
  by rewrite Hwarned, Hwarnings.
Qed.

Lemma renderCoords_warns p km acc (l : list (Z * Z)) :
  let res := foldl (renderCoord cellRenderer production p km) acc l in
  ∃ es, res.2 = acc.2 ++ es
        ∧ warnedAboutMissingStyle (parent res.1)
          = warnedAboutMissingStyle (parent acc.1)
            || (negb production && anyMissingStyle es)
        ∧ warnings res.1
          = (warnings acc.1
             + if negb production && negb (warnedAboutMissingStyle (parent acc.1))
                  && anyMissingStyle es
               then 1 else 0)%nat.
Proof.
  revert acc. induction l as [|rc l IH]; intros [st L]; cbn [foldl fst snd].
  - exists []. unfold anyMissingStyle. simpl.
    by rewrite app_nil_r, !andb_false_r, orb_false_r, Nat.add_0_r.
  - destruct (renderCoord_warns p km st L rc) as (es1 & HL1 & Hw1 & Hn1).
    destruct (IH (renderCoord cellRenderer production p km (st, L) rc))
      as (es2 & HL2 & Hw2 & Hn2).
    cbv zeta in *. exists (es1 ++ es2).
    rewrite HL2, Hw2, Hn2, HL1, Hw1, Hn1, app_assoc.
    unfold anyMissingStyle. rewrite existsb_app.
    destruct production, (warnedAboutMissingStyle (parent st)),
      (existsb missingStyle es1), (existsb missingStyle es2); simpl;
      split_and!; try done; lia.
Qed.

(** X15. Over any sequence of calls of [warnAboutMissingStyle] with the same
    parent, one warning is logged, and the parent's flag set, if the build is
    not a production build, the flag was not set before, and some cell of the
    sequence (its child, if the cell is a [CellMeasurer]) has no style;
    otherwise nothing is logged and the flag stays as it was.  The caches and
    the recycler are never changed. *)
Theorem warnAboutMissingStyle_once st es :
  let st' := foldl (warnAboutMissingStyle production) st es in
  warnings st'
  = (warnings st
     + if negb production && negb (warnedAboutMissingStyle (parent st))
          && anyMissingStyle es
       then 1 else 0)%nat
  ∧ warnedAboutMissingStyle (parent st')
    = warnedAboutMissingStyle (parent st) || (negb production && anyMissingStyle es)
  ∧ cellCache st' = cellCache st ∧ styleCache st' = styleCache st
  ∧ parentKeyCache (parent st') = parentKeyCache (parent st).
Proof.
  intros st'. destruct (warnAboutMissingStyle_fold st es) as [Hw Hn].
  destruct (warnAboutMissingStyle_frame production st es) as (? & ? & _ & _ & ?).
  by split_and!.
Qed.

(** X16. A render logs one warning about a missing style if the build is not
    a production build, the parent's flag was not set before the render, and
    one of the cells returned has no style; otherwise it logs none.  The flag
    is set afterwards exactly if it was set before or a warning was logged. *)
Theorem defaultCellRangeRenderer_warns_once v p st :
  ∃ out st',
    defaultCellRangeRenderer cellRenderer production v p st = Some (out, st')
    ∧ warnings st'
      = (warnings st
         + if negb production && negb (warnedAboutMissingStyle (parent st))
              && anyMissingStyle out
           then 1 else 0)%nat
    ∧ warnedAboutMissingStyle (parent st')
      = warnedAboutMissingStyle (parent st) || (negb production && anyMissingStyle out).
Proof.
  eexists _, _. split; [apply defaultCellRangeRenderer_loop|].
  unfold renderLoop.
  destruct (renderCoords_warns p (recycle v p st).1 ((recycle v p st).2, [])
              (rectCoords (rowStartIndex p) (rowStopIndex p)
                 (columnStartIndex p) (columnStopIndex p)))
    as (es & HL & Hw & Hn).
  cbv zeta in *. cbn [fst snd] in *.
  rewrite <-(agree_warned _ _ _ (recycle_agree v p st)) in Hw, Hn.
  rewrite <-(agree_warnings _ _ _ (recycle_agree v p st)) in Hn.
  change ([] ++ es) with es in HL.
  rewrite (anyMissingStyle_Permutation _ _ (sort_Permutation _ _)).
  by rewrite Hn, Hw, HL.
Qed.

(** ** Styles *)

Lemma positionStyleAt_cases p rc (sc : gmap string Style.t) :
  positionStyleAt p rc sc
  = match (if canCacheStyle p then sc !! getKey rc.1 rc.2 else None) with
    | Some style => (style, sc)
    | None =>
        if measured p rc
        then (managedStyle p rc, <[getKey rc.1 rc.2 := managedStyle p rc]> sc)
        else (unmeasuredStyle, sc)
    end.
Proof.
  unfold positionStyleAt, positionStyle, measured, managedStyle, unmeasuredStyle.
  destruct (if canCacheStyle p then _ else _); [done|].
  destruct (deferredMeasurementCache p) as [has|]; [|done].
  by destruct (has rc.1 rc.2).
Qed.

(** The style of a cell depends on the style cache at the key of the cell
    only, and determining it changes the style cache at that key only. *)
Lemma positionStyleAt_frame p rc (sc1 sc2 : gmap string Style.t) :
  sc1 !! getKey rc.1 rc.2 = sc2 !! getKey rc.1 rc.2 →
  (positionStyleAt p rc sc1).1 = (positionStyleAt p rc sc2).1
  ∧ (positionStyleAt p rc sc1).2 !! getKey rc.1 rc.2
    = (positionStyleAt p rc sc2).2 !! getKey rc.1 rc.2.
Proof.
  intros Hsame. rewrite !positionStyleAt_cases, Hsame.
  destruct (if canCacheStyle p then _ else _); [done|].
  destruct (measured p rc); [|done]. simpl. by rewrite !lookup_insert_eq.
Qed.

Lemma positionStyleAt_other p rc (sc : gmap string Style.t) key :
  key ≠ getKey rc.1 rc.2 → (positionStyleAt p rc sc).2 !! key = sc !! key.
Proof.
  intros Hne. rewrite positionStyleAt_cases.
  destruct (if canCacheStyle p then _ else _); [done|].
  destruct (measured p rc); [|done]. simpl. by rewrite lookup_insert_ne.
Qed.

(** The loop touches the two caches at the keys of its coordinates only. *)
Lemma renderCoords_other_keys p km acc (l : list (Z * Z)) key :
  (∀ rc, rc ∈ l → key ≠ getKey rc.1 rc.2) →
  let res := foldl (renderCoord cellRenderer production p km) acc l in
  cells (cellCache res.1) !! key = cells (cellCache acc.1) !! key
  ∧ styleCache res.1 !! key = styleCache acc.1 !! key.
Proof.
  revert acc. induction l as [|rc l IH]; intros [st L] Hother; [done|].
  cbn [foldl]. cbv zeta.
  destruct (IH (renderCoord cellRenderer production p km (st, L) rc)) as [-> ->].
  { intros rc' Hin. apply Hother. by right. }
  assert (key ≠ getKey rc.1 rc.2) as Hne by (apply Hother; left).
  destruct (renderCoord_fields cellRenderer production p km st L rc)
    as (-> & _ & _ & Hcases).
  cbn [fst]. split; [|by apply positionStyleAt_other].
  destruct (usesCellCache p && truthy _); destruct Hcases as (-> & _); [done|].
  destruct (usesCellCache p); [by rewrite lookup_insert_ne|done].
Qed.

Lemma coord_key_ne (rc rc' : Z * Z) : rc ≠ rc' → getKey rc.1 rc.2 ≠ getKey rc'.1 rc'.2.
Proof.
  intros Hne [? ?]%getKey_inj. apply Hne. destruct rc, rc'. by simplify_eq/=.
Qed.

Lemma renderCoords_other_coord p km acc (l : list (Z * Z)) rc :
  rc ∉ l →
  let res := foldl (renderCoord cellRenderer production p km) acc l in
  cachedAt res.1 rc = cachedAt acc.1 rc
  ∧ styleCache res.1 !! getKey rc.1 rc.2 = styleCache acc.1 !! getKey rc.1 rc.2.
Proof.
  intros Hnotin res.
  destruct (renderCoords_other_keys p km acc l (getKey rc.1 rc.2)) as [Hc Hs].
  { intros rc' Hin. apply coord_key_ne. by intros ->. }
  unfold cachedAt. fold res in Hc, Hs. by rewrite Hc, Hs.
Qed.

(** The style cache after the loop, at a coordinate of the loop. *)
Lemma renderCoords_styleCache_at p km acc (l : list (Z * Z)) rc :
  NoDup l → rc ∈ l →
  styleCache (foldl (renderCoord cellRenderer production p km) acc l).1
    !! getKey rc.1 rc.2
  = (positionStyleAt p rc (styleCache acc.1)).2 !! getKey rc.1 rc.2.
Proof.
  revert acc. induction l as [|rc' l IH]; intros [st L] Hnd Hin.
  { by apply elem_of_nil in Hin. }
  apply NoDup_cons in Hnd as [Hnotin Hnd]. cbn [foldl fst].
  destruct (renderCoord_fields cellRenderer production p km st L rc')
    as (Hsc & _ & _ & _).
  destruct (decide (rc = rc')) as [->|Hne].
  - destruct (renderCoords_other_coord p km
                (renderCoord cellRenderer production p km (st, L) rc') l rc' Hnotin)
      as [_ ->].
    by rewrite Hsc.
  - apply elem_of_cons in Hin as [?|Hin]; [done|].
    rewrite IH by done.
    apply positionStyleAt_frame. rewrite Hsc.
    apply positionStyleAt_other. by apply coord_key_ne.
Qed.

(** ** The calls of the cell renderer *)

(** The calls made during the loop: where, and with which arguments. *)
Lemma renderCoords_trace p km acc (l : list (Z * Z)) :
  NoDup l →
  let res := foldl (renderCoord cellRenderer production p km) acc l in
  ∃ new,
    calls res.1 = calls acc.1 ++ new
    ∧ callCoords new
      = List.filter (λ rc, negb (usesCellCache p && truthy (cachedAt acc.1 rc))) l
    ∧ Forall (λ args,
                let rc := (cr_rowIndex args, cr_columnIndex args) in
                args = cellRendererParamsAt p (reuseKeyAt km rc) (cr_parent args)
                         (positionStyleAt p rc (styleCache acc.1)).1 rc)
             new.
Proof.
  induction l as [|rc l IH] using rev_ind; intros Hnd res.
  { exists []. by rewrite app_nil_r. }
  apply NoDup_app in Hnd as (Hnd & Hnotin & _).
  assert (rc ∉ l) as Hrc by (intros Hin; apply (Hnotin rc Hin); left).
  destruct (IH Hnd) as (new & Hcalls & Hcoords & Hargs). clear IH.
  destruct (renderCoords_other_coord p km acc l rc Hrc) as [Hcached Hstyle].
  subst res. rewrite foldl_snoc. cbv zeta in *.
  destruct (foldl (renderCoord cellRenderer production p km) acc l) as [st L].
  cbn [fst snd] in *.
  destruct (renderCoord_fields cellRenderer production p km st L rc)
    as (_ & _ & _ & Hcases).
  rewrite List.filter_app. cbn [List.filter]. rewrite <-Hcached.
  unfold cachedAt at 1.
  destruct (usesCellCache p && truthy _); cbn [negb];
    destruct Hcases as (_ & _ & -> & _).
  - exists new. by rewrite app_nil_r.
  - eexists (new ++ [_]). split_and!.
    + by rewrite Hcalls, app_assoc.
    + unfold callCoords in *. rewrite fmap_app, Hcoords. by destruct rc.
    + apply Forall_app. split; [done|]. apply Forall_singleton.
      cbv zeta. cbn [cellRendererParamsAt cr_rowIndex cr_columnIndex cr_parent].
      destruct rc as [r c]. cbn [fst snd].
      by destruct (positionStyleAt_frame p (r, c) (styleCache st) (styleCache acc.1)
                     Hstyle) as [-> _].
Qed.

Lemma elem_of_callCoords (new : list CellRendererParams) args :
  args ∈ new → (cr_rowIndex args, cr_columnIndex args) ∈ callCoords new.
Proof. intros Hin. unfold callCoords. apply list_elem_of_fmap. by exists args. Qed.
Lemma recycle_slot v p st rc :
  rc ∈ rectCoords (rowStartIndex p) (rowStopIndex p)
         (columnStartIndex p) (columnStopIndex p) →
  ∃ slot, (recycle v p st).1 !! getKey rc.1 rc.2 = Some slot
          ∧ reuseKeyAt (recycle v p st).1 rc = toString slot.
Proof.
  destruct rc as [r c]. intros [Hr Hc]%elem_of_rectCoords.
  destruct (recycle_is_Some v p st r c Hr Hc) as [slot Hslot].
  exists slot. split; [done|]. unfold reuseKeyAt. cbn [fst snd]. by rewrite Hslot.
Qed.

(** The calls of one render. *)
Lemma renderLoop_trace v p st :
  ∃ new,
    calls (renderLoop cellRenderer production v p st).1 = calls st ++ new
    ∧ callCoords new
      = List.filter (λ rc, negb (usesCellCache p && truthy (cachedAt st rc)))
          (rectCoords (rowStartIndex p) (rowStopIndex p)
             (columnStartIndex p) (columnStopIndex p))
    ∧ ∀ args, args ∈ new →
        let rc := (cr_rowIndex args, cr_columnIndex args) in
        rc ∈ rectCoords (rowStartIndex p) (rowStopIndex p)
               (columnStartIndex p) (columnStopIndex p)
        ∧ args = cellRendererParamsAt p (reuseKeyAt (recycle v p st).1 rc)
                   (cr_parent args) (positionStyleAt p rc (styleCache st)).1 rc.
Proof.
  unfold renderLoop.
  destruct (renderCoords_trace p (recycle v p st).1 ((recycle v p st).2, [])
              (rectCoords (rowStartIndex p) (rowStopIndex p)
                 (columnStartIndex p) (columnStopIndex p)))
    as (new & Hcalls & Hcoords & Hargs); [apply NoDup_rectCoords|].
  cbv zeta in *. cbn [fst snd] in *.
  pose proof (recycle_agree v p st) as Hagree.
  rewrite <-(agree_calls _ _ _ Hagree) in Hcalls.
  rewrite <-(agree_styleCache _ _ _ Hagree eq_refl) in Hargs.
  unfold cachedAt in Hcoords. rewrite <-(agree_cells _ _ _ Hagree) in Hcoords.
  exists new. split_and!; [done..|].
  intros args Hin. split; [|by eapply Forall_forall in Hargs].
  apply elem_of_callCoords in Hin. rewrite Hcoords in Hin.
  by apply list_elem_of_In, List.filter_In, proj1, list_elem_of_In in Hin.
Qed.

(** X10. Every call of the cell renderer made during a render is at a
    coordinate of the range and is given: as [key] the string of the slot key
    the recycler assigned to that coordinate in this render; the [isScrolling]
    flag of the render; [isVisible] true exactly if the coordinate lies within
    the visible row and column indices; and as [style] the entry of the style
    cache for the coordinate if styles may be cached and there is one, and
    otherwise the style made from the managers' sizes and offsets, or, for a
    cell the deferred measurement cache does not have, the style with automatic
    sizes at the origin. *)
Theorem defaultCellRangeRenderer_call_arguments v p st :
  ∃ out st' new,
    defaultCellRangeRenderer cellRenderer production v p st = Some (out, st')
    ∧ calls st' = calls st ++ new
    ∧ ∀ args, args ∈ new →
        let r := cr_rowIndex args in
        let c := cr_columnIndex args in
        rowStartIndex p ≤ r ≤ rowStopIndex p
        ∧ columnStartIndex p ≤ c ≤ columnStopIndex p
        ∧ (∃ slot, (recycle v p st).1 !! getKey r c = Some slot
                   ∧ cr_key args = toString slot)
        ∧ cr_isScrolling args = isScrolling p
        ∧ (cr_isVisible args = true
           ↔ Indices.start (visibleColumnIndices p) ≤ c
                ≤ Indices.stop (visibleColumnIndices p)
             ∧ Indices.start (visibleRowIndices p) ≤ r
                 ≤ Indices.stop (visibleRowIndices p))
        ∧ cr_style args
          = match (if canCacheStyle p then styleCache st !! getKey r c else None) with
            | Some style => style
            | None =>
                if measured p (r, c) then managedStyle p (r, c) else unmeasuredStyle
            end.
Proof.
  destruct (renderLoop_trace v p st) as (new & Hcalls & _ & Hargs).
  eexists _, _, new. split; [apply defaultCellRangeRenderer_loop|].
  split; [done|]. intros args Hin r c.
  destruct (Hargs args Hin) as [Hrect Heq]. cbv zeta in *. fold r c in Hrect, Heq.
  destruct (recycle_slot v p st (r, c) Hrect) as (slot & Hslot & Hkey).
  apply elem_of_rectCoords in Hrect as [Hr Hc].
  rewrite Heq. cbn [cellRendererParamsAt cr_key cr_isScrolling cr_isVisible cr_style fst snd].
  do 2 (split; [done|]). split; [by exists slot|]. split; [done|]. split.
  - rewrite !andb_true_iff, !Z.leb_le. tauto.
  - rewrite positionStyleAt_cases. cbn [fst snd].
    destruct (if canCacheStyle p then _ else _); [done|].
    by destruct (measured p (r, c)).
Qed.

(** X11. The cell renderer is called, in row-major order, at exactly those
    coordinates of the range for which the cache path is not taken or the cell
    cache held no cell before the render: once at each, and nowhere else. *)
Theorem defaultCellRangeRenderer_calls_where_uncached v p st :
  ∃ out st' new,
    defaultCellRangeRenderer cellRenderer production v p st = Some (out, st')
    ∧ calls st' = calls st ++ new
    ∧ callCoords new
      = List.filter (λ rc, negb (usesCellCache p && truthy (cachedAt st rc)))
          (rectCoords (rowStartIndex p) (rowStopIndex p)
             (columnStartIndex p) (columnStopIndex p)).
Proof.
  destruct (renderLoop_trace v p st) as (new & Hcalls & Hcoords & _).
  eexists _, _, new. split; [apply defaultCellRangeRenderer_loop|]. done.
Qed.

(** ** The number of cells *)

Lemma renderCoords_length p km acc (l : list (Z * Z)) :
  let res := foldl (renderCoord cellRenderer production p km) acc l in
  (length res.2 ≤ length acc.2 + length l)%nat
  ∧ (alwaysRenders cellRenderer → length res.2 = (length acc.2 + length l)%nat).
Proof.
  revert acc. induction l as [|rc l IH]; intros [st L]; cbn [foldl fst snd].
  { cbn [length]. split; [lia|]. intros _. lia. }
  destruct (IH (renderCoord cellRenderer production p km (st, L) rc)) as [Hle Heq].
  destruct (renderCoord_fields cellRenderer production p km st L rc)
    as (_ & _ & _ & Hcases).
  cbv zeta in *. cbn [length].
  destruct (usesCellCache p && truthy _) eqn:Hcond.
  - destruct Hcases as (_ & _ & _ & HL).
    apply andb_true_iff in Hcond as [_ [e He]%truthy_RElement].
    rewrite He in HL. rewrite HL in Hle, Heq.
    assert (∀ k, length (L ++ emitted (rekeyed k (RElement e))) = S (length L)) as Hlen.
    { intros k. rewrite length_app. simpl. case_decide; simpl; lia. }
    rewrite Hlen in Hle, Heq. split; [lia|]. intros Hall. rewrite Heq by done. lia.
  - destruct Hcases as (_ & _ & _ & HL). rewrite HL in Hle, Heq.
    rewrite length_app in Hle, Heq. split.
    + assert (∀ r, length (emitted r) ≤ 1)%nat as Hone by (by intros []; simpl; lia).
      assert (∀ k r, length (emitted (rekeyed k r)) ≤ 1)%nat as Hone'.
      { intros k []; simpl; try lia. case_decide; simpl; lia. }
      destruct (usesCellCache p); [specialize (Hone' (reuseKeyAt km rc)
        (cellRenderer (cellRendererParamsAt p (reuseKeyAt km rc)
           (warnedAboutMissingStyle (parent st))
           (positionStyleAt p rc (styleCache st)).1 rc) (world st)).1)
        |specialize (Hone (cellRenderer (cellRendererParamsAt p (reuseKeyAt km rc)
           (warnedAboutMissingStyle (parent st))
           (positionStyleAt p rc (styleCache st)).1 rc) (world st)).1)]; lia.
    + intros Hall. rewrite Heq by done.
      pose proof (Hall (cellRendererParamsAt p (reuseKeyAt km rc)
                          (warnedAboutMissingStyle (parent st))
                          (positionStyleAt p rc (styleCache st)).1 rc) (world st))
        as [e He]%truthy_RElement.
      rewrite He. destruct (usesCellCache p); simpl; [case_decide|]; simpl; lia.
Qed.

(** X14. A render returns at most one cell per coordinate of the range, and
    exactly one per coordinate if the cell renderer returns a cell whenever it
    is called. *)
Theorem defaultCellRangeRenderer_one_cell_each v p st :
  let N := (Z.to_nat (rowStopIndex p - rowStartIndex p + 1)
            * Z.to_nat (columnStopIndex p - columnStartIndex p + 1))%nat in
  ∃ out st',
    defaultCellRangeRenderer cellRenderer production v p st = Some (out, st')
    ∧ (length out ≤ N)%nat
    ∧ (alwaysRenders cellRenderer → length out = N).
Proof.
  intros N. eexists _, _. split; [apply defaultCellRangeRenderer_loop|].
  rewrite (Permutation_length (sort_Permutation _ _)). unfold renderLoop.
  destruct (renderCoords_length p (recycle v p st).1 ((recycle v p st).2, [])
              (rectCoords (rowStartIndex p) (rowStopIndex p)
                 (columnStartIndex p) (columnStopIndex p))) as [Hle Heq].
  cbv zeta in *. cbn [fst snd length] in *. rewrite length_rectCoords in Hle, Heq.
  split; [done|]. intros Hall. by rewrite Heq.
Qed.

(** ** An empty range *)

(** X13. For an empty range (a stop index below its start index) the
    renderer returns no cell, does not call the cell renderer, leaves the
    caches, the parent's flag and the application's state as they were, and
    leaves an empty recycler. *)
Theorem defaultCellRangeRenderer_empty_range v p st :
  rowStopIndex p < rowStartIndex p ∨ columnStopIndex p < columnStartIndex p →
  ∃ st',
    defaultCellRangeRenderer cellRenderer production v p st = Some ([], st')
    ∧ agree true st st'
    ∧ keyCacheOf v st' = Some newReusableKeyCache.
Proof.
  intros Hempty. eexists. rewrite defaultCellRangeRenderer_loop. unfold renderLoop.
  rewrite rectCoords_empty by done. cbn [foldl fst snd]. split; [done|].
  split; [apply recycle_agree|].
  rewrite recycle_keyCacheOf, getReusableKeyMap_unfold, rectKeys_empty by done. done.
Qed.
(** ** Off the cache path *)

Lemma recycle_withCells v p st cells' :
  recycle v p (withCells st cells')
  = ((recycle v p st).1, withCells (recycle v p st).2 cells').
Proof.
  unfold recycle, withCells, withCellCache, withParent.
  destruct v; cbn [cellCache cellKeyCache parent cells];
    by destruct (getReusableKeyMap _ _ _ _ _).
Qed.

Lemma renderCoord_withCells p km st L rc cells' :
  usesCellCache p = false →
  renderCoord cellRenderer production p km (withCells st cells', L) rc
  = (withCells (renderCoord cellRenderer production p km (st, L) rc).1 cells',
     (renderCoord cellRenderer production p km (st, L) rc).2)
  ∧ cells (cellCache (renderCoord cellRenderer production p km (st, L) rc).1)
    = cells (cellCache st).
Proof.
  intros Hcache. rewrite !renderCoord_unfold. cbv zeta. rewrite Hcache.
  cbn [withCells withCellCache styleCache parent].
  set (args := cellRendererParamsAt _ _ _ _ _).
  unfold callCellRenderer. cbn [world withStyleCache withCells withCellCache].
  destruct (cellRenderer args (world st)) as [r w]. cbn [fst snd].
  destruct r as [| | |e]; cbn [emitted foldl]; try done.
  unfold warnAboutMissingStyle. destruct production; [done|].
  destruct (if Element.cellMeasurer e then _ else _) as [inner|]; [|done].
  simpl. destruct (Element.style inner); [done|].
  by destruct (warnedAboutMissingStyle (parent st)).
Qed.

Lemma renderCoords_withCells p km acc (l : list (Z * Z)) cells' :
  usesCellCache p = false →
  foldl (renderCoord cellRenderer production p km) (withCells acc.1 cells', acc.2) l
  = (withCells (foldl (renderCoord cellRenderer production p km) acc l).1 cells',
     (foldl (renderCoord cellRenderer production p km) acc l).2)
  ∧ cells (cellCache (foldl (renderCoord cellRenderer production p km) acc l).1)
    = cells (cellCache acc.1).
Proof.
  intros Hcache. revert acc. induction l as [|rc l IH]; intros [st L]; [done|].
  cbn [foldl fst snd].
  destruct (renderCoord_withCells p km st L rc cells' Hcache) as [-> Hcells].
  destruct (IH (renderCoord cellRenderer production p km (st, L) rc)) as [-> ->].
  by rewrite Hcells.
Qed.

(** X12. Off the cache path (not scrolling without the opt-out, or with an
    offset adjustment) the cells of the cell cache are neither written nor
    read: they are the same after the render, and with any other cells in the
    cell cache the render returns the same cells and leaves the same store,
    those other cells aside. *)
Theorem defaultCellRangeRenderer_cell_cache_unused v p st cells' :
  usesCellCache p = false →
  ∃ out st',
    defaultCellRangeRenderer cellRenderer production v p st = Some (out, st')
    ∧ cells (cellCache st') = cells (cellCache st)
    ∧ defaultCellRangeRenderer cellRenderer production v p (withCells st cells')
      = Some (out, withCells st' cells').
Proof.
  intros Hcache. eexists _, _. split; [apply defaultCellRangeRenderer_loop|].
  unfold renderLoop.
  destruct (renderCoords_withCells p (recycle v p st).1 ((recycle v p st).2, [])
              (rectCoords (rowStartIndex p) (rowStopIndex p)
                 (columnStartIndex p) (columnStopIndex p)) cells' Hcache)
    as [Hwith Hcells].
  cbn [fst snd] in Hwith, Hcells. split.
  - rewrite Hcells. symmetry. apply (agree_cells _ _ _ (recycle_agree v p st)).
  - rewrite defaultCellRangeRenderer_loop. unfold renderLoop.
    rewrite recycle_withCells. cbn [fst snd]. by rewrite Hwith.
Qed.

(** ** The style cache *)

(** X17. While scrolling, the style cache is not read: with any other style
    cache in its place the renderer returns the same cells, calls the cell
    renderer with the same arguments and leaves the same cell cache, parent and
    application state. *)
Theorem defaultCellRangeRenderer_style_cache_unread_scrolling v p st sc :
  isScrolling p = true →
  ∃ out st1 st2,
    defaultCellRangeRenderer cellRenderer production v p st = Some (out, st1)
    ∧ defaultCellRangeRenderer cellRenderer production v p (withStyleCache st sc)
      = Some (out, st2)
    ∧ agree false st1 st2
    ∧ keyCacheOf v st1 = keyCacheOf v st2.
Proof.
  intros Hscrolling.
  assert (canCacheStyle p = false) as Hcan.
  { unfold canCacheStyle. by rewrite Hscrolling. }
  assert (keyCacheOf v (withStyleCache st sc) = keyCacheOf v st) as Hkeys
    by by destruct v.
  assert ((recycle v p (withStyleCache st sc)).1 = (recycle v p st).1) as Hkm
    by by rewrite !recycle_keyMap_eq, Hkeys.
  destruct (renderCoords_agree cellRenderer production false p (recycle v p st).1
              ((recycle v p st).2, []) ((recycle v p (withStyleCache st sc)).2, [])
              (rectCoords (rowStartIndex p) (rowStopIndex p)
                 (columnStartIndex p) (columnStopIndex p)))
    as [Hagree' HL]; [congruence| |done|].
  { cbn [fst]. unfold recycle. by destruct v. }
  eexists _, _, _. split; [apply defaultCellRangeRenderer_loop|].
  split; [rewrite defaultCellRangeRenderer_loop; unfold renderLoop; rewrite Hkm, <-HL; done|].
  unfold renderLoop. split; [done|].
  rewrite !renderCoords_keyCacheOf. cbn [fst].
  by rewrite !recycle_keyCacheOf, Hkeys.
Qed.

(** X18. A render leaves the entries of the cell cache and of the style
    cache alone at every key that is not the key of a coordinate of the
    range. *)
Theorem defaultCellRangeRenderer_other_keys v p st key :
  (∀ r c, rowStartIndex p ≤ r ≤ rowStopIndex p →
          columnStartIndex p ≤ c ≤ columnStopIndex p → key ≠ getKey r c) →
  ∃ out st',
    defaultCellRangeRenderer cellRenderer production v p st = Some (out, st')
    ∧ cells (cellCache st') !! key = cells (cellCache st) !! key
    ∧ styleCache st' !! key = styleCache st !! key.
Proof.
  intros Hother. eexists _, _. split; [apply defaultCellRangeRenderer_loop|].
  unfold renderLoop.
  destruct (renderCoords_other_keys p (recycle v p st).1 ((recycle v p st).2, [])
              (rectCoords (rowStartIndex p) (rowStopIndex p)
                 (columnStartIndex p) (columnStopIndex p)) key) as [Hc Hs].
  { intros [r c] [Hr Hc]%elem_of_rectCoords. by apply Hother. }
  cbv zeta in *. cbn [fst] in *. rewrite Hc, Hs.
  pose proof (recycle_agree v p st) as Hagree.
  by rewrite <-(agree_cells _ _ _ Hagree), <-(agree_styleCache _ _ _ Hagree eq_refl).
Qed.

(** X19. After a render, the style cache holds for a coordinate of the
    range: the entry it held before, if styles may be cached (not scrolling, no
    adjusted offsets) and there was one; otherwise the style made from the
    managers' sizes and offsets, if the cell counts as measured; and otherwise
    what it held before.  A cached style thus survives a change of the
    managers for as long as styles may be cached. *)
Theorem defaultCellRangeRenderer_style_cache_after v p st r c :
  rowStartIndex p ≤ r ≤ rowStopIndex p →
  columnStartIndex p ≤ c ≤ columnStopIndex p →
  ∃ out st',
    defaultCellRangeRenderer cellRenderer production v p st = Some (out, st')
    ∧ styleCache st' !! getKey r c
      = match (if canCacheStyle p then styleCache st !! getKey r c else None) with
        | Some style => Some style
        | None =>
            if measured p (r, c) then Some (managedStyle p (r, c))
            else styleCache st !! getKey r c
        end.
Proof.
  intros Hr Hc. eexists _, _. split; [apply defaultCellRangeRenderer_loop|].
  unfold renderLoop.
  rewrite (renderCoords_styleCache_at p (recycle v p st).1 ((recycle v p st).2, [])
             _ (r, c)); [|apply NoDup_rectCoords|by apply elem_of_rectCoords].
  cbn [fst snd].
  rewrite <-(agree_styleCache _ _ _ (recycle_agree v p st) eq_refl).
  rewrite positionStyleAt_cases. cbn [fst snd].
  destruct (canCacheStyle p).
  - destruct (styleCache st !! getKey r c) as [style|] eqn:Hstyle; [done|].
    destruct (measured p (r, c)); [|done]. simpl. apply lookup_insert_eq.
  - destruct (measured p (r, c)); [|done]. simpl. apply lookup_insert_eq.
Qed.

(** ** Keys across renders *)

Lemma renderLoop_keyCacheOf v p st :
  keyCacheOf v (renderLoop cellRenderer production v p st).1
  = Some (getReusableKeyMap (default newReusableKeyCache (keyCacheOf v st))
            (rowStartIndex p) (rowStopIndex p)
            (columnStartIndex p) (columnStopIndex p)).2.
Proof.
  unfold renderLoop. rewrite renderCoords_keyCacheOf. cbn [fst].
  apply recycle_keyCacheOf.
Qed.

(** X9. In two renders in a row on the same caches and parent, a coordinate
    that lies in both ranges is assigned the same slot key, and every call of
    the cell renderer at that coordinate, in either render, is given the string
    of that slot key as its [key]. *)
Theorem defaultCellRangeRenderer_keys_persist v p1 p2 st r c :
  rowStartIndex p1 ≤ r ≤ rowStopIndex p1 →
  columnStartIndex p1 ≤ c ≤ columnStopIndex p1 →
  rowStartIndex p2 ≤ r ≤ rowStopIndex p2 →
  columnStartIndex p2 ≤ c ≤ columnStopIndex p2 →
  ∃ out1 st1 new1 out2 st2 new2 slot,
    defaultCellRangeRenderer cellRenderer production v p1 st = Some (out1, st1)
    ∧ defaultCellRangeRenderer cellRenderer production v p2 st1 = Some (out2, st2)
    ∧ calls st1 = calls st ++ new1
    ∧ calls st2 = calls st1 ++ new2
    ∧ (recycle v p1 st).1 !! getKey r c = Some slot
    ∧ (recycle v p2 st1).1 !! getKey r c = Some slot
    ∧ ∀ args, args ∈ new1 ++ new2 →
        cr_rowIndex args = r → cr_columnIndex args = c →
        cr_key args = toString slot.
Proof.
  intros Hr1 Hc1 Hr2 Hc2.
  set (st1 := (renderLoop cellRenderer production v p1 st).1).
  destruct (renderLoop_trace v p1 st) as (new1 & Hcalls1 & _ & Hargs1).
  destruct (renderLoop_trace v p2 st1) as (new2 & Hcalls2 & _ & Hargs2).
  destruct (recycle_is_Some v p1 st r c Hr1 Hc1) as [slot Hslot].
  assert ((recycle v p2 st1).1 !! getKey r c = Some slot) as Hslot2.
  { rewrite recycle_keyMap_eq. unfold st1. rewrite renderLoop_keyCacheOf. cbn [default].
    apply keyMap_carried; [apply elem_of_rectKeys; by exists r, c|].
    rewrite recycle_keyMap_eq in Hslot. exact Hslot. }
  eexists _, st1, new1, _, _, new2, slot.
  split; [apply defaultCellRangeRenderer_loop|].
  split; [apply defaultCellRangeRenderer_loop|].
  do 4 (split; [done|]).
  intros args [Hin|Hin]%elem_of_app <- <-.
  - destruct (Hargs1 args Hin) as [_ ->]. cbn [cellRendererParamsAt cr_key].
    unfold reuseKeyAt. cbn [fst snd cr_rowIndex cr_columnIndex] in *.
    by rewrite Hslot.
  - destruct (Hargs2 args Hin) as [_ ->]. cbn [cellRendererParamsAt cr_key].
    unfold reuseKeyAt. cbn [fst snd cr_rowIndex cr_columnIndex] in *.
    by rewrite Hslot2.
Qed.

(** X20. When the object that holds the recycler holds none (a first
    render, or, in the variant that keeps it on the cell cache, a new cell
    cache), every call of the cell renderer is given as [key] the string of the
    position of its coordinate in row-major order, counted from 1. *)
Theorem defaultCellRangeRenderer_first_render_keys v p st :
  keyCacheOf v st = None →
  ∃ out st' new,
    defaultCellRangeRenderer cellRenderer production v p st = Some (out, st')
    ∧ calls st' = calls st ++ new
    ∧ ∀ args, args ∈ new →
        cr_key args
        = toString (Z.to_nat ((cr_rowIndex args - rowStartIndex p)
                              * (columnStopIndex p - columnStartIndex p + 1)
                              + (cr_columnIndex args - columnStartIndex p) + 1)).
Proof.
  intros Hnone.
  destruct (renderLoop_trace v p st) as (new & Hcalls & _ & Hargs).
  eexists _, _, new. split; [apply defaultCellRangeRenderer_loop|].
  split; [done|]. intros args Hin.
  destruct (Hargs args Hin) as [[Hr Hc]%elem_of_rectCoords Heq].
  rewrite Heq at 1. cbn [cellRendererParamsAt cr_key]. unfold reuseKeyAt. cbn [fst snd].
  rewrite recycle_keyMap_eq, Hnone. cbn [default].
  by rewrite keyMap_fresh_at.
Qed.
(** Off the cache path the cells pushed are the ones the cell renderer
    returned. *)
Lemma renderCoords_fresh_cells p km acc (l : list (Z * Z)) :
  usesCellCache p = false →
  let res := foldl (renderCoord cellRenderer production p km) acc l in
  ∃ new,
    calls res.1 = calls acc.1 ++ new
    ∧ ∀ e, e ∈ res.2 →
        e ∈ acc.2 ∨ ∃ args w, args ∈ new ∧ (cellRenderer args w).1 = RElement e.
Proof.
  intros Hcache. revert acc. induction l as [|rc l IH]; intros [st L]; cbn [foldl fst snd].
  { exists []. rewrite app_nil_r. split; [done|]. intros e He. by left. }
  destruct (IH (renderCoord cellRenderer production p km (st, L) rc))
    as (new & Hcalls & Hcells).
  destruct (renderCoord_fields cellRenderer production p km st L rc)
    as (_ & _ & _ & Hcases).
  cbv zeta in *. rewrite Hcache in Hcases. cbn [andb] in Hcases.
  destruct Hcases as (_ & _ & Hstep & HL).
  set (args := cellRendererParamsAt _ _ _ _ _) in *.
  exists (args :: new). split.
  { rewrite Hcalls, Hstep, <-app_assoc. done. }
  intros e He. destruct (Hcells e He) as [Hin|(args' & w & Hin & Hres)].
  - rewrite HL in Hin. apply elem_of_app in Hin as [?|Hin]; [by left|]. right.
    exists args, (world st). split; [left|].
    destruct (cellRenderer args (world st)).1; simpl in Hin;
      try by apply elem_of_nil in Hin.
    by apply list_elem_of_singleton in Hin as ->.
  - right. exists args', w. split; [by right|done].
Qed.

(** X21. Off the cache path, every cell returned is a cell that the cell
    renderer returned for one of the calls of this render, unchanged: no key
    is replaced. *)
Theorem defaultCellRangeRenderer_returns_rendered_cells v p st :
  usesCellCache p = false →
  ∃ out st' new,
    defaultCellRangeRenderer cellRenderer production v p st = Some (out, st')
    ∧ calls st' = calls st ++ new
    ∧ ∀ e, e ∈ out → ∃ args w, args ∈ new ∧ (cellRenderer args w).1 = RElement e.
Proof.
  intros Hcache.
  destruct (renderCoords_fresh_cells p (recycle v p st).1 ((recycle v p st).2, [])
              (rectCoords (rowStartIndex p) (rowStopIndex p)
                 (columnStartIndex p) (columnStopIndex p)) Hcache)
    as (new & Hcalls & Hcells).
  cbv zeta in *. cbn [fst snd] in *.
  rewrite <-(agree_calls _ _ _ (recycle_agree v p st)) in Hcalls.
  eexists _, _, new. split; [apply defaultCellRangeRenderer_loop|].
  split; [done|]. intros e He. rewrite sort_Permutation in He.
  destruct (Hcells e He) as [Hnil|?]; [by apply elem_of_nil in Hnil|done].
Qed.
(** ** The order of the cells of a first render *)

(** The keys of the cells pushed on a first render, when every coordinate
    yields a cell. *)
Lemma renderLoop_first_keys v p st :
  keyCacheOf v st = None → alwaysRenders cellRenderer →
  usesCellCache p = true ∨ usesGivenKey cellRenderer →
  Element.key <$> (renderLoop cellRenderer production v p st).2
  = (λ slot, Some (toString slot))
      <$> seq 1 (Z.to_nat (rowStopIndex p - rowStartIndex p + 1)
                 * Z.to_nat (columnStopIndex p - columnStartIndex p + 1)).
Proof.
  intros Hnone Hall Hkeyed. unfold renderLoop.
  set (coords := rectCoords (rowStartIndex p) (rowStopIndex p)
                   (columnStartIndex p) (columnStopIndex p)).
  destruct (renderCoords_keys cellRenderer production p (recycle v p st).1
              (recycle v p st).2 [] coords Hkeyed) as (l' & Hsub & Hkeys).
  destruct (renderCoords_length p (recycle v p st).1 ((recycle v p st).2, []) coords)
    as [_ Hlen].
  cbv zeta in Hlen. cbn [fst snd length] in Hlen. specialize (Hlen Hall).
  assert (l' = coords) as ->.
  { apply sublist_same_length; [done|].
    apply (f_equal length) in Hkeys.
    rewrite length_fmap, length_app, !length_fmap in Hkeys.
    cbn [length Nat.add] in Hkeys. lia. }
  rewrite Hkeys. cbn [fmap list_fmap app].
  rewrite <-length_rectCoords. fold coords.
  apply list_eq. intros i. rewrite !list_lookup_fmap.
  destruct (coords !! i) as [rc|] eqn:Hrc.
  - rewrite lookup_seq_lt by (by eapply lookup_lt_Some).
    cbn [fmap option_fmap option_map]. do 2 f_equal.
    unfold reuseKeyAt. rewrite recycle_keyMap_eq, Hnone. cbn [default].
    rewrite (keyMap_fresh_nth _ _ _ _ i); [done|].
    unfold rectKeys. fold coords. by rewrite list_lookup_fmap, Hrc.
  - rewrite lookup_seq_ge by (by apply lookup_ge_None). done.
Qed.

(** X22. On a first render in which every coordinate yields a cell (and, off
    the cache path, the cell renderer puts the key it is given on its cells),
    the cells come back with the keys 1, ..., N in this order in the variant
    that sorts by [parseInt(a.key) - parseInt(b.key)], which is the row-major
    order of their coordinates, and with the keys N, ..., 1 in the variant of
    [source/Grid/defaultCellRangeRenderer.js]. *)
Theorem defaultCellRangeRenderer_first_render_order v p st :
  keyCacheOf v st = None → alwaysRenders cellRenderer →
  usesCellCache p = true ∨ usesGivenKey cellRenderer →
  let N := (Z.to_nat (rowStopIndex p - rowStartIndex p + 1)
            * Z.to_nat (columnStopIndex p - columnStartIndex p + 1))%nat in
  let keys := (λ slot, Some (toString slot)) <$> seq 1 N in
  ∃ out st',
    defaultCellRangeRenderer cellRenderer production v p st = Some (out, st')
    ∧ Element.key <$> out
      = match v with KeysOnParent => keys | KeysOnCellCache => reverse keys end.
Proof.
  intros Hnone Hall Hkeyed N keys.
  eexists _, _. split; [apply defaultCellRangeRenderer_loop|].
  pose proof (renderLoop_first_keys v p st Hnone Hall Hkeyed) as Hkeys.
  fold N keys in Hkeys.
  destruct (increasing_keys_order _ _ Hkeys) as [Hup Hdown].
  { clear. generalize 1%nat. induction N as [|N IH]; intros start; simpl; constructor.
    - apply IH.
    - apply Forall_forall. intros n Hn%elem_of_seq. lia. }
  destruct v.
  - rewrite (sort_reversed _ _ Hdown), fmap_reverse. by rewrite Hkeys.
  - by rewrite (sort_in_order _ _ Hup).
Qed.

End RendererMore.
(** * The further properties at sample inputs *)

Lemma defaultOverscanIndicesGetter_in_bounds_witness :
  let params := {| cellCount := 0; overscanCellsCount := 3;
                   scrollDirection := SCROLL_DIRECTION_BACKWARD;
                   startIndex := 0; stopIndex := 0 |} in
  overscanStopIndex (defaultOverscanIndicesGetter params)
  < overscanStartIndex (defaultOverscanIndicesGetter params).
Proof.
  intros params.
  apply (proj1 (proj2 (proj2 (defaultOverscanIndicesGetter_in_bounds params)))).
  simpl. lia.
Defined.

Lemma defaultCellRangeRenderer_cell_cache_unused_witness :
  let p := Sample.params 0 1 0 0 false false in
  let cells' : gmap string Rendered := {[ "0-0" := RElement Sample.staleCell ]} in
  ∃ out st',
    defaultCellRangeRenderer Sample.keyed false KeysOnParent p Sample.store
    = Some (out, st')
    ∧ cells (cellCache st') = cells (cellCache Sample.store)
    ∧ defaultCellRangeRenderer Sample.keyed false KeysOnParent p
        (withCells Sample.store cells')
      = Some (out, withCells st' cells').
Proof.
  intros p cells'.
  apply (defaultCellRangeRenderer_cell_cache_unused Sample.keyed false KeysOnParent
           p Sample.store cells').
  reflexivity.
Defined.

Lemma defaultCellRangeRenderer_style_cache_unread_scrolling_witness :
  let p := Sample.params 0 1 0 0 true false in
  ∃ out st1 st2,
    defaultCellRangeRenderer Sample.keyed false KeysOnCellCache p Sample.store
    = Some (out, st1)
    ∧ defaultCellRangeRenderer Sample.keyed false KeysOnCellCache p
        (withStyleCache Sample.store {[ "0-0" := Sample.staleStyle ]})
      = Some (out, st2)
    ∧ agree false st1 st2
    ∧ keyCacheOf KeysOnCellCache st1 = keyCacheOf KeysOnCellCache st2.
Proof.
  intros p.
  apply (defaultCellRangeRenderer_style_cache_unread_scrolling Sample.keyed false
           KeysOnCellCache p Sample.store {[ "0-0" := Sample.staleStyle ]}).
  reflexivity.
Defined.

Lemma defaultCellRangeRenderer_other_keys_witness :
  let p := Sample.params 0 1 0 0 true false in
  ∃ out st',
    defaultCellRangeRenderer Sample.keyed false KeysOnCellCache p Sample.staleStore
    = Some (out, st')
    ∧ cells (cellCache st') !! "5-0" = cells (cellCache Sample.staleStore) !! "5-0"
    ∧ styleCache st' !! "5-0" = styleCache Sample.staleStore !! "5-0".
Proof.
  intros p.
  apply (defaultCellRangeRenderer_other_keys Sample.keyed false KeysOnCellCache p
           Sample.staleStore "5-0").
  simpl. intros r c Hr Hc.
  assert (c = 0) as -> by lia.
  assert (r = 0 ∨ r = 1) as [-> | ->] by lia; discriminate.
Defined.

Lemma defaultCellRangeRenderer_style_cache_after_witness :
  let p := Sample.params 0 1 0 0 false false in
  let st := withStyleCache Sample.store {[ "0-0" := Sample.staleStyle ]} in
  ∃ out st',
    defaultCellRangeRenderer Sample.keyed false KeysOnParent p st = Some (out, st')
    ∧ styleCache st' !! getKey 0 0
      = match (if canCacheStyle p then styleCache st !! getKey 0 0 else None) with
        | Some style => Some style
        | None =>
            if measured p (0, 0) then Some (managedStyle p (0, 0))
            else styleCache st !! getKey 0 0
        end.
Proof.
  intros p st.
  apply (defaultCellRangeRenderer_style_cache_after Sample.keyed false KeysOnParent
           p st 0 0); simpl; lia.
Defined.

Lemma defaultCellRangeRenderer_keys_persist_witness :
  let p1 := Sample.params 0 2 0 0 false false in
  let p2 := Sample.params 1 3 0 0 false false in
  ∃ out1 st1 new1 out2 st2 new2 slot,
    defaultCellRangeRenderer Sample.keyed false KeysOnParent p1 Sample.store
    = Some (out1, st1)
    ∧ defaultCellRangeRenderer Sample.keyed false KeysOnParent p2 st1
      = Some (out2, st2)
    ∧ calls st1 = calls Sample.store ++ new1
    ∧ calls st2 = calls st1 ++ new2
    ∧ (recycle KeysOnParent p1 Sample.store).1 !! getKey 2 0 = Some slot
    ∧ (recycle KeysOnParent p2 st1).1 !! getKey 2 0 = Some slot
    ∧ ∀ args, args ∈ new1 ++ new2 →
        cr_rowIndex args = 2 → cr_columnIndex args = 0 →
        cr_key args = toString slot.
Proof.
  intros p1 p2.
  apply (defaultCellRangeRenderer_keys_persist Sample.keyed false KeysOnParent
           p1 p2 Sample.store 2 0); simpl; lia.
Defined.

Lemma defaultCellRangeRenderer_first_render_keys_witness :
  let p := Sample.params 0 1 0 1 false false in
  ∃ out st' new,
    defaultCellRangeRenderer Sample.keyed false KeysOnCellCache p Sample.store
    = Some (out, st')
    ∧ calls st' = calls Sample.store ++ new
    ∧ ∀ args, args ∈ new →
        cr_key args
        = toString (Z.to_nat ((cr_rowIndex args - rowStartIndex p)
                              * (columnStopIndex p - columnStartIndex p + 1)
                              + (cr_columnIndex args - columnStartIndex p) + 1)).
Proof.
  intros p.
  apply (defaultCellRangeRenderer_first_render_keys Sample.keyed false
           KeysOnCellCache p Sample.store).
  reflexivity.
Defined.

Lemma defaultCellRangeRenderer_empty_range_witness :
  let p := Sample.params 0 (-1) 0 0 true false in
  ∃ st',
    defaultCellRangeRenderer Sample.keyed false KeysOnCellCache p Sample.staleStore
    = Some ([], st')
    ∧ agree true Sample.staleStore st'
    ∧ keyCacheOf KeysOnCellCache st' = Some newReusableKeyCache.
Proof.
  intros p.
  apply (defaultCellRangeRenderer_empty_range Sample.keyed false KeysOnCellCache p
           Sample.staleStore).
  simpl. lia.
Defined.

Lemma defaultCellRangeRenderer_one_cell_each_witness :
  let p := Sample.params 0 1 0 1 true false in
  ∃ out st',
    defaultCellRangeRenderer Sample.keyed false KeysOnCellCache p Sample.staleStore
    = Some (out, st')
    ∧ length out = 4%nat.
Proof.
  intros p.
  destruct (defaultCellRangeRenderer_one_cell_each Sample.keyed false KeysOnCellCache
              p Sample.staleStore) as (out & st' & Hrun & _ & Hall).
  exists out, st'. split; [exact Hrun|]. apply Hall. intros args w. reflexivity.
Defined.

Lemma defaultCellRangeRenderer_returns_rendered_cells_witness :
  let p := Sample.params 0 1 0 0 false false in
  ∃ out st' new,
    defaultCellRangeRenderer Sample.ownKey false KeysOnParent p Sample.store
    = Some (out, st')
    ∧ calls st' = calls Sample.store ++ new
    ∧ ∀ e, e ∈ out → ∃ args w, args ∈ new ∧ (Sample.ownKey args w).1 = RElement e.
Proof.
  intros p.
  apply (defaultCellRangeRenderer_returns_rendered_cells Sample.ownKey false
           KeysOnParent p Sample.store).
  reflexivity.
Defined.

Lemma defaultCellRangeRenderer_first_render_order_witness :
  let p := Sample.params 0 1 0 1 false false in
  ∃ out st',
    defaultCellRangeRenderer Sample.keyed false KeysOnCellCache p Sample.store
    = Some (out, st')
    ∧ Element.key <$> out = [Some "4"; Some "3"; Some "2"; Some "1"].
Proof.
  intros p.
  apply (defaultCellRangeRenderer_first_render_order Sample.keyed false
           KeysOnCellCache p Sample.store).
  - reflexivity.
  - intros args w. reflexivity.
  - right. intros args w e Heq. simpl in Heq. by simplify_eq.
Defined.
